(** * Thunder: the storage-and-query layer of the relation store

    A shallow embedding of [persistent.go] (the relation: [Insert],
    [Delete], [Select], the planner [iter] and the residual filter
    [matchOps]), of [dataStorage] (the primary row bucket) and of
    [indexStorage.get] (the index cursor scan), over a model of the
    B-tree engine's buckets and cursors, followed by the properties of
    the specification that concern them.

    Conventions.
    - A Go [[]byte] is a [list byte]; [bytes.Compare] is the
      lexicographic comparison of the bytes read as numbers.
    - A Go [map[string]T] is a [gmap string T]; a [range] loop over a
      map visits the entries in the order of [map_to_list].  Go leaves
      that order unspecified, and no proof below looks at it.
    - A bucket of the B-tree engine is the list of its entries in
      ascending key order; a cursor is a suffix of that list.  A cursor
      visits the entries the bucket held when the cursor was opened.
    - A Go iterator [func(yield func(K, V) bool)] is a function from the
      consumer's [yield] and the state of the world before the scan to
      the state after it.  The world holds the database, so a consumer
      may write to the stores during a scan, as [Delete] does.
    - A Go [error] result is an [option error], [None] being [nil]; a
      result [(T, error)] is a [result T]. *)

From stdpp Require Import gmap strings list fin_maps sorting.
From Stdlib Require Import ZArith NArith Lia.
From Stdlib.Strings Require Import Byte.

Set Default Proof Using "Type".
Set Warnings "-register-all,-clear-no-such-hyp".

(** ** Bytes and their order *)

Abbreviation bytes := (list byte).

#[global] Instance byte_eq_decision : EqDecision byte := Byte.byte_eq_dec.

(** A bucket of the B-tree engine: its entries in ascending key order. *)
Abbreviation bucket V := (list (bytes * V)).

Definition byte_compare (a b : byte) : comparison :=
  N.compare (Byte.to_N a) (Byte.to_N b).

(** [bytes.Compare] *)
Definition bytes_Compare : bytes → bytes → comparison :=
  list_compare byte_compare.

(** ** Values, rows, errors *)

(** The dynamic values ([any]) a row can hold.  [VNil] is the nil
    interface, which is also what reading an absent key of a
    [map[string]any] gives; [VList] is a [[]any]. *)
Inductive value :=
| VNil
| VInt (z : Z)
| VUint (n : N)
| VStr (s : string)
| VBytes (b : bytes)
| VList (l : list value).

Abbreviation row := (gmap string value).

(** [obj[k]] on a [map[string]any]: the zero value when absent. *)
Definition row_at (obj : row) (k : string) : value :=
  default VNil (obj !! k).

Inductive error :=
| ErrObjectFieldCountMismatch
| ErrObjectMissingField (col : string)
| ErrUniqueConstraint (name : string)
| ErrIndexNotFound (name : string)
| ErrIndexMetadataNotFound (name : string)
| ErrFieldNotFoundInColumns (name : string)
| ErrCannotMarshal (v : value)
| ErrUnmarshal.

Inductive result (A : Type) :=
| Ok (a : A)
| Err (e : error).
Arguments Ok {A} a.
Arguments Err {A} e.

#[global] Instance result_ret : MRet result := fun _ a => Ok a.
#[global] Instance result_bind : MBind result := fun _ _ f r =>
  match r with
  | Ok a => f a
  | Err e => Err e
  end.

(** ** The codecs *)

(** The order-preserving codec, package [rsc.io/ordered], by its
    contract.  [Encode1] encodes one value, [ordered.Encode] of a list is
    the concatenation of the encodings of its elements, and the
    encoding of a value is self-delimiting, so [DecodeAny] reads a
    concatenation back.  Decoding gives a value up to [canon]: a byte
    slice may come back as a character string, an integer in another
    integer type. *)
Definition value_bytes (v : value) : option bytes :=
  match v with
  | VBytes b => Some b
  | VStr s => Some (String.list_byte_of_string s)
  | _ => None
  end.

Definition uint64 (z : Z) : N := Z.to_N (z mod 2 ^ 64).

Definition value_uint64 (v : value) : option N :=
  match v with
  | VUint n => Some n
  | VInt z => Some (uint64 z)
  | _ => None
  end.

Class Ordered := {
  CanEncode1 : value → bool;
  Encode1 : value → bytes;
  DecodeAny : bytes → option (list value);
  canon : value → value;
  DecodeAny_nil : DecodeAny [] = Some [];
  DecodeAny_nil_inv : ∀ b, DecodeAny b = Some [] → b = [];
  DecodeAny_cons : ∀ v rest, CanEncode1 v = true →
    DecodeAny (Encode1 v ++ rest) = (canon v ::.) <$> DecodeAny rest;
  CanEncode1_canon : ∀ v, CanEncode1 v = true → CanEncode1 (canon v) = true;
  Encode1_canon : ∀ v, CanEncode1 v = true → Encode1 (canon v) = Encode1 v;
  CanEncode1_bytes : ∀ b, CanEncode1 (VBytes b) = true;
  CanEncode1_uint : ∀ n, (n < 2 ^ 64)%N → CanEncode1 (VUint n) = true;
  CanEncode1_list : ∀ l, CanEncode1 (VList l) = false;
  canon_bytes : ∀ b, value_bytes (canon (VBytes b)) = Some b;
  canon_uint : ∀ n, CanEncode1 (VUint n) = true →
    value_uint64 (canon (VUint n)) = Some n;
  Encode1_bytes_order : ∀ a b,
    bytes_Compare (Encode1 (VBytes a)) (Encode1 (VBytes b)) = bytes_Compare a b
}.

(** The value codec injected at [OpenDB] ([MarshalUnmarshaler]), here
    at the one type the stores use it at, a row.  It reads back what it
    wrote. *)
Class MarshalUnmarshaler := {
  maUn_Marshal : row → result bytes;
  maUn_Unmarshal : bytes → result row;
  maUn_Unmarshal_Marshal : ∀ r b, maUn_Marshal r = Ok b → maUn_Unmarshal b = Ok r
}.

Section Thunder.
Context {OL : Ordered} {MU : MarshalUnmarshaler}.

Definition ordered_CanEncode (l : list value) : bool := forallb CanEncode1 l.
Definition ordered_Encode (l : list value) : bytes := concat (map Encode1 l).

(** [orderedMarshaler.Marshal] *)
Definition orderedMa_Marshal (v : value) : result bytes :=
  match v with
  | VList val =>
      if negb (ordered_CanEncode val) then Err (ErrCannotMarshal v)
      else Ok (ordered_Encode val)
  | val =>
      if negb (ordered_CanEncode [val]) then Err (ErrCannotMarshal v)
      else Ok (ordered_Encode [val])
  end.

(** [orderedMa.Unmarshal(k, &parts)] with [parts []any] *)
Definition orderedMa_Unmarshal (k : bytes) : result (list value) :=
  match DecodeAny k with
  | Some parts => Ok parts
  | None => Err ErrUnmarshal
  end.

(** ** Key ranges *)

Record keyRange := {
  startKey : option bytes;
  endKey : option bytes;
  includeStart : bool;
  includeEnd : bool
}.

(** Modelled from the spec: [keyRange.contains], which is not among the
    sources.  "true iff k lies in [startKey, endKey] respecting
    inclusivity on either end; an absent endpoint means unbounded on
    that side." *)
Definition contains (kr : keyRange) (k : bytes) : bool :=
  match startKey kr with
  | None => true
  | Some s =>
      match bytes_Compare k s with
      | Gt => true
      | Eq => includeStart kr
      | Lt => false
      end
  end
  &&
  match endKey kr with
  | None => true
  | Some e =>
      match bytes_Compare k e with
      | Lt => true
      | Eq => includeEnd kr
      | Gt => false
      end
  end.

(** ** Buckets and cursors of the B-tree engine *)


Definition key_lt (a b : bytes) : bool :=
  match bytes_Compare a b with Lt => true | _ => false end.

(** [Bucket.Put]: insert in key order, replacing an entry of the same key. *)
Fixpoint bucket_Put {V} (k : bytes) (v : V) (b : bucket V) : bucket V :=
  match b with
  | [] => [(k, v)]
  | (k', v') :: b' =>
      match bytes_Compare k k' with
      | Lt => (k, v) :: b
      | Eq => (k, v) :: b'
      | Gt => (k', v') :: bucket_Put k v b'
      end
  end.

(** [Bucket.Delete]: a missing key is not an error. *)
Fixpoint bucket_Delete {V} (k : bytes) (b : bucket V) : bucket V :=
  match b with
  | [] => []
  | (k', v') :: b' =>
      match bytes_Compare k k' with
      | Eq => b'
      | _ => (k', v') :: bucket_Delete k b'
      end
  end.

(** [Bucket.Get] *)
Fixpoint bucket_Get {V} (k : bytes) (b : bucket V) : option V :=
  match b with
  | [] => None
  | (k', v') :: b' =>
      match bytes_Compare k k' with
      | Eq => Some v'
      | _ => bucket_Get k b'
      end
  end.

(** A cursor is the list of the entries from its position on: the head
    is the entry it is at, [[]] is the position past the end (where the
    engine returns a nil key). *)
Definition cursor_First {V} (b : bucket V) : bucket V := b.

(** [Cursor.Seek]: the first entry whose key is not below [k]. *)
Fixpoint cursor_Seek {V} (k : bytes) (b : bucket V) : bucket V :=
  match b with
  | [] => []
  | (k', v') :: b' => if key_lt k' k then cursor_Seek k b' else b
  end.

Definition cursor_Next {V} (c : bucket V) : bucket V := tail c.

(** ** The database of one relation *)

(** The three stores under the relation's root bucket: [data/] with
    its sequence, [indexes/<name>/] (keys only, the values are empty),
    [reverseIdx/].  The reverse index holds a serialized
    [map[string][]byte] per row id; the model keeps the map itself. *)
Record DB := {
  data_bk : bucket bytes;
  data_seq : N;
  index_bks : gmap string (bucket unit);
  rev_bk : bucket (gmap string bytes)
}.

Definition set_data (f : bucket bytes → bucket bytes) (db : DB) : DB :=
  {| data_bk := f (data_bk db); data_seq := data_seq db;
     index_bks := index_bks db; rev_bk := rev_bk db |}.
Definition set_seq (n : N) (db : DB) : DB :=
  {| data_bk := data_bk db; data_seq := n;
     index_bks := index_bks db; rev_bk := rev_bk db |}.
Definition set_indexes (f : gmap string (bucket unit) → gmap string (bucket unit))
    (db : DB) : DB :=
  {| data_bk := data_bk db; data_seq := data_seq db;
     index_bks := f (index_bks db); rev_bk := rev_bk db |}.
Definition set_rev (f : bucket (gmap string bytes) → bucket (gmap string bytes))
    (db : DB) : DB :=
  {| data_bk := data_bk db; data_seq := data_seq db;
     index_bks := index_bks db; rev_bk := f (rev_bk db) |}.

(** ** DataStore: [dataStorage] *)

Record entry := {
  id : bytes;
  value_of : row
}.

(** The zero [entry{}] that accompanies an error. *)
Definition entry0 : entry := {| id := []; value_of := ∅ |}.

(** [Bucket.NextSequence]: the sequence is a [uint64]. *)
Definition NextSequence (db : DB) : DB * N :=
  let n := ((data_seq db + 1) mod 2 ^ 64)%N in (set_seq n db, n).

(** [dataStorage.insert] *)
Definition dataStorage_insert (obj : row) (db : DB) : DB * result bytes :=
  let '(db, n) := NextSequence db in
  match orderedMa_Marshal (VUint n) with
  | Err e => (db, Err e)
  | Ok idBytes =>
      match maUn_Marshal obj with
      | Err e => (db, Err e)
      | Ok dataBytes => (set_data (bucket_Put idBytes dataBytes) db, Ok idBytes)
      end
  end.

(** [dataStorage.delete] *)
Definition dataStorage_delete (idb : bytes) (db : DB) : DB :=
  set_data (bucket_Delete idb) db.

(** The closure [lessThan] of [dataStorage.get] *)
Definition lessThan (kr : keyRange) (k : bytes) : bool :=
  match endKey kr with
  | None => true
  | Some e =>
      match bytes_Compare k e with
      | Lt => true
      | Eq => includeEnd kr
      | Gt => false
      end
  end.

Section Iterators.
(** The world a scan runs in, and where the database is in it. *)
Context {W : Type} (getdb : W → DB).

(** The loop [for ; k != nil && lessThan(k); k, v = c.Next()] of
    [dataStorage.get].  The result tells whether the consumer still
    wants more ([false] once a [yield] returned false). *)
Fixpoint dataStorage_get_loop (kr : keyRange) (c : bucket bytes)
    (yield : result entry → W → W * bool) (w : W) : W * bool :=
  match c with
  | [] => (w, true)
  | (k, v) :: c' =>
      if negb (lessThan kr k) then (w, true)
      else if negb (contains kr k) then dataStorage_get_loop kr c' yield w
      else
        match maUn_Unmarshal v with
        | Err e =>
            let '(w, more) := yield (Err e) w in
            if negb more then (w, false)
            else dataStorage_get_loop kr c' yield w
        | Ok val =>
            let '(w, more) := yield (Ok {| id := k; value_of := val |}) w in
            if negb more then (w, false)
            else dataStorage_get_loop kr c' yield w
        end
  end.

(** [dataStorage.get] *)
Definition dataStorage_get (kr : keyRange)
    (yield : result entry → W → W * bool) (w : W) : W * bool :=
  let b := data_bk (getdb w) in
  let c :=
    match startKey kr with
    | Some s => cursor_Seek s b
    | None => cursor_First b
    end in
  let c := if negb (includeStart kr) then cursor_Next c else c in
  dataStorage_get_loop kr c yield w.

(** ** IndexStore *)

(** Modelled from the spec: the index store that [persistent.go]
    calls, [insert(name, keyParts, id)], [delete(name, keyParts, key)]
    and [get(name, range)] yielding row-id bytes, is not among the
    sources (the [indexStorage] that is, further down, has other
    signatures).  Section 4.3: "[insert] encodes the composite key
    keyParts ++ [idBytes], stores it with an empty value, and returns
    the stored key bytes"; "[delete] removes the exact entry"; "[get]
    scans the index bucket over range, decodes each composite key,
    extracts and yields the trailing row-id component.  Decoding skips
    entries whose component count is not exactly k+1.  Stop condition:
    once the leading key component exceeds range.endKey under the
    codec's order (respecting includeEnd), iteration ends."  The leading
    key component of a stored key is the encoding of its first [k]
    components, which is what a range of [toRanges] bounds; [k] is the
    number of key columns the relation declares for the index.  A
    missing bucket is [IndexNotFound]. *)
Fixpoint IndexStore_get_loop (k : nat) (kr : keyRange) (c : bucket unit)
    (yield : bytes → W → W * bool) (w : W) : W * bool :=
  match c with
  | [] => (w, true)
  | (key, _) :: c' =>
      match DecodeAny key with
      | None => IndexStore_get_loop k kr c' yield w
      | Some parts =>
          if negb (Nat.eqb (length parts) (S k)) then IndexStore_get_loop k kr c' yield w
          else
            match last parts ≫= value_bytes with
            | None => IndexStore_get_loop k kr c' yield w
            | Some idBytes =>
                let lead := ordered_Encode (take k parts) in
                if negb (contains kr lead) then
                  if negb (lessThan kr lead) then (w, true)
                  else IndexStore_get_loop k kr c' yield w
                else
                  let '(w, more) := yield idBytes w in
                  if negb more then (w, false)
                  else IndexStore_get_loop k kr c' yield w
            end
      end
  end.

Definition IndexStore_get (name : string) (k : nat) (kr : keyRange) (db : DB)
    : result ((bytes → W → W * bool) → W → W * bool) :=
  match index_bks db !! name with
  | None => Err (ErrIndexNotFound name)
  | Some _ =>
      Ok (fun yield w =>
        let idxBk := default [] (index_bks (getdb w) !! name) in
        let c :=
          match startKey kr with
          | Some s => cursor_Seek s idxBk
          | None => cursor_First idxBk
          end in
        IndexStore_get_loop k kr c yield w)
  end.

End Iterators.

Definition IndexStore_insert (name : string) (keyParts : list value)
    (idBytes : bytes) (db : DB) : DB * result bytes :=
  match index_bks db !! name with
  | None => (db, Err (ErrIndexNotFound name))
  | Some idxBk =>
      match orderedMa_Marshal (VList (keyParts ++ [VBytes idBytes])) with
      | Err e => (db, Err e)
      | Ok compositeKey =>
          (set_indexes <[name := bucket_Put compositeKey () idxBk]> db,
           Ok compositeKey)
      end
  end.

Definition IndexStore_delete (name : string) (keyParts : list value)
    (keyBytes : bytes) (db : DB) : DB * option error :=
  match index_bks db !! name with
  | None => (db, Some (ErrIndexNotFound name))
  | Some idxBk =>
      (set_indexes <[name := bucket_Delete keyBytes idxBk]> db, None)
  end.

(** ** ReverseIndexStore *)

(** Modelled from the spec: [reverseIndexStorage] is not among the
    sources.  Section 4.4: "Bucket reverseIdx holds idBytes →
    serialize({indexName → keyBytes}).  insert, get, and delete are
    obvious."  Reading a row id that has no record finds no payload to
    unmarshal. *)
Definition ReverseIndexStore_insert (idBytes : bytes)
    (revIdx : gmap string bytes) (db : DB) : DB :=
  set_rev (bucket_Put idBytes revIdx) db.

Definition ReverseIndexStore_get (idBytes : bytes) (db : DB)
    : result (gmap string bytes) :=
  match bucket_Get idBytes (rev_bk db) with
  | Some revIdx => Ok revIdx
  | None => Err ErrUnmarshal
  end.

Definition ReverseIndexStore_delete (idBytes : bytes) (db : DB) : DB :=
  set_rev (bucket_Delete idBytes) db.

(** ** Predicates and their compilation to ranges *)

Inductive OpType := OpEq | OpNe | OpGt | OpLt | OpGe | OpLe.

Record Op := {
  Field : string;
  Value : value;
  Type_ : OpType
}.

(** The constructors [Eq], [Ne], [Gt], [Lt], [Ge], [Le] of the source;
    three of these names are the constructors of [comparison] here. *)
Definition EqOp (field : string) (v : value) : Op :=
  {| Field := field; Value := v; Type_ := OpEq |}.
Definition GtOp (field : string) (v : value) : Op :=
  {| Field := field; Value := v; Type_ := OpGt |}.
Definition LtOp (field : string) (v : value) : Op :=
  {| Field := field; Value := v; Type_ := OpLt |}.
Definition GeOp (field : string) (v : value) : Op :=
  {| Field := field; Value := v; Type_ := OpGe |}.
Definition LeOp (field : string) (v : value) : Op :=
  {| Field := field; Value := v; Type_ := OpLe |}.

Definition full_range : keyRange :=
  {| startKey := None; endKey := None; includeStart := true; includeEnd := true |}.

(** Modelled from the spec: [toRanges] is not among the sources.
    Section 4.5: "For each operator, compute the encoded value v =
    encode(value).  Initialize each field's range as (−∞, +∞);
    intersect per operator: Eq: [v, v].  Gt: (v, +∞); Ge: [v, +∞); Lt:
    (−∞, v); Le: (−∞, v].  Ne cannot be expressed as a single half-open
    interval and is not used to choose an index: it is compiled to the
    full range and deferred to residual filtering." *)
Definition op_range (t : OpType) (v : bytes) : keyRange :=
  match t with
  | OpEq => {| startKey := Some v; endKey := Some v;
               includeStart := true; includeEnd := true |}
  | OpGt => {| startKey := Some v; endKey := None;
               includeStart := false; includeEnd := true |}
  | OpGe => {| startKey := Some v; endKey := None;
               includeStart := true; includeEnd := true |}
  | OpLt => {| startKey := None; endKey := Some v;
               includeStart := true; includeEnd := false |}
  | OpLe => {| startKey := None; endKey := Some v;
               includeStart := true; includeEnd := true |}
  | OpNe => full_range
  end.

Definition intersect (a b : keyRange) : keyRange :=
  let '(s, si) :=
    match startKey a, startKey b with
    | None, _ => (startKey b, includeStart b)
    | _, None => (startKey a, includeStart a)
    | Some x, Some y =>
        match bytes_Compare x y with
        | Lt => (Some y, includeStart b)
        | Gt => (Some x, includeStart a)
        | Eq => (Some x, includeStart a && includeStart b)
        end
    end in
  let '(e, ei) :=
    match endKey a, endKey b with
    | None, _ => (endKey b, includeEnd b)
    | _, None => (endKey a, includeEnd a)
    | Some x, Some y =>
        match bytes_Compare x y with
        | Lt => (Some x, includeEnd a)
        | Gt => (Some y, includeEnd b)
        | Eq => (Some x, includeEnd a && includeEnd b)
        end
    end in
  {| startKey := s; endKey := e; includeStart := si; includeEnd := ei |}.

Definition toRanges_step (acc : result (gmap string keyRange)) (o : Op)
    : result (gmap string keyRange) :=
  ranges ← acc;
  v ← orderedMa_Marshal (Value o);
  Ok (<[Field o := intersect (default full_range (ranges !! Field o))
                             (op_range (Type_ o) v)]> ranges).

Definition toRanges (ops : list Op) : result (gmap string keyRange) :=
  foldl toRanges_step (Ok ∅) ops.

(** ** The relation: [Persistent] *)

(** The handles [data], [indexes] and [reverseIdx] of the Go struct
    point into the database, which the functions below take and
    return. *)
Record Persistent := {
  indexesMeta : gmap string (list string);
  uniquesMeta : gmap string (list string);
  columns : list string;
  relation : string;
  allIndexes : list string
}.

(** [keyParts[i] = obj[kf]] for the key fields of an index *)
Definition key_parts (obj : row) (keyFields : list string) : list value :=
  map (row_at obj) keyFields.

(** The number of key columns declared for an index name. *)
Definition index_arity (pr : Persistent) (name : string) : nat :=
  match indexesMeta pr !! name with
  | Some cols => length cols
  | None => length (default [] (uniquesMeta pr !! name))
  end.

(** *** [matchOps] *)

(** The inner loops that rebuild a composite value from its columns. *)
Fixpoint rebuild_parts (val : row) (cols : list string) : result (list value) :=
  match cols with
  | [] => Ok []
  | col :: cols' =>
      match val !! col with
      | None => Err (ErrObjectMissingField col)
      | Some part => parts ← rebuild_parts val cols'; Ok (part :: parts)
      end
  end.

(** The first loop, [for k := range keyRanges] *)
Fixpoint matchOps_composite (pr : Persistent) (val : row) (ks : list string)
    (skip : string) (compositeValue : row) : result row :=
  match ks with
  | [] => Ok compositeValue
  | k :: ks' =>
      if decide (k = skip) then matchOps_composite pr val ks' skip compositeValue
      else if decide (is_Some (val !! k)) then
        matchOps_composite pr val ks' skip compositeValue
      else
        match indexesMeta pr !! k with
        | Some cols =>
            parts ← rebuild_parts val cols;
            matchOps_composite pr val ks' skip (<[k := VList parts]> compositeValue)
        | None =>
            match uniquesMeta pr !! k with
            | Some cols =>
                parts ← rebuild_parts val cols;
                matchOps_composite pr val ks' skip (<[k := VList parts]> compositeValue)
            | None => Err (ErrFieldNotFoundInColumns k)
            end
        end
  end.

(** The second loop, [for name, r := range keyRanges] *)
Fixpoint matchOps_ranges (val compositeValue : row)
    (rs : list (string * keyRange)) (skip : string) : result bool :=
  match rs with
  | [] => Ok true
  | (name, r) :: rs' =>
      if decide (name = skip) then matchOps_ranges val compositeValue rs' skip
      else
        match
          match compositeValue !! name with
          | Some v => Some v
          | None => val !! name
          end
        with
        | None => Err (ErrFieldNotFoundInColumns name)
        | Some v =>
            vBytes ← orderedMa_Marshal v;
            if negb (contains r vBytes) then Ok false
            else matchOps_ranges val compositeValue rs' skip
        end
  end.

Definition matchOps (pr : Persistent) (val : row)
    (keyRanges : gmap string keyRange) (skip : string) : result bool :=
  compositeValue ← matchOps_composite pr val (map_to_list keyRanges).*1 skip ∅;
  matchOps_ranges val compositeValue (map_to_list keyRanges) skip.

(** *** The planner [iter] and [Select] *)

(** [slices.MinFunc]: the first minimal element. *)
Definition MinFunc {E} (x0 : E) (xs : list E) (cmp : E → E → comparison) : E :=
  foldl (fun m x => match cmp x m with Lt => x | _ => m end) x0 xs.

Section Planner.
(** [distance] of a key range is not among the sources, and the spec
    says of it only that it is a byte string; the planner is modelled
    for any such function. *)
Context (distance : keyRange → bytes).
Context {W : Type} (getdb : W → DB).

Definition range_at (ranges : gmap string keyRange) (name : string) : keyRange :=
  default full_range (ranges !! name).

(** The body shared by the two scans of [iter], run on each
    [(e, err)] of a data scan. *)
Definition iter_body (pr : Persistent) (ranges : gmap string keyRange)
    (skip : string) (yield : result entry → W → W * bool)
    (item : result entry) (w : W) : W * bool :=
  match item with
  | Err err => yield (Err err) w
  | Ok e =>
      match matchOps pr (value_of e) ranges skip with
      | Err err => yield (Err err) w
      | Ok matches => if matches then yield (Ok e) w else (w, true)
      end
  end.

Definition full_scan (pr : Persistent) (ranges : gmap string keyRange)
    (yield : result entry → W → W * bool) (w : W) : W * bool :=
  dataStorage_get getdb full_range (iter_body pr ranges "" yield) w.

Definition id_range (idb : bytes) : keyRange :=
  {| startKey := Some idb; endKey := Some idb;
     includeStart := true; includeEnd := true |}.

Definition index_scan (pr : Persistent) (ranges : gmap string keyRange)
    (shortestRangeIdxName : string)
    (idxes : (bytes → W → W * bool) → W → W * bool)
    (yield : result entry → W → W * bool) (w : W) : W * bool :=
  idxes (fun idBytes w =>
    dataStorage_get getdb (id_range idBytes)
      (iter_body pr ranges shortestRangeIdxName yield) w) w.

Definition selected_indexes (pr : Persistent) (ranges : gmap string keyRange)
    : list string :=
  filter (fun idxName => is_Some (ranges !! idxName)) (allIndexes pr).

Definition distance_cmp (ranges : gmap string keyRange) (a b : string)
    : comparison :=
  bytes_Compare (distance (range_at ranges a)) (distance (range_at ranges b)).

Definition iter (pr : Persistent) (ops : list Op) (db : DB)
    : result ((result entry → W → W * bool) → W → W * bool) :=
  ranges ← toRanges ops;
  match selected_indexes pr ranges with
  | [] => Ok (full_scan pr ranges)
  | idx0 :: idxs =>
      let shortestRangeIdxName := MinFunc idx0 idxs (distance_cmp ranges) in
      let rangeIdx := range_at ranges shortestRangeIdxName in
      idxes ← IndexStore_get getdb shortestRangeIdxName
                (index_arity pr shortestRangeIdxName) rangeIdx db;
      Ok (index_scan pr ranges shortestRangeIdxName idxes)
  end.

Definition Select (pr : Persistent) (ops : list Op) (db : DB)
    : result ((result row → W → W * bool) → W → W * bool) :=
  iterEntries ← iter pr ops db;
  Ok (fun yield w =>
    iterEntries (fun item w =>
      match item with
      | Err err => yield (Err err) w
      | Ok e => yield (Ok (value_of e)) w
      end) w).

End Planner.

(** *** [Insert] *)

Fixpoint missing_field (obj : row) (cols : list string) : option string :=
  match cols with
  | [] => None
  | col :: cols' =>
      match obj !! col with
      | None => Some col
      | Some _ => missing_field obj cols'
      end
  end.

(** The loop "Check uniques".  The probe [for range exists] runs the
    index scan with a consumer that stops at the first item. *)
Fixpoint check_uniques (us : list (string * list string)) (obj : row) (db : DB)
    : option error :=
  match us with
  | [] => None
  | (uniqueName, keyFields) :: us' =>
      let keyParts := key_parts obj keyFields in
      match toRanges [EqOp uniqueName (VList keyParts)] with
      | Err err => Some err
      | Ok idxRanges =>
          let idxRange := range_at idxRanges uniqueName in
          match IndexStore_get (fun _ : bool => db) uniqueName
                  (length keyFields) idxRange db with
          | Err err => Some err
          | Ok exists_ =>
              if fst (exists_ (fun _ _ => (true, false)) false)
              then Some (ErrUniqueConstraint uniqueName)
              else check_uniques us' obj db
          end
      end
  end.

(** The loops "Update indexes" *)
Fixpoint insert_indexes (ms : list (string * list string)) (obj : row)
    (idb : bytes) (revIdx : gmap string bytes) (db : DB)
    : DB * result (gmap string bytes) :=
  match ms with
  | [] => (db, Ok revIdx)
  | (idxName, keyFields) :: ms' =>
      match IndexStore_insert idxName (key_parts obj keyFields) idb db with
      | (db, Err err) => (db, Err err)
      | (db, Ok revIdxField) =>
          insert_indexes ms' obj idb (<[idxName := revIdxField]> revIdx) db
      end
  end.

Definition Insert (pr : Persistent) (obj : row) (db : DB) : DB * option error :=
  if negb (Nat.eqb (size obj) (length (columns pr))) then
    (db, Some ErrObjectFieldCountMismatch)
  else
    match missing_field obj (columns pr) with
    | Some col => (db, Some (ErrObjectMissingField col))
    | None =>
        match dataStorage_insert obj db with
        | (db, Err err) => (db, Some err)
        | (db, Ok idb) =>
            match check_uniques (map_to_list (uniquesMeta pr)) obj db with
            | Some err => (db, Some err)
            | None =>
                match insert_indexes (map_to_list (indexesMeta pr)) obj idb ∅ db with
                | (db, Err err) => (db, Some err)
                | (db, Ok revIdx) =>
                    match insert_indexes (map_to_list (uniquesMeta pr)) obj idb
                            revIdx db with
                    | (db, Err err) => (db, Some err)
                    | (db, Ok revIdx) =>
                        (ReverseIndexStore_insert idb revIdx db, None)
                    end
                end
            end
        end
    end.

(** *** [Delete] *)

(** The loop [for idxName, revIdxField := range revIdx] *)
Fixpoint delete_indexes (pr : Persistent) (rs : list (string * bytes))
    (e : entry) (db : DB) : DB * option error :=
  match rs with
  | [] => (db, None)
  | (idxName, revIdxField) :: rs' =>
      match indexesMeta pr !! idxName with
      | None => (db, Some (ErrIndexMetadataNotFound idxName))
      | Some keyFields =>
          match IndexStore_delete idxName (key_parts (value_of e) keyFields)
                  revIdxField db with
          | (db, Some err) => (db, Some err)
          | (db, None) => delete_indexes pr rs' e db
          end
      end
  end.

(** The body of the loop of [Delete] over the matched entries; the
    world of the scan is the database and the error to return. *)
Definition Delete_body (pr : Persistent) (item : result entry)
    (w : DB * option error) : (DB * option error) * bool :=
  let db := fst w in
  match item with
  | Err err => ((db, Some err), false)
  | Ok e =>
      match ReverseIndexStore_get (id e) db with
      | Err err => ((db, Some err), false)
      | Ok revIdx =>
          match delete_indexes pr (map_to_list revIdx) e db with
          | (db, Some err) => ((db, Some err), false)
          | (db, None) =>
              let db := ReverseIndexStore_delete (id e) db in
              let db := dataStorage_delete (id e) db in
              ((db, None), true)
          end
      end
  end.

Definition Delete (distance : keyRange → bytes) (pr : Persistent)
    (ops : list Op) (db : DB) : DB * option error :=
  match iter distance fst pr ops db with
  | Err err => (db, Some err)
  | Ok iterEntries => fst (iterEntries (Delete_body pr) (db, None))
  end.

(** ** [indexStorage.get], the index scan that is among the sources *)

Record indexLocator := {
  Key : bytes;
  Id : N
}.

(** [indexStorage.insert] *)
Definition indexStorage_insert (name : string) (idxLoc : indexLocator) (db : DB)
    : DB * option error :=
  match index_bks db !! name with
  | None => (db, Some (ErrIndexNotFound name))
  | Some indexBk =>
      match orderedMa_Marshal (VList [VBytes (Key idxLoc); VUint (Id idxLoc)]) with
      | Err err => (db, Some err)
      | Ok compositeKey =>
          (set_indexes <[name := bucket_Put compositeKey () indexBk]> db, None)
      end
  end.

(** [indexStorage.delete] *)
Definition indexStorage_delete (name : string) (idxLoc : indexLocator) (db : DB)
    : DB * option error :=
  match index_bks db !! name with
  | None => (db, Some (ErrIndexNotFound name))
  | Some indexBk =>
      match orderedMa_Marshal (VList [VBytes (Key idxLoc); VUint (Id idxLoc)]) with
      | Err err => (db, Some err)
      | Ok compositeKey =>
          (set_indexes <[name := bucket_Delete compositeKey indexBk]> db, None)
      end
  end.

Section IndexStorage.
Context {W : Type} (getdb : W → DB).

(** The closure [lessThanEnd] *)
Definition lessThanEnd (kr : keyRange) (k : bytes) : bool :=
  match endKey kr with
  | None => true
  | Some e =>
      match bytes_Compare k e with
      | Lt => true
      | Eq => includeEnd kr
      | Gt => false
      end
  end.

(** The loop [for ; k != nil; k, _ = c.Next()] *)
Fixpoint indexStorage_get_loop (kr : keyRange) (c : bucket unit)
    (yield : result N → W → W * bool) (w : W) : W * bool :=
  match c with
  | [] => (w, true)
  | (k, _) :: c' =>
      match orderedMa_Unmarshal k with
      | Err err =>
          let '(w, more) := yield (Err err) w in
          if negb more then (w, false)
          else indexStorage_get_loop kr c' yield w
      | Ok parts =>
          match parts with
          | [part0; part1] =>
              match value_bytes part0 with
              | None => indexStorage_get_loop kr c' yield w
              | Some valBytes =>
                  match value_uint64 part1 with
                  | None => indexStorage_get_loop kr c' yield w
                  | Some idn =>
                      if negb (contains kr valBytes) then
                        if negb (lessThanEnd kr valBytes) then (w, true)
                        else indexStorage_get_loop kr c' yield w
                      else
                        let '(w, more) := yield (Ok idn) w in
                        if negb more then (w, false)
                        else indexStorage_get_loop kr c' yield w
                  end
              end
          | _ => indexStorage_get_loop kr c' yield w
          end
      end
  end.

Definition indexStorage_get (name : string) (kr : keyRange) (db : DB)
    : result ((result N → W → W * bool) → W → W * bool) :=
  match index_bks db !! name with
  | None => Err (ErrIndexNotFound name)
  | Some _ =>
      Ok (fun yield w =>
        let idxBk := default [] (index_bks (getdb w) !! name) in
        match startKey kr with
        | Some s =>
            match orderedMa_Marshal (VList [VBytes s]) with
            | Err err => yield (Err err) w
            | Ok seekPrefix =>
                indexStorage_get_loop kr (cursor_Seek seekPrefix idxBk) yield w
            end
        | None => indexStorage_get_loop kr (cursor_First idxBk) yield w
        end)
  end.

End IndexStorage.
End Thunder.

(** ** A consumer under observation *)

(** [logged yield] is [yield] in a world that also records each call
    and what it answered. *)
Definition logged {A W} (yield : A → W → W * bool) (a : A)
    (wl : W * list (A * bool)) : (W * list (A * bool)) * bool :=
  let '(w, more) := yield a wl.1 in ((w, wl.2 ++ [(a, more)]), more).

(** No call follows one that answered [false]. *)
Definition stops_at_false {A} (log : list (A * bool)) : Prop :=
  ∀ i a, log !! i = Some (a, false) → S i = length log.

(** ** Running a scan to its end *)

(** The consumer that takes every item, in a world that is the list of
    the items taken; the database does not change under it. *)
Definition take_all {A} (a : A) (l : list A) : list A * bool := (l ++ [a], true).

Definition items {A}
    (it : (A → list A → list A * bool) → list A → list A * bool) : list A :=
  (it take_all []).1.

(** A consumer that stops at the first item. *)
Definition first_only {A} (a : A) (seen : nat) : nat * bool := (S seen, false).

(** ** A fresh relation *)

(** [newData], [newIndex]: an empty data bucket, and an empty bucket
    per declared index. *)
Definition new_DB (idxNames : list string) : DB :=
  {| data_bk := []; data_seq := 0;
     index_bks := list_to_map (map (fun name => (name, [])) idxNames);
     rev_bk := [] |}.

(** * Facts about the model *)

(** ** Consequences of the codec's contract *)
Section CodecFacts.
Context {OL : Ordered}.

Lemma DecodeAny_Encode_app (l : list value) (rest : bytes) :
  ordered_CanEncode l = true →
  DecodeAny (ordered_Encode l ++ rest) = (map canon l ++.) <$> DecodeAny rest.
Proof.
  unfold ordered_CanEncode, ordered_Encode.
  induction l as [|v l IH]; simpl; intros Hc.
  - by destruct (DecodeAny rest).
  - apply andb_true_iff in Hc as [Hv Hl].
    rewrite <- app_assoc, DecodeAny_cons, IH by done.
    by destruct (DecodeAny rest).
Qed.

Lemma DecodeAny_Encode (l : list value) :
  ordered_CanEncode l = true →
  DecodeAny (ordered_Encode l) = Some (map canon l).
Proof.
  intros Hc. rewrite <- (app_nil_r (ordered_Encode l)).
  rewrite DecodeAny_Encode_app, DecodeAny_nil by done.
  simpl. by rewrite app_nil_r.
Qed.

End CodecFacts.


(** ** A codec that meets the contract

    Integers are a tag and eight big-endian bytes (signed ones shifted
    by 2^63); strings are a tag, the bytes with 0x00 escaped as 0x00
    0xFF, and the terminator 0x00 0x01. *)

Definition byte_of_N (n : N) : byte := default x00 (Byte.of_N n).

Fixpoint be_bytes (w : nat) (n : N) : bytes :=
  match w with
  | O => []
  | S w' =>
      byte_of_N (n / 256 ^ N.of_nat w') :: be_bytes w' (n mod 256 ^ N.of_nat w')
  end.

Definition byte_is (n : N) (c : byte) : bool := N.eqb (Byte.to_N c) n.

Definition escape1 (c : byte) : bytes :=
  if byte_is 0 c then [x00; xff] else [c].

Definition escape (b : bytes) : bytes := flat_map escape1 b ++ [x00; x01].

Definition ref_CanEncode1 (v : value) : bool :=
  match v with
  | VInt z => (Z.leb (- 2 ^ 63) z && Z.ltb z (2 ^ 63))%Z
  | VUint n => N.ltb n (2 ^ 64)
  | VStr _ | VBytes _ => true
  | VNil | VList _ => false
  end.

Definition ref_Encode1 (v : value) : bytes :=
  match v with
  | VInt z => x01 :: be_bytes 8 (Z.to_N (z + 2 ^ 63))
  | VUint n => x02 :: be_bytes 8 n
  | VStr s => x03 :: escape (String.list_byte_of_string s)
  | VBytes b => x04 :: escape b
  | VNil | VList _ => []
  end.

Inductive dstate :=
| DStart
| DNum (signed : bool) (more : nat) (acc : N)
| DStr (isbytes : bool) (acc : bytes)
| DEsc (isbytes : bool) (acc : bytes).

Definition mk_num (signed : bool) (n : N) : value :=
  if signed then VInt (Z.of_N n - 2 ^ 63) else VUint n.

Definition mk_str (isbytes : bool) (b : bytes) : value :=
  if isbytes then VBytes b else VStr (String.string_of_list_byte b).

Fixpoint decode_from (st : dstate) (b : bytes) : option (list value) :=
  match b with
  | [] => match st with DStart => Some [] | _ => None end
  | c :: r =>
      match st with
      | DStart =>
          if byte_is 1 c then decode_from (DNum true 7 0) r
          else if byte_is 2 c then decode_from (DNum false 7 0) r
          else if byte_is 3 c then decode_from (DStr false []) r
          else if byte_is 4 c then decode_from (DStr true []) r
          else None
      | DNum sg more acc =>
          let acc' := (acc * 256 + Byte.to_N c)%N in
          match more with
          | O => (mk_num sg acc' ::.) <$> decode_from DStart r
          | S more' => decode_from (DNum sg more' acc') r
          end
      | DStr isb acc =>
          if byte_is 0 c then decode_from (DEsc isb acc) r
          else decode_from (DStr isb (acc ++ [c])) r
      | DEsc isb acc =>
          if byte_is 255 c then decode_from (DStr isb (acc ++ [x00])) r
          else if byte_is 1 c then (mk_str isb acc ::.) <$> decode_from DStart r
          else None
      end
  end.

Definition ref_DecodeAny (b : bytes) : option (list value) := decode_from DStart b.

Lemma byte_to_N_inj (a b : byte) : Byte.to_N a = Byte.to_N b → a = b.
Proof.
  intros E. pose proof (Byte.of_to_N a) as Ha. rewrite E, Byte.of_to_N in Ha.
  congruence.
Qed.

Lemma byte_of_N_to_N (n : N) : (n < 256)%N → Byte.to_N (byte_of_N n) = n.
Proof.
  intros Hn. unfold byte_of_N.
  destruct (Byte.of_N n) as [c|] eqn:E.
  - simpl. by apply Byte.to_of_N.
  - apply Byte.of_N_None_iff in E. lia.
Qed.

Lemma decode_from_be (sg : bool) (w : nat) (n acc : N) (rest : bytes) :
  (n < 256 ^ N.of_nat (S w))%N →
  decode_from (DNum sg w acc) (be_bytes (S w) n ++ rest) =
  (mk_num sg (acc * 256 ^ N.of_nat (S w) + n) ::.) <$> decode_from DStart rest.
Proof.
  revert n acc. induction w as [|w IH]; intros n acc Hn.
  - change (N.of_nat 1) with 1%N in *. rewrite N.pow_1_r in *.
    simpl. rewrite N.div_1_r, byte_of_N_to_N by done. done.
  - remember (S w) as w1. simpl.
    assert (Hp : (256 ^ N.of_nat (S w1) = 256 * 256 ^ N.of_nat w1)%N).
    { rewrite Nat2N.inj_succ, N.pow_succ_r'. done. }
    assert (Hpos : (0 < 256 ^ N.of_nat w1)%N) by (apply N.neq_0_lt_0, N.pow_nonzero; lia).
    rewrite byte_of_N_to_N.
    2:{ apply N.Div0.div_lt_upper_bound. lia. }
    subst w1. rewrite IH.
    2:{ apply N.mod_lt. lia. }
    replace (acc * 256 ^ N.of_nat (S (S w)) + n)%N
      with ((acc * 256 + n / 256 ^ N.of_nat (S w)) * 256 ^ N.of_nat (S w)
            + n mod 256 ^ N.of_nat (S w))%N; [done|].
    pose proof (N.div_mod n (256 ^ N.of_nat (S w))) as Hdm.
    rewrite Hp. lia.
Qed.

Lemma decode_from_escape (isb : bool) (p acc rest : bytes) :
  decode_from (DStr isb acc) (escape p ++ rest) =
  (mk_str isb (acc ++ p) ::.) <$> decode_from DStart rest.
Proof.
  revert acc. induction p as [|c p IH]; intros acc.
  - rewrite app_nil_r. done.
  - unfold escape in *. simpl. unfold escape1 at 1.
    destruct (byte_is 0 c) eqn:Ez.
    + assert (c = x00) as ->.
      { apply N.eqb_eq in Ez. by apply byte_to_N_inj. }
      simpl. rewrite IH. by rewrite <- app_assoc.
    + simpl. rewrite Ez, IH. by rewrite <- app_assoc.
Qed.

Lemma decode_from_nonempty (b : bytes) (st : dstate) :
  st ≠ DStart ∨ b ≠ [] → decode_from st b ≠ Some [].
Proof.
  revert st. induction b as [|c r IH]; intros st Hst.
  - destruct st; [|done..]. by destruct Hst.
  - destruct st; simpl.
    + repeat case_match; try done; apply IH; by left.
    + destruct more; [by destruct (decode_from DStart r)|]. apply IH. by left.
    + case_match; apply IH; by left.
    + repeat case_match; try done; [apply IH; by left|].
      by destruct (decode_from DStart r).
Qed.

Lemma ref_DecodeAny_cons (v : value) (rest : bytes) :
  ref_CanEncode1 v = true →
  ref_DecodeAny (ref_Encode1 v ++ rest) = (v ::.) <$> ref_DecodeAny rest.
Proof.
  unfold ref_DecodeAny. destruct v as [|z|n|s|b|l]; intros Hc; try discriminate Hc.
  - apply andb_true_iff in Hc as [H1%Z.leb_le H2%Z.ltb_lt].
    change (decode_from (DNum true 7 0) (be_bytes 8 (Z.to_N (z + 2 ^ 63)) ++ rest)
            = (VInt z ::.) <$> decode_from DStart rest).
    rewrite decode_from_be.
    2:{ change (256 ^ N.of_nat 8)%N with (2 ^ 64)%N. lia. }
    unfold mk_num. rewrite N.mul_0_l, N.add_0_l, Z2N.id by lia.
    do 3 f_equal. lia.
  - apply N.ltb_lt in Hc.
    change (decode_from (DNum false 7 0) (be_bytes 8 n ++ rest)
            = (VUint n ::.) <$> decode_from DStart rest).
    rewrite decode_from_be; [done|].
    by change (256 ^ N.of_nat 8)%N with (2 ^ 64)%N.
  - change (decode_from (DStr false []) (escape (String.list_byte_of_string s) ++ rest)
            = (VStr s ::.) <$> decode_from DStart rest).
    rewrite decode_from_escape. simpl.
    by rewrite String.string_of_list_byte_of_string.
  - change (decode_from (DStr true []) (escape b ++ rest)
            = (VBytes b ::.) <$> decode_from DStart rest).
    by rewrite decode_from_escape.
Qed.

Lemma byte_compare_eq (x y : byte) : byte_compare x y = Eq ↔ x = y.
Proof.
  unfold byte_compare. rewrite N.compare_eq_iff.
  split; [apply byte_to_N_inj|by intros ->].
Qed.

Lemma byte_compare_zero (c : byte) :
  byte_is 0 c = false → byte_compare x00 c = Lt.
Proof.
  unfold byte_is, byte_compare. intros H%N.eqb_neq.
  apply N.compare_lt_iff. change (Byte.to_N x00) with 0%N. lia.
Qed.

Lemma escape_cons (x : byte) (a : bytes) : escape (x :: a) = escape1 x ++ escape a.
Proof. unfold escape. simpl. by rewrite app_assoc. Qed.

Lemma escape_order (a b : bytes) :
  bytes_Compare (escape a) (escape b) = bytes_Compare a b.
Proof.
  unfold bytes_Compare. revert b.
  induction a as [|x a IH]; intros [|y b]; rewrite ?escape_cons; try done.
  - unfold escape1. destruct (byte_is 0 y) eqn:Ey; [done|].
    simpl. by rewrite byte_compare_zero.
  - unfold escape1. destruct (byte_is 0 x) eqn:Ex; [done|].
    pose proof (byte_compare_zero _ Ex) as H.
    simpl. unfold byte_compare in *. rewrite N.compare_antisym, H. done.
  - simpl list_compare at 2. destruct (byte_compare x y) eqn:Exy.
    + apply byte_compare_eq in Exy as ->.
      rewrite list_compare_app by apply byte_compare_eq. apply IH.
    + unfold escape1.
      destruct (byte_is 0 x) eqn:Ex, (byte_is 0 y) eqn:Ey; simpl.
      * apply N.eqb_eq in Ex, Ey. unfold byte_compare in Exy.
        rewrite Ex, Ey in Exy. done.
      * by rewrite byte_compare_zero.
      * apply N.eqb_eq in Ey. apply N.eqb_neq in Ex.
        unfold byte_compare in Exy. rewrite N.compare_lt_iff in Exy. lia.
      * by rewrite Exy.
    + unfold escape1.
      destruct (byte_is 0 x) eqn:Ex, (byte_is 0 y) eqn:Ey; simpl.
      * apply N.eqb_eq in Ex, Ey. unfold byte_compare in Exy.
        rewrite Ex, Ey in Exy. done.
      * apply N.eqb_eq in Ex. apply N.eqb_neq in Ey.
        unfold byte_compare in Exy. rewrite N.compare_gt_iff in Exy. lia.
      * pose proof (byte_compare_zero _ Ex) as H.
        unfold byte_compare in *. rewrite N.compare_antisym, H. done.
      * by rewrite Exy.
Qed.

#[global, refine] Instance ref_Ordered : Ordered := {|
  CanEncode1 := ref_CanEncode1;
  Encode1 := ref_Encode1;
  DecodeAny := ref_DecodeAny;
  canon := fun v => v
|}.
Proof.
  - done.
  - intros b Hb. destruct b as [|c r]; [done|].
    exfalso. eapply decode_from_nonempty; [|exact Hb]. by right.
  - apply ref_DecodeAny_cons.
  - done.
  - done.
  - done.
  - intros n Hn. by apply N.ltb_lt.
  - done.
  - done.
  - done.
  - intros a b.
    change (bytes_Compare (x04 :: escape a) (x04 :: escape b) = bytes_Compare a b).
    unfold bytes_Compare at 1.
    rewrite list_compare_cons by apply byte_compare_eq. apply escape_order.
Defined.

(** A value codec for rows on top of it: the row as the list of its
    column names and values. *)
Definition row_pairs (r : row) : list value :=
  flat_map (fun kv => [VStr kv.1; kv.2]) (map_to_list r).

Fixpoint pairs_row (l : list value) : option (list (string * value)) :=
  match l with
  | [] => Some []
  | VStr k :: v :: l' => ((k, v) ::.) <$> pairs_row l'
  | _ => None
  end.

Definition ref_maUn_Marshal (r : row) : result bytes :=
  orderedMa_Marshal (VList (row_pairs r)).

Definition ref_maUn_Unmarshal (b : bytes) : result row :=
  match DecodeAny b ≫= pairs_row with
  | Some l => Ok (list_to_map l)
  | None => Err ErrUnmarshal
  end.

Lemma pairs_row_flat (l : list (string * value)) :
  pairs_row (flat_map (fun kv => [VStr kv.1; kv.2]) l) = Some l.
Proof.
  induction l as [|[k v] l IH]; [done|]. simpl. by rewrite IH.
Qed.

#[global, refine] Instance ref_MarshalUnmarshaler : MarshalUnmarshaler := {|
  maUn_Marshal := ref_maUn_Marshal;
  maUn_Unmarshal := ref_maUn_Unmarshal
|}.
Proof.
  intros r b. unfold ref_maUn_Marshal, ref_maUn_Unmarshal, orderedMa_Marshal.
  destruct (ordered_CanEncode (row_pairs r)) eqn:Hc; [|done].
  intros [= <-]. rewrite DecodeAny_Encode by done.
  simpl. rewrite map_id. unfold row_pairs at 1.
  rewrite pairs_row_flat. by rewrite list_to_map_to_list.
Defined.

(** ** The byte order *)

Lemma byte_compare_antisym (x y : byte) :
  byte_compare y x = CompOpp (byte_compare x y).
Proof. unfold byte_compare. apply N.compare_antisym. Qed.

Lemma byte_compare_trans (x y z : byte) (c : comparison) :
  byte_compare x y = c → byte_compare y z = c → byte_compare x z = c.
Proof.
  unfold byte_compare. destruct c.
  - rewrite !N.compare_eq_iff. congruence.
  - rewrite !N.compare_lt_iff. lia.
  - rewrite !N.compare_gt_iff. lia.
Qed.

Lemma bytes_Compare_eq (a b : bytes) : bytes_Compare a b = Eq ↔ a = b.
Proof. apply list_compare_refl, byte_compare_eq. Qed.

Lemma bytes_Compare_refl (a : bytes) : bytes_Compare a a = Eq.
Proof. by apply bytes_Compare_eq. Qed.

Lemma bytes_Compare_antisym (a b : bytes) :
  bytes_Compare b a = CompOpp (bytes_Compare a b).
Proof.
  apply list_compare_antisym; [apply byte_compare_eq|apply byte_compare_antisym].
Qed.

Lemma bytes_Compare_trans (a b c : bytes) (r : comparison) :
  bytes_Compare a b = r → bytes_Compare b c = r → bytes_Compare a c = r.
Proof.
  apply list_compare_trans;
    [apply byte_compare_eq|apply byte_compare_trans|apply byte_compare_antisym].
Qed.

Lemma bytes_Compare_Gt_Lt (a b : bytes) :
  bytes_Compare a b = Gt ↔ bytes_Compare b a = Lt.
Proof.
  rewrite (bytes_Compare_antisym a b). by destruct (bytes_Compare a b).
Qed.

(** [a ≤ b]: [bytes.Compare(a, b) <= 0] *)
Definition bytes_le (a b : bytes) : Prop := bytes_Compare a b ≠ Gt.
Definition bytes_lt (a b : bytes) : Prop := bytes_Compare a b = Lt.

Lemma bytes_lt_le_trans (a b c : bytes) : bytes_lt a b → bytes_le b c → bytes_lt a c.
Proof.
  unfold bytes_lt, bytes_le. intros Hab Hbc.
  destruct (bytes_Compare b c) eqn:E; [|by eapply bytes_Compare_trans|done].
  apply bytes_Compare_eq in E as <-. done.
Qed.

Lemma bytes_le_lt_trans (a b c : bytes) : bytes_le a b → bytes_lt b c → bytes_lt a c.
Proof.
  unfold bytes_lt, bytes_le. intros Hab Hbc.
  destruct (bytes_Compare a b) eqn:E; [|by eapply bytes_Compare_trans|done].
  apply bytes_Compare_eq in E as ->. done.
Qed.

Lemma bytes_le_trans (a b c : bytes) : bytes_le a b → bytes_le b c → bytes_le a c.
Proof.
  intros Hab Hbc. destruct (bytes_Compare a b) eqn:E.
  - apply bytes_Compare_eq in E as ->. done.
  - unfold bytes_le. by rewrite (bytes_lt_le_trans a b c).
  - done.
Qed.

Lemma bytes_le_not_lt (a b : bytes) : bytes_le a b ↔ ¬ bytes_lt b a.
Proof.
  unfold bytes_le, bytes_lt. rewrite (bytes_Compare_antisym a b).
  destruct (bytes_Compare a b); naive_solver.
Qed.

Lemma bytes_lt_irrefl (a : bytes) : ¬ bytes_lt a a.
Proof. unfold bytes_lt. by rewrite bytes_Compare_refl. Qed.

(** A proper extension is above its prefix. *)
Lemma bytes_le_app (a x : bytes) : bytes_le a (a ++ x).
Proof.
  unfold bytes_le, bytes_Compare.
  rewrite <- (app_nil_r a) at 1.
  rewrite list_compare_app by apply byte_compare_eq. by destruct x.
Qed.

(** Two strings that differ before either ends keep their order when
    extended. *)
Lemma bytes_Compare_app_lt (a b x y : bytes) :
  bytes_lt a b → ¬ a `prefix_of` b → bytes_lt (a ++ x) (b ++ y).
Proof.
  unfold bytes_lt, bytes_Compare. revert b.
  induction a as [|c a IH]; intros [|d b]; simpl; try done.
  - intros _ []. by eexists.
  - destruct (byte_compare c d) eqn:E; try done.
    apply byte_compare_eq in E as ->. intros Hlt Hpre. apply IH; [done|].
    intros [t ->]. apply Hpre. by exists t.
Qed.

(** ** [slices.MinFunc] *)

Lemma MinFunc_split {E} (d : E → bytes) (x0 : E) (xs : list E) :
  let cmp := fun a b => bytes_Compare (d a) (d b) in
  let m := MinFunc x0 xs cmp in
  ∃ l1 l2, x0 :: xs = l1 ++ m :: l2 ∧
    (∀ j, j ∈ l1 → bytes_lt (d m) (d j)) ∧
    (∀ j, j ∈ l2 → bytes_le (d m) (d j)).
Proof.
  intros cmp. unfold MinFunc.
  induction xs as [|x xs IH] using rev_ind; simpl.
  - exists [], []. split; [done|]. split; intros j Hj; by apply elem_of_nil in Hj.
  - rewrite foldl_app. simpl.
    destruct IH as (l1 & l2 & Heq & H1 & H2).
    set (m := foldl _ x0 xs) in *.
    unfold cmp. destruct (bytes_Compare (d x) (d m)) eqn:Ex.
    + exists l1, (l2 ++ [x]). split.
      { rewrite app_comm_cons, Heq. by rewrite <- app_assoc. }
      split; [done|]. intros j [Hj|Hj%list_elem_of_singleton]%elem_of_app; [by apply H2|].
      subst j. unfold bytes_le. rewrite bytes_Compare_antisym, Ex. done.
    + exists (x0 :: xs), []. split; [by rewrite app_comm_cons|].
      split; [|intros j Hj; by apply elem_of_nil in Hj].
      intros j Hj. rewrite Heq in Hj.
      apply elem_of_app in Hj as [Hj|Hj].
      * eapply bytes_Compare_trans; [exact Ex|]. by apply H1.
      * apply elem_of_cons in Hj as [->|Hj]; [done|].
        eapply bytes_lt_le_trans; [exact Ex|]. by apply H2.
    + exists l1, (l2 ++ [x]). split.
      { rewrite app_comm_cons, Heq. by rewrite <- app_assoc. }
      split; [done|]. intros j [Hj|Hj%list_elem_of_singleton]%elem_of_app; [by apply H2|].
      subst j. unfold bytes_le. rewrite bytes_Compare_antisym, Ex. done.
Qed.


Section Stopping.
Context {OL : Ordered} {MU : MarshalUnmarshaler}.
Context {A W : Type}.

Local Abbreviation World := (W * list (A * bool))%type.

Definition all_more (log : list (A * bool)) : Prop :=
  Forall (fun x => x.2 = true) log.

Definition just_stopped (log : list (A * bool)) : Prop :=
  ∃ l a, log = l ++ [(a, false)] ∧ all_more l.

Definition run_post (r : World * bool) : Prop :=
  if r.2 then all_more r.1.2 else just_stopped r.1.2.

Definition good_run (h : World → World * bool) : Prop :=
  ∀ w, all_more w.2 → run_post (h w).

Definition good {B} (g : B → World → World * bool) : Prop :=
  ∀ b, good_run (g b).

Lemma good_logged (yield : A → W → W * bool) : good (logged yield).
Proof.
  intros a [w log] Hlog. unfold logged, run_post. simpl.
  destruct (yield a w) as [w' more]. simpl. destruct more.
  - apply Forall_app. split; [done|]. by constructor.
  - by exists log, a.
Qed.

Lemma good_run_skip : good_run (fun w => (w, true)).
Proof. by intros w Hw. Qed.

Lemma good_dataStorage_get_loop kr c (g : result entry → World → World * bool) :
  good g → good_run (dataStorage_get_loop kr c g).
Proof.
  intros Hg. induction c as [|[k v] c IH]; intros w Hw; simpl; [done|].
  destruct (negb (lessThan kr k)); [done|].
  destruct (negb (contains kr k)); [by apply IH|].
  destruct (maUn_Unmarshal v) as [val|err].
  - pose proof (Hg (Ok {| id := k; value_of := val |}) w Hw) as H.
    destruct (g _ w) as [w' more]. destruct more; simpl; [by apply IH|done].
  - pose proof (Hg (Err err) w Hw) as H.
    destruct (g _ w) as [w' more]. destruct more; simpl; [by apply IH|done].
Qed.

Lemma good_dataStorage_get (getdb : World → DB) kr
    (g : result entry → World → World * bool) :
  good g → good_run (dataStorage_get getdb kr g).
Proof. intros Hg w Hw. unfold dataStorage_get. by apply good_dataStorage_get_loop. Qed.

Lemma good_IndexStore_get_loop k kr c (g : bytes → World → World * bool) :
  good g → good_run (IndexStore_get_loop k kr c g).
Proof.
  intros Hg. induction c as [|[key u] c IH]; intros w Hw; simpl; [done|].
  destruct (DecodeAny key) as [parts|]; [|by apply IH].
  destruct (negb (length parts =? S k)%nat); [by apply IH|].
  destruct (last parts ≫= value_bytes) as [idb|]; [|by apply IH].
  destruct (negb (contains kr _)).
  { destruct (negb (lessThan kr _)); [done|by apply IH]. }
  pose proof (Hg idb w Hw) as Hr.
  destruct (g idb w) as [w' more]. destruct more; simpl; [by apply IH|done].
Qed.

Lemma good_iter_body pr ranges skip (g : result entry → World → World * bool) :
  good g → good (iter_body pr ranges skip g).
Proof.
  intros Hg item w Hw. unfold iter_body.
  repeat case_match; try done; by apply Hg.
Qed.

Lemma good_iter distance (getdb : World → DB) pr ops db it
    (g : result entry → World → World * bool) :
  iter distance getdb pr ops db = Ok it → good g → good_run (it g).
Proof.
  unfold iter. intros Hit Hg.
  destruct (toRanges ops) as [ranges|]; [simpl in Hit|done].
  destruct (selected_indexes pr ranges) as [|idx0 idxs].
  - injection Hit as <-. unfold full_scan.
    by apply good_dataStorage_get, good_iter_body.
  - unfold IndexStore_get in Hit. case_match; [|done].
    simpl in Hit. injection Hit as <-. intros w Hw.
    unfold index_scan. apply good_IndexStore_get_loop; [|done].
    intros idb. by apply good_dataStorage_get, good_iter_body.
Qed.

Lemma run_post_stops (r : World * bool) : run_post r → stops_at_false r.1.2.
Proof.
  destruct r as [[w log] more]. unfold run_post. simpl.
  intros H i a Hi. destruct more.
  - eapply Forall_lookup_1 in H; [|done]. done.
  - destruct H as (l & a' & -> & Hl).
    destruct (decide (i < length l)) as [Hlt|Hge].
    + rewrite lookup_app_l in Hi by done.
      eapply Forall_lookup_1 in Hl; [|done]. done.
    + rewrite length_app. simpl.
      apply lookup_lt_Some in Hi. rewrite length_app in Hi. simpl in Hi. lia.
Qed.

End Stopping.

(** ** Relations to run the code on *)

(** users(id, email), [email] unique *)
Definition users : Persistent :=
  {| indexesMeta := ∅;
     uniquesMeta := {[ "email" := ["email"] ]};
     columns := ["id"; "email"];
     relation := "users";
     allIndexes := ["email"] |}.

Definition user (i e : string) : row := {[ "id" := VStr i; "email" := VStr e ]}.

Definition no_distance (kr : keyRange) : bytes := [].

Definition users_1 : DB := (Insert users (user "1" "a@x") (new_DB ["email"])).1.
Definition users_2 : DB := (Insert users (user "2" "b@x") users_1).1.

Definition after_zero : keyRange :=
  {| startKey := Some (Encode1 (VUint 0)); endKey := None;
     includeStart := false; includeEnd := true |}.

(** ab(a, b), both columns indexed *)
Definition ab : Persistent :=
  {| indexesMeta := {[ "a" := ["a"]; "b" := ["b"] ]};
     uniquesMeta := ∅;
     columns := ["a"; "b"];
     relation := "ab";
     allIndexes := ["b"; "a"] |}.

(** A distance that tells a range closed on both sides from one open
    on a side. *)
Definition closed_distance (kr : keyRange) : bytes :=
  match startKey kr, endKey kr with
  | Some _, Some _ => []
  | _, _ => [xff]
  end.


Definition ab_ranges : gmap string keyRange :=
  {[ "a" := op_range OpEq (Encode1 (VUint 1));
     "b" := op_range OpGe (Encode1 (VUint 0)) ]}.

(** places(country, city) with the composite index loc(country, city),
    in the bucket layout of [indexStorage]: one locator, for the row
    with id 1 and key (US, NYC). *)
Definition loc_key : bytes := ordered_Encode [VStr "US"; VStr "NYC"].

Definition loc_1 : DB :=
  (indexStorage_insert "loc" {| Key := loc_key; Id := 1 |} (new_DB ["loc"])).1.

(** notes(id, text), no index *)
Definition notes : Persistent :=
  {| indexesMeta := ∅;
     uniquesMeta := ∅;
     columns := ["id"; "text"];
     relation := "notes";
     allIndexes := [] |}.

Definition note (i t : string) : row := {[ "id" := VStr i; "text" := VStr t ]}.

Definition notes_1 : DB := (Insert notes (note "1" "x") (new_DB [])).1.

(** events(id, ts), [ts] indexed *)
Definition events : Persistent :=
  {| indexesMeta := {[ "ts" := ["ts"] ]};
     uniquesMeta := ∅;
     columns := ["id"; "ts"];
     relation := "events";
     allIndexes := ["ts"] |}.

Definition event (i : string) (ts : N) : row := {[ "id" := VStr i; "ts" := VUint ts ]}.

Definition events_1 : DB := (Insert events (event "a" 10) (new_DB ["ts"])).1.
Definition events_2 : DB := (Insert events (event "b" 20) events_1).1.


(** ** Buckets *)

Section Buckets.
Context {V : Type}.
Implicit Types (b : bucket V) (k : bytes) (v : V).

(** The engine keeps a bucket in ascending key order, one entry per key. *)
Definition bucket_sorted b : Prop :=
  StronglySorted (fun x y => bytes_lt x.1 y.1) b.

Definition keys b : list bytes := b.*1.

Lemma bucket_sorted_cons k v b :
  bucket_sorted ((k, v) :: b) ↔
  bucket_sorted b ∧ ∀ k', k' ∈ keys b → bytes_lt k k'.
Proof.
  unfold bucket_sorted, keys. split.
  - intros H. apply StronglySorted_inv in H as [Hs Hall]. split; [done|].
    intros k' (e & -> & He)%list_elem_of_fmap.
    rewrite Forall_forall in Hall. by apply (Hall e).
  - intros [Hs Hall]. constructor; [done|].
    apply Forall_forall. intros e He. apply Hall.
    apply list_elem_of_fmap. by exists e.
Qed.

Lemma bucket_sorted_nil : bucket_sorted ([] : bucket V).
Proof. constructor. Qed.

Lemma keys_Put k v b k' :
  k' ∈ keys (bucket_Put k v b) ↔ k' = k ∨ k' ∈ keys b.
Proof.
  unfold keys. induction b as [|[k0 v0] b IH]; simpl.
  - rewrite list_elem_of_singleton, elem_of_nil. naive_solver.
  - destruct (bytes_Compare k k0) eqn:E; simpl; rewrite ?elem_of_cons.
    + apply bytes_Compare_eq in E as ->. naive_solver.
    + simpl. naive_solver.
    + rewrite IH. naive_solver.
Qed.

Lemma sorted_Put k v b : bucket_sorted b → bucket_sorted (bucket_Put k v b).
Proof.
  induction b as [|[k0 v0] b IH]; simpl; intros Hs.
  - apply bucket_sorted_cons. split; [constructor|]. intros k' Hk'. by apply elem_of_nil in Hk'.
  - pose proof Hs as Hs'. apply bucket_sorted_cons in Hs' as [Hb Hk0].
    destruct (bytes_Compare k k0) eqn:E.
    + apply bytes_Compare_eq in E as ->. by apply bucket_sorted_cons.
    + apply bucket_sorted_cons. split; [done|].
      intros k' [->|Hk']%elem_of_cons; [done|].
      eapply bytes_Compare_trans; [exact E|]. by apply Hk0.
    + apply bucket_sorted_cons. split; [by apply IH|].
      intros k' [->|Hk']%keys_Put; [|by apply Hk0].
      by apply bytes_Compare_Gt_Lt.
Qed.

Lemma elem_of_Put k v b k' v' :
  bucket_sorted b →
  (k', v') ∈ bucket_Put k v b ↔ (k' = k ∧ v' = v) ∨ (k' ≠ k ∧ (k', v') ∈ b).
Proof.
  induction b as [|[k0 v0] b IH]; simpl; intros Hs.
  - rewrite list_elem_of_singleton, elem_of_nil. naive_solver.
  - apply bucket_sorted_cons in Hs as [Hb Hk0].
    assert (Hrest : ∀ k1 v1, (k1, v1) ∈ b → bytes_lt k0 k1).
    { intros k1 v1 H1. apply Hk0. apply list_elem_of_fmap. by exists (k1, v1). }
    destruct (bytes_Compare k k0) eqn:E; rewrite ?elem_of_cons.
    + apply bytes_Compare_eq in E as ->. split.
      * intros [[= -> ->]|Hin]; [by left|]. right. split; [|by right].
        intros ->. by eapply bytes_lt_irrefl, Hrest.
      * intros [[-> ->]|[Hne [[= -> ->]|Hin]]]; [by left|done|by right].
    + split.
      * intros [[= -> ->]|[[= -> ->]|Hin]]; [by left|right..].
        -- split; [|by left]. intros ->. by rewrite bytes_Compare_refl in E.
        -- split; [|by right]. intros ->.
           eapply bytes_lt_irrefl, bytes_Compare_trans; [exact E|]. by eapply Hrest.
      * intros [[-> ->]|[Hne Hin]]; [by left|by right].
    + rewrite IH by done. split.
      * intros [[= -> ->]|[[-> ->]|[Hne Hin]]].
        -- right. split; [|by left]. intros ->. by rewrite bytes_Compare_refl in E.
        -- by left.
        -- right. split; [done|by right].
      * intros [[-> ->]|[Hne [[= -> ->]|Hin]]]; [right; by left|by left|].
        right. right. done.
Qed.

Lemma Delete_sublist k b : bucket_Delete k b `sublist_of` b.
Proof.
  induction b as [|[k0 v0] b IH]; simpl; [done|].
  destruct (bytes_Compare k k0); [by apply sublist_cons|by apply sublist_skip..].
Qed.

Lemma sorted_sublist b b' : b' `sublist_of` b → bucket_sorted b → bucket_sorted b'.
Proof.
  intros Hsub. induction Hsub as [|x l1 l2 Hsub IH|x l1 l2 Hsub IH]; intros Hs.
  - done.
  - destruct x as [k v]. apply bucket_sorted_cons in Hs as [Hs Hk].
    apply bucket_sorted_cons. split; [by apply IH|].
    intros k' Hk'. apply Hk. unfold keys in *.
    eapply elem_of_sublist; [done|]. by apply fmap_sublist.
  - destruct x as [k v]. apply bucket_sorted_cons in Hs as [Hs Hk]. by apply IH.
Qed.

Lemma sorted_Delete k b : bucket_sorted b → bucket_sorted (bucket_Delete k b).
Proof. apply sorted_sublist, Delete_sublist. Qed.

Lemma Delete_absent k b : k ∉ keys b → bucket_Delete k b = b.
Proof.
  unfold keys. induction b as [|[k0 v0] b IH]; simpl; [done|].
  rewrite not_elem_of_cons. intros [Hne Hnin].
  destruct (bytes_Compare k k0) eqn:E.
  - by apply bytes_Compare_eq in E.
  - by rewrite IH.
  - by rewrite IH.
Qed.

Lemma Delete_Put k v b : k ∉ keys b → bucket_Delete k (bucket_Put k v b) = b.
Proof.
  unfold keys. induction b as [|[k0 v0] b IH]; simpl.
  - by rewrite bytes_Compare_refl.
  - rewrite not_elem_of_cons. intros [Hne Hnin].
    destruct (bytes_Compare k k0) eqn:E; simpl.
    + by apply bytes_Compare_eq in E.
    + by rewrite bytes_Compare_refl.
    + by rewrite E, IH.
Qed.

Lemma keys_Delete k b k' :
  bucket_sorted b → k' ∈ keys (bucket_Delete k b) ↔ k' ≠ k ∧ k' ∈ keys b.
Proof.
  unfold keys. induction b as [|[k0 v0] b IH]; simpl; intros Hs.
  - rewrite elem_of_nil. naive_solver.
  - apply bucket_sorted_cons in Hs as [Hb Hk0].
    destruct (bytes_Compare k k0) eqn:E; simpl; rewrite ?elem_of_cons, ?IH by done.
    + apply bytes_Compare_eq in E as ->. split.
      * intros Hin. split; [|by right]. intros ->. by eapply bytes_lt_irrefl, Hk0.
      * intros [Hne [->|Hin]]; done.
    + split; [|naive_solver].
      intros [->|[Hne Hin]]; [|naive_solver].
      split; [|by left]. intros ->. by rewrite bytes_Compare_refl in E.
    + split; [|naive_solver].
      intros [->|[Hne Hin]]; [|naive_solver].
      split; [|by left]. intros ->. by rewrite bytes_Compare_refl in E.
Qed.

Lemma Get_Put_eq k v b : bucket_Get k (bucket_Put k v b) = Some v.
Proof.
  induction b as [|[k0 v0] b IH]; simpl.
  - by rewrite bytes_Compare_refl.
  - destruct (bytes_Compare k k0) eqn:E; simpl.
    + by rewrite bytes_Compare_refl.
    + by rewrite bytes_Compare_refl.
    + by rewrite E.
Qed.

Lemma Get_Some_elem k v b : bucket_Get k b = Some v → (k, v) ∈ b.
Proof.
  induction b as [|[k0 v0] b IH]; simpl; [done|].
  destruct (bytes_Compare k k0) eqn:E.
  - apply bytes_Compare_eq in E as ->. intros [= ->]. by left.
  - intros H. right. by apply IH.
  - intros H. right. by apply IH.
Qed.

Lemma Get_None k b : bucket_Get k b = None ↔ k ∉ keys b.
Proof.
  unfold keys. induction b as [|[k0 v0] b IH]; simpl.
  - split; [intros _; apply not_elem_of_nil|done].
  - rewrite not_elem_of_cons.
    destruct (bytes_Compare k k0) eqn:E.
    + apply bytes_Compare_eq in E as ->. naive_solver.
    + rewrite IH. split; [|naive_solver]. intros H. split; [|done].
      intros ->. by rewrite bytes_Compare_refl in E.
    + rewrite IH. split; [|naive_solver]. intros H. split; [|done].
      intros ->. by rewrite bytes_Compare_refl in E.
Qed.

Lemma Get_elem_sorted k v b : bucket_sorted b → (k, v) ∈ b → bucket_Get k b = Some v.
Proof.
  induction b as [|[k0 v0] b IH]; simpl; intros Hs Hin.
  - by apply elem_of_nil in Hin.
  - apply bucket_sorted_cons in Hs as [Hb Hk0].
    apply elem_of_cons in Hin as [[= -> ->]|Hin].
    + by rewrite bytes_Compare_refl.
    + assert (bytes_lt k0 k) as Hlt.
      { apply Hk0. apply list_elem_of_fmap. by exists (k, v). }
      apply bytes_Compare_Gt_Lt in Hlt. rewrite Hlt. by apply IH.
Qed.

(** On a sorted bucket [Seek] drops exactly the entries below the key. *)
Lemma Seek_sorted k b :
  bucket_sorted b →
  ∃ below, b = below ++ cursor_Seek k b ∧
    (∀ k', k' ∈ keys below → bytes_lt k' k) ∧
    (∀ k', k' ∈ keys (cursor_Seek k b) → bytes_le k k').
Proof.
  induction b as [|[k0 v0] b IH]; simpl; intros Hs.
  - exists []. split; [done|]. split; intros k' Hk'; by apply elem_of_nil in Hk'.
  - apply bucket_sorted_cons in Hs as [Hb Hk0]. unfold key_lt.
    destruct (bytes_Compare k0 k) eqn:E.
    + exists []. split; [done|]. split; [intros k' Hk'; by apply elem_of_nil in Hk'|].
      apply bytes_Compare_eq in E as ->.
      intros k' [->|Hk']%elem_of_cons.
      * unfold bytes_le. by rewrite bytes_Compare_refl.
      * unfold bytes_le. by rewrite (Hk0 k' Hk').
    + destruct (IH Hb) as (below & Heq & H1 & H2).
      exists ((k0, v0) :: below). split; [by rewrite Heq at 1|]. split; [|done].
      intros k' [->|Hk']%elem_of_cons; [done|by apply H1].
    + exists []. split; [done|]. split; [intros k' Hk'; by apply elem_of_nil in Hk'|].
      apply bytes_Compare_Gt_Lt in E.
      intros k' [->|Hk']%elem_of_cons.
      * unfold bytes_le. simpl. by rewrite E.
      * unfold bytes_le. by rewrite (bytes_Compare_trans _ _ _ _ E (Hk0 k' Hk')).
Qed.

End Buckets.

(** ** Scans as lists *)

(** Handing the items of a list to a consumer until it declines. *)
Fixpoint feed {A W} (g : A → W → W * bool) (l : list A) (w : W) : W * bool :=
  match l with
  | [] => (w, true)
  | a :: l' =>
      let '(w, more) := g a w in
      if negb more then (w, false) else feed g l' w
  end.

Section Scans.
Context {OL : Ordered} {MU : MarshalUnmarshaler}.

(** What the loop of [dataStorage.get] hands over, from a cursor position. *)
Definition data_item (kv : bytes * bytes) : result entry :=
  match maUn_Unmarshal kv.2 with
  | Err e => Err e
  | Ok val => Ok {| id := kv.1; value_of := val |}
  end.

Fixpoint data_items (kr : keyRange) (c : bucket bytes) : list (result entry) :=
  match c with
  | [] => []
  | (k, v) :: c' =>
      if negb (lessThan kr k) then []
      else if negb (contains kr k) then data_items kr c'
      else data_item (k, v) :: data_items kr c'
  end.

Definition data_scan (kr : keyRange) (b : bucket bytes) : list (result entry) :=
  let c :=
    match startKey kr with
    | Some s => cursor_Seek s b
    | None => cursor_First b
    end in
  data_items kr (if negb (includeStart kr) then cursor_Next c else c).

(** What the loop of the index scan hands over. *)
Definition index_entry (k : nat) (key : bytes) : option (bytes * bytes) :=
  parts ← DecodeAny key;
  if negb (Nat.eqb (length parts) (S k)) then None
  else idBytes ← last parts ≫= value_bytes;
       Some (ordered_Encode (take k parts), idBytes).

Fixpoint index_ids (k : nat) (kr : keyRange) (c : bucket unit) : list bytes :=
  match c with
  | [] => []
  | (key, _) :: c' =>
      match index_entry k key with
      | None => index_ids k kr c'
      | Some (lead, idBytes) =>
          if negb (contains kr lead) then
            if negb (lessThan kr lead) then [] else index_ids k kr c'
          else idBytes :: index_ids k kr c'
      end
  end.

Definition index_scan_ids (k : nat) (kr : keyRange) (b : bucket unit) : list bytes :=
  index_ids k kr
    match startKey kr with
    | Some s => cursor_Seek s b
    | None => cursor_First b
    end.

(** What the body of the scans of [iter] does with an item. *)
Definition body_item (pr : Persistent) (ranges : gmap string keyRange)
    (skip : string) (item : result entry) : option (result entry) :=
  match item with
  | Err err => Some (Err err)
  | Ok e =>
      match matchOps pr (value_of e) ranges skip with
      | Err err => Some (Err err)
      | Ok matches => if matches then Some (Ok e) else None
      end
  end.

Context {W : Type}.
Implicit Types (w : W).

Lemma feed_app {A} (g : A → W → W * bool) (l1 l2 : list A) w :
  feed g (l1 ++ l2) w =
  let '(w', more) := feed g l1 w in if more then feed g l2 w' else (w', false).
Proof.
  revert w. induction l1 as [|a l1 IH]; intros w; simpl; [done|].
  destruct (g a w) as [w' more]. destruct more; simpl; [apply IH|done].
Qed.

Lemma feed_omap {A B} (h : A → option B) (g : B → W → W * bool) (l : list A) w :
  feed (fun a w => match h a with Some x => g x w | None => (w, true) end) l w
  = feed g (omap h l) w.
Proof.
  revert w. induction l as [|a l IH]; intros w; simpl; [done|].
  destruct (h a) as [x|]; simpl; [|apply IH].
  destruct (g x w) as [w' more]. destruct more; simpl; [apply IH|done].
Qed.

Lemma feed_flat {A B} (f : A → list B) (g : B → W → W * bool) (l : list A) w :
  feed (fun a w => feed g (f a) w) l w = feed g (flat_map f l) w.
Proof.
  revert w. induction l as [|a l IH]; intros w; simpl; [done|].
  rewrite feed_app. destruct (feed g (f a) w) as [w' more].
  destruct more; simpl; [apply IH|done].
Qed.

Lemma feed_ext {A} (g g' : A → W → W * bool) (l : list A) w :
  (∀ a w, g a w = g' a w) → feed g l w = feed g' l w.
Proof.
  intros Hg. revert w. induction l as [|a l IH]; intros w; simpl; [done|].
  rewrite Hg. destruct (g' a w) as [w' more]. destruct more; simpl; [apply IH|done].
Qed.

Lemma dataStorage_get_loop_feed kr c (g : result entry → W → W * bool) w :
  dataStorage_get_loop kr c g w = feed g (data_items kr c) w.
Proof.
  revert w. induction c as [|[k v] c IH]; intros w; simpl; [done|].
  destruct (negb (lessThan kr k)); [done|].
  destruct (negb (contains kr k)); [apply IH|].
  unfold data_item. simpl. destruct (maUn_Unmarshal v) as [val|e]; simpl.
  - destruct (g _ w) as [w' more]. destruct more; simpl; [apply IH|done].
  - destruct (g _ w) as [w' more]. destruct more; simpl; [apply IH|done].
Qed.

Lemma dataStorage_get_feed (getdb : W → DB) kr (g : result entry → W → W * bool) w :
  dataStorage_get getdb kr g w = feed g (data_scan kr (data_bk (getdb w))) w.
Proof. unfold dataStorage_get, data_scan. apply dataStorage_get_loop_feed. Qed.

Lemma IndexStore_get_loop_feed k kr c (g : bytes → W → W * bool) w :
  IndexStore_get_loop k kr c g w = feed g (index_ids k kr c) w.
Proof.
  revert w. induction c as [|[key u] c IH]; intros w; simpl; [done|].
  unfold index_entry. destruct (DecodeAny key) as [parts|]; simpl; [|apply IH].
  destruct (negb (length parts =? S k)%nat); [apply IH|].
  destruct (last parts ≫= value_bytes) as [idb|]; simpl; [|apply IH].
  destruct (negb (contains kr _)).
  { destruct (negb (lessThan kr _)); [done|apply IH]. }
  simpl. destruct (g idb w) as [w' more]. destruct more; simpl; [apply IH|done].
Qed.

Lemma iter_body_feed pr ranges skip (g : result entry → W → W * bool) item w :
  iter_body pr ranges skip g item w =
  match body_item pr ranges skip item with Some x => g x w | None => (w, true) end.
Proof.
  unfold iter_body, body_item. destruct item as [e|err]; [|done].
  destruct (matchOps pr (value_of e) ranges skip) as [[]|]; done.
Qed.

(** The two scans of [iter], as lists fed to the consumer. *)
Lemma full_scan_feed (getdb : W → DB) pr ranges (g : result entry → W → W * bool) w :
  full_scan getdb pr ranges g w =
  feed g (omap (body_item pr ranges "") (data_scan full_range (data_bk (getdb w)))) w.
Proof.
  unfold full_scan. rewrite dataStorage_get_feed.
  rewrite <- feed_omap. apply feed_ext. intros. apply iter_body_feed.
Qed.

Definition fetch (pr : Persistent) (ranges : gmap string keyRange) (skip : string)
    (db : DB) (idBytes : bytes) : list (result entry) :=
  omap (body_item pr ranges skip) (data_scan (id_range idBytes) (data_bk db)).

Lemma index_scan_step (getdb : W → DB) pr ranges skip
    (g : result entry → W → W * bool) idBytes w :
  dataStorage_get getdb (id_range idBytes) (iter_body pr ranges skip g) w =
  feed g (fetch pr ranges skip (getdb w) idBytes) w.
Proof.
  rewrite dataStorage_get_feed. unfold fetch.
  rewrite <- feed_omap. apply feed_ext. intros. apply iter_body_feed.
Qed.

End Scans.

Lemma feed_take_all {A} (l acc : list A) : feed take_all l acc = (acc ++ l, true).
Proof.
  revert acc. induction l as [|a l IH]; intros acc; simpl.
  - by rewrite app_nil_r.
  - rewrite IH. by rewrite <- app_assoc.
Qed.

(** ** Ranges *)

Lemma contains_lessThan kr x : contains kr x = true → lessThan kr x = true.
Proof. unfold contains, lessThan. by intros [_ H]%andb_true_iff. Qed.

Lemma lessThan_mono kr x y :
  lessThan kr x = false → bytes_le x y → lessThan kr y = false.
Proof.
  unfold lessThan. destruct (endKey kr) as [e|]; [|done].
  intros Hx Hxy.
  assert (bytes_le e x ∧ (bytes_Compare x e = Eq → includeEnd kr = false)) as [Hex Heq].
  { destruct (bytes_Compare x e) eqn:E; try done.
    - apply bytes_Compare_eq in E as ->. split; [|done].
      unfold bytes_le. by rewrite bytes_Compare_refl.
    - split; [|done]. apply bytes_Compare_Gt_Lt in E. unfold bytes_le. by rewrite E. }
  destruct (bytes_Compare y e) eqn:E; [| |done].
  - apply bytes_Compare_eq in E as ->.
    destruct (bytes_Compare x e) eqn:E'; [by apply Heq| |done].
    exfalso. apply (bytes_lt_irrefl x). by eapply bytes_lt_le_trans.
  - exfalso. apply (bytes_lt_irrefl e).
    eapply bytes_le_lt_trans; [exact Hex|]. by eapply bytes_le_lt_trans.
Qed.

Lemma contains_below_start kr s x :
  startKey kr = Some s → bytes_lt x s → contains kr x = false.
Proof. unfold contains, bytes_lt. by intros -> ->. Qed.

Lemma contains_full_range x : contains full_range x = true.
Proof. done. Qed.

Lemma contains_point v x : contains (op_range OpEq v) x = true ↔ x = v.
Proof.
  unfold contains. simpl. split.
  - destruct (bytes_Compare x v) eqn:E; try done. by apply bytes_Compare_eq in E.
  - intros ->. by rewrite bytes_Compare_refl.
Qed.

Section Stores.
Context {OL : Ordered} {MU : MarshalUnmarshaler}.

(** ** The data scans [iter] makes *)

Lemma data_scan_full (b : bucket bytes) : data_scan full_range b = map data_item b.
Proof.
  unfold data_scan. simpl. unfold cursor_First.
  induction b as [|[k v] b IH]; simpl; [done|]. by rewrite IH.
Qed.

Lemma data_items_above kr e (c : bucket bytes) :
  endKey kr = Some e → (∀ k, k ∈ keys c → bytes_lt e k) → data_items kr c = [].
Proof.
  intros He Hc. destruct c as [|[k v] c]; simpl; [done|].
  unfold lessThan. rewrite He.
  assert (bytes_Compare k e = Gt) as ->; [|done].
  apply bytes_Compare_Gt_Lt, Hc. by left.
Qed.

Lemma data_scan_id idb (b : bucket bytes) :
  bucket_sorted b →
  data_scan (id_range idb) b =
  match bucket_Get idb b with
  | Some v => [data_item (idb, v)]
  | None => []
  end.
Proof.
  unfold data_scan. simpl.
  induction b as [|[k v] b IH]; simpl; intros Hs; [done|].
  apply bucket_sorted_cons in Hs as [Hb Hk]. unfold key_lt.
  rewrite (bytes_Compare_antisym k idb).
  destruct (bytes_Compare k idb) eqn:E; simpl.
  - apply bytes_Compare_eq in E as ->.
    unfold lessThan, contains. simpl. rewrite bytes_Compare_refl. simpl.
    f_equal. by apply (data_items_above _ idb).
  - by apply IH.
  - unfold lessThan. simpl. rewrite E. simpl.
    assert (bucket_Get idb b = None) as ->; [|done].
    apply Get_None. intros Hin. apply Hk in Hin.
    apply (bytes_lt_irrefl idb). apply bytes_Compare_Gt_Lt in E.
    by eapply bytes_Compare_trans.
Qed.

(** ** Index keys *)

Lemma ordered_Encode_app (l1 l2 : list value) :
  ordered_Encode (l1 ++ l2) = ordered_Encode l1 ++ ordered_Encode l2.
Proof. unfold ordered_Encode. by rewrite map_app, concat_app. Qed.

Lemma ordered_CanEncode_app (l1 l2 : list value) :
  ordered_CanEncode (l1 ++ l2) = ordered_CanEncode l1 && ordered_CanEncode l2.
Proof. apply forallb_app. Qed.

Lemma ordered_CanEncode_canon (l : list value) :
  ordered_CanEncode l = true → ordered_CanEncode (map canon l) = true.
Proof.
  unfold ordered_CanEncode. induction l as [|v l IH]; simpl; [done|].
  intros [Hv Hl]%andb_true_iff. by rewrite CanEncode1_canon, IH.
Qed.

Lemma ordered_Encode_canon (l : list value) :
  ordered_CanEncode l = true → ordered_Encode (map canon l) = ordered_Encode l.
Proof.
  unfold ordered_CanEncode, ordered_Encode. induction l as [|v l IH]; simpl; [done|].
  intros [Hv Hl]%andb_true_iff. by rewrite Encode1_canon, IH.
Qed.

(** Encodings of tuples of one length are prefix-free. *)
Lemma ordered_Encode_prefix_free (l1 l2 : list value) (x : bytes) :
  ordered_CanEncode l1 = true → ordered_CanEncode l2 = true →
  length l1 = length l2 →
  ordered_Encode l2 = ordered_Encode l1 ++ x → x = [].
Proof.
  intros H1 H2 Hlen Heq.
  pose proof (DecodeAny_Encode l2 H2) as Hd. rewrite Heq in Hd.
  rewrite DecodeAny_Encode_app in Hd by done.
  destruct (DecodeAny x) as [t|] eqn:Ex; [|done]. simpl in Hd.
  injection Hd as Hd. apply (f_equal length) in Hd.
  rewrite length_app, !length_map in Hd.
  destruct t; [|simpl in Hd; lia]. by apply DecodeAny_nil_inv.
Qed.

(** The key [IndexStore.insert] stores for a row. *)
Definition index_key (keyParts : list value) (idBytes : bytes) : bytes :=
  ordered_Encode (keyParts ++ [VBytes idBytes]).

Lemma index_key_app keyParts idBytes :
  index_key keyParts idBytes
  = ordered_Encode keyParts ++ Encode1 (VBytes idBytes).
Proof.
  unfold index_key. rewrite ordered_Encode_app. unfold ordered_Encode at 2.
  simpl. by rewrite app_nil_r.
Qed.

Lemma index_entry_key k keyParts idBytes :
  length keyParts = k → ordered_CanEncode keyParts = true →
  index_entry k (index_key keyParts idBytes)
  = Some (ordered_Encode keyParts, idBytes).
Proof.
  intros Hk Hc. unfold index_entry, index_key.
  rewrite DecodeAny_Encode.
  2:{ rewrite ordered_CanEncode_app, Hc. simpl. by rewrite CanEncode1_bytes. }
  simpl.
  assert (length (map canon (keyParts ++ [VBytes idBytes])) = S k) as ->.
  { rewrite length_map, length_app. simpl. lia. }
  rewrite Nat.eqb_refl. simpl. rewrite map_app. simpl. rewrite last_snoc. simpl.
  rewrite canon_bytes. simpl.
  rewrite take_app_length' by (by rewrite length_map).
  by rewrite ordered_Encode_canon.
Qed.

(** An index bucket for [k] key columns holds keys that [insert] made. *)
Definition index_wf (k : nat) (b : bucket unit) : Prop :=
  ∀ key, key ∈ keys b →
    ∃ keyParts idBytes, length keyParts = k ∧
      ordered_CanEncode keyParts = true ∧ key = index_key keyParts idBytes.

Lemma index_wf_entry k b key :
  index_wf k b → key ∈ keys b →
  ∃ lead idBytes, index_entry k key = Some (lead, idBytes) ∧
    ∃ x, key = lead ++ x.
Proof.
  intros Hwf Hin. destruct (Hwf key Hin) as (kp & idb & Hlen & Hc & ->).
  exists (ordered_Encode kp), idb. rewrite index_entry_key by done.
  split; [done|]. eexists. apply index_key_app.
Qed.

(** Keys in ascending order have their leading parts in ascending order. *)
Lemma index_key_lead_mono kp1 id1 kp2 id2 :
  ordered_CanEncode kp1 = true → ordered_CanEncode kp2 = true →
  length kp1 = length kp2 →
  bytes_lt (index_key kp1 id1) (index_key kp2 id2) →
  bytes_le (ordered_Encode kp1) (ordered_Encode kp2).
Proof.
  intros H1 H2 Hlen Hlt. apply bytes_le_not_lt. intros Hlead.
  rewrite !index_key_app in Hlt.
  apply (bytes_lt_irrefl (ordered_Encode kp1 ++ Encode1 (VBytes id1))).
  eapply bytes_Compare_trans; [exact Hlt|].
  apply bytes_Compare_app_lt; [done|].
  intros [x Hx].
  assert (x = []) as -> by (by eapply (ordered_Encode_prefix_free kp2 kp1)).
  rewrite app_nil_r in Hx. rewrite Hx in Hlead. by apply bytes_lt_irrefl in Hlead.
Qed.

(** The ids of the entries whose leading part the range contains. *)
Definition index_sel (k : nat) (kr : keyRange) (b : bucket unit) : list bytes :=
  omap (fun e =>
    '(lead, idBytes) ← index_entry k e.1;
    if contains kr lead then Some idBytes else None) b.

Lemma index_sel_none k kr (c : bucket unit) :
  (∀ key, key ∈ keys c →
     ∃ keyParts idBytes, length keyParts = k ∧ ordered_CanEncode keyParts = true ∧
       key = index_key keyParts idBytes ∧
       contains kr (ordered_Encode keyParts) = false) →
  index_sel k kr c = [].
Proof.
  unfold index_sel. induction c as [|[key u] c IH]; simpl; intros H; [done|].
  destruct (H key) as (kp & idb & Hlen & Hcan & -> & Hcont); [by left|].
  rewrite index_entry_key by done. simpl. rewrite Hcont.
  apply IH. intros key' Hin. apply H. by right.
Qed.

Lemma index_ids_sel k kr (c : bucket unit) :
  bucket_sorted c → index_wf k c → index_ids k kr c = index_sel k kr c.
Proof.
  induction c as [|[key u] c IH]; simpl; intros Hs Hwf; [done|].
  apply bucket_sorted_cons in Hs as [Hc Hk].
  assert (index_wf k c) as Hwf'.
  { intros key' Hin. apply Hwf. by right. }
  destruct (Hwf key) as (kp & idb & Hlen & Hcan & ->); [by left|].
  unfold index_sel. simpl. rewrite index_entry_key by done. simpl.
  fold (index_sel k kr c).
  destruct (contains kr (ordered_Encode kp)) eqn:Hcont; simpl; [by rewrite IH|].
  destruct (lessThan kr (ordered_Encode kp)) eqn:Hlt; simpl; [by apply IH|].
  symmetry. apply index_sel_none. intros key' Hin.
  destruct (Hwf' key' Hin) as (kp' & idb' & Hlen' & Hcan' & ->).
  exists kp', idb'. split; [done|]. split; [done|]. split; [done|].
  assert (lessThan kr (ordered_Encode kp') = false) as Hlt'.
  { eapply lessThan_mono; [exact Hlt|].
    apply (index_key_lead_mono kp idb kp' idb'); [done..|congruence|].
    by apply Hk. }
  destruct (contains kr (ordered_Encode kp')) eqn:Hcont'; [|done].
  apply contains_lessThan in Hcont'. congruence.
Qed.

Lemma index_scan_ids_sel k kr (b : bucket unit) :
  bucket_sorted b → index_wf k b → index_scan_ids k kr b = index_sel k kr b.
Proof.
  intros Hs Hwf. unfold index_scan_ids.
  destruct (startKey kr) as [s|] eqn:Hstart; [|by apply index_ids_sel].
  destruct (Seek_sorted s b Hs) as (below & Heq & Hbelow & Habove).
  assert (bucket_sorted (cursor_Seek s b)) as Hs'.
  { eapply sorted_sublist; [|exact Hs]. rewrite Heq at 2. by apply sublist_inserts_l. }
  assert (index_wf k (cursor_Seek s b)) as Hwf'.
  { intros key Hin. apply Hwf. rewrite Heq. unfold keys. rewrite fmap_app.
    apply elem_of_app. by right. }
  rewrite index_ids_sel by done.
  rewrite Heq at 2. unfold index_sel. rewrite omap_app.
  fold (index_sel k kr below). rewrite index_sel_none; [done|].
  intros key Hin.
  destruct (Hwf key) as (kp & idb & Hlen & Hcan & ->).
  { rewrite Heq. unfold keys. rewrite fmap_app. apply elem_of_app. by left. }
  exists kp, idb. split; [done|]. split; [done|]. split; [done|].
  apply (contains_below_start kr s); [done|].
  eapply bytes_le_lt_trans; [|by apply Hbelow].
  rewrite index_key_app. apply bytes_le_app.
Qed.

End Stores.

(** ** The index scan of [indexStorage] *)

Section IndexStorageFacts.
Context {OL : Ordered} {MU : MarshalUnmarshaler}.

(** The key [indexStorage.insert] stores for a locator. *)
Definition locator_key (key : bytes) (idn : N) : bytes :=
  ordered_Encode [VBytes key; VUint idn].

(** How the loop of [indexStorage.get] reads a stored key: the leading
    bytes and the row id when it has two components of these kinds. *)
Definition storage_entry (raw : bytes) : option (bytes * N) :=
  match DecodeAny raw with
  | Some [part0; part1] =>
      valBytes ← value_bytes part0; idn ← value_uint64 part1; Some (valBytes, idn)
  | _ => None
  end.

Fixpoint storage_items (kr : keyRange) (c : bucket unit) : list (result N) :=
  match c with
  | [] => []
  | (raw, _) :: c' =>
      match DecodeAny raw with
      | None => Err ErrUnmarshal :: storage_items kr c'
      | Some _ =>
          match storage_entry raw with
          | None => storage_items kr c'
          | Some (valBytes, idn) =>
              if negb (contains kr valBytes) then
                if negb (lessThanEnd kr valBytes) then [] else storage_items kr c'
              else Ok idn :: storage_items kr c'
          end
      end
  end.

Lemma indexStorage_get_loop_feed {W} kr c (g : result N → W → W * bool) w :
  indexStorage_get_loop kr c g w = feed g (storage_items kr c) w.
Proof.
  revert w. induction c as [|[raw u] c IH]; intros w; simpl; [done|].
  unfold orderedMa_Unmarshal, storage_entry.
  destruct (DecodeAny raw) as [parts|]; simpl.
  2:{ destruct (g _ w) as [w' more]. destruct more; simpl; [apply IH|done]. }
  destruct parts as [|part0 [|part1 [|]]]; try apply IH.
  destruct (value_bytes part0) as [valBytes|]; simpl; [|apply IH].
  destruct (value_uint64 part1) as [idn|]; simpl; [|apply IH].
  destruct (negb (contains kr valBytes)).
  { destruct (negb (lessThanEnd kr valBytes)); [done|apply IH]. }
  simpl. destruct (g _ w) as [w' more]. destruct more; simpl; [apply IH|done].
Qed.

Lemma locator_key_app key idn :
  locator_key key idn = Encode1 (VBytes key) ++ Encode1 (VUint idn).
Proof. unfold locator_key, ordered_Encode. simpl. by rewrite app_nil_r. Qed.

Lemma storage_entry_locator key idn :
  CanEncode1 (VUint idn) = true →
  DecodeAny (locator_key key idn) = Some [canon (VBytes key); canon (VUint idn)] ∧
  storage_entry (locator_key key idn) = Some (key, idn).
Proof.
  intros Hc. unfold storage_entry, locator_key.
  rewrite DecodeAny_Encode.
  2:{ unfold ordered_CanEncode. simpl. by rewrite CanEncode1_bytes, Hc. }
  simpl. split; [done|]. by rewrite canon_bytes, canon_uint.
Qed.

Lemma Encode1_bytes_prefix_free a b x : Encode1 (VBytes b) = Encode1 (VBytes a) ++ x → x = [].
Proof.
  intros H. apply (ordered_Encode_prefix_free [VBytes a] [VBytes b]).
  - unfold ordered_CanEncode. simpl. by rewrite CanEncode1_bytes.
  - unfold ordered_CanEncode. simpl. by rewrite CanEncode1_bytes.
  - done.
  - unfold ordered_Encode. simpl. by rewrite !app_nil_r.
Qed.

(** Below in the bytes, below after extension. *)
Lemma Encode1_bytes_lt_app a b x y :
  bytes_lt a b → bytes_lt (Encode1 (VBytes a) ++ x) (Encode1 (VBytes b) ++ y).
Proof.
  intros Hab. apply bytes_Compare_app_lt.
  - unfold bytes_lt. by rewrite Encode1_bytes_order.
  - intros [t Ht]. apply Encode1_bytes_prefix_free in Ht as Ht'. subst t.
    rewrite app_nil_r in Ht.
    pose proof (Encode1_bytes_order a b) as Ho. rewrite Ht, bytes_Compare_refl in Ho.
    unfold bytes_lt in Hab. congruence.
Qed.

(** The keys of locators are ordered by their leading bytes first. *)
Lemma locator_key_mono k1 i1 k2 i2 :
  bytes_lt (locator_key k1 i1) (locator_key k2 i2) → bytes_le k1 k2.
Proof.
  intros Hlt. apply bytes_le_not_lt. intros H21.
  apply (bytes_lt_irrefl (locator_key k1 i1)).
  eapply bytes_Compare_trans; [exact Hlt|].
  rewrite !locator_key_app. by apply Encode1_bytes_lt_app.
Qed.

(** A bucket that [indexStorage.insert] filled, possibly with keys of
    another number of components among them. *)
Definition storage_wf (b : bucket unit) : Prop :=
  ∀ raw, raw ∈ keys b →
    (∃ key idn, CanEncode1 (VUint idn) = true ∧ raw = locator_key key idn) ∨
    (∃ parts, DecodeAny raw = Some parts ∧ length parts ≠ 2).

(** The ids of the stored keys whose leading bytes the range contains. *)
Definition storage_sel (kr : keyRange) (b : bucket unit) : list (result N) :=
  omap (fun e =>
    '(valBytes, idn) ← storage_entry e.1;
    if contains kr valBytes then Some (Ok idn) else None) b.

Lemma storage_entry_junk raw parts :
  DecodeAny raw = Some parts → length parts ≠ 2 → storage_entry raw = None.
Proof.
  unfold storage_entry. intros -> Hlen.
  by destruct parts as [|part0 [|part1 [|]]].
Qed.

Lemma storage_sel_none kr (c : bucket unit) :
  (∀ raw, raw ∈ keys c →
     (∃ key idn, CanEncode1 (VUint idn) = true ∧ raw = locator_key key idn ∧
        contains kr key = false) ∨
     (∃ parts, DecodeAny raw = Some parts ∧ length parts ≠ 2)) →
  storage_sel kr c = [].
Proof.
  unfold storage_sel. induction c as [|[raw u] c IH]; simpl; intros H; [done|].
  assert (storage_entry raw
          ≫= (λ '(valBytes, idn), if contains kr valBytes then Some (Ok idn) else None)
          = None) as ->.
  { destruct (H raw) as [(key & idn & Hc & -> & Hcont)|(parts & Hd & Hlen)]; [by left| |].
    - destruct (storage_entry_locator key idn Hc) as [_ ->]. simpl. by rewrite Hcont.
    - by rewrite (storage_entry_junk raw parts). }
  apply IH. intros raw' Hin. apply H. by right.
Qed.

Lemma storage_items_sel kr (c : bucket unit) :
  bucket_sorted c → storage_wf c → storage_items kr c = storage_sel kr c.
Proof.
  induction c as [|[raw u] c IH]; simpl; intros Hs Hwf; [done|].
  apply bucket_sorted_cons in Hs as [Hc Hk].
  assert (storage_wf c) as Hwf'.
  { intros raw' Hin. apply Hwf. by right. }
  unfold storage_sel. simpl. fold (storage_sel kr c).
  destruct (Hwf raw) as [(key & idn & Hcan & ->)|(parts & Hd & Hlen)]; [by left| |].
  - destruct (storage_entry_locator key idn Hcan) as [-> ->]. simpl.
    destruct (contains kr key) eqn:Hcont; simpl; [by rewrite IH|].
    destruct (lessThanEnd kr key) eqn:Hlt; simpl; [by apply IH|].
    symmetry. apply storage_sel_none. intros raw' Hin.
    destruct (Hwf' raw' Hin) as [(key' & idn' & Hcan' & ->)|Hjunk]; [left|by right].
    exists key', idn'. split; [done|]. split; [done|].
    assert (lessThan kr key' = false) as Hlt'.
    { eapply lessThan_mono; [exact Hlt|].
      apply (locator_key_mono key idn key' idn'). by apply Hk. }
    destruct (contains kr key') eqn:Hcont'; [|done].
    apply contains_lessThan in Hcont'. congruence.
  - rewrite Hd, (storage_entry_junk raw parts) by done. simpl. by apply IH.
Qed.

Lemma storage_scan_sel kr (b : bucket unit) :
  bucket_sorted b → storage_wf b →
  storage_items kr
    match startKey kr with
    | Some s => cursor_Seek (Encode1 (VBytes s)) b
    | None => cursor_First b
    end
  = storage_sel kr b.
Proof.
  intros Hs Hwf.
  destruct (startKey kr) as [s|] eqn:Hstart; [|by apply storage_items_sel].
  destruct (Seek_sorted (Encode1 (VBytes s)) b Hs) as (below & Heq & Hbelow & Habove).
  set (c := cursor_Seek (Encode1 (VBytes s)) b) in *.
  assert (bucket_sorted c) as Hs'.
  { eapply sorted_sublist; [|exact Hs]. rewrite Heq. by apply sublist_inserts_l. }
  assert (storage_wf c) as Hwf'.
  { intros raw Hin. apply Hwf. rewrite Heq. unfold keys. rewrite fmap_app.
    apply elem_of_app. by right. }
  rewrite storage_items_sel by done.
  rewrite Heq. unfold storage_sel. rewrite omap_app.
  fold (storage_sel kr below). rewrite storage_sel_none; [done|].
  intros raw Hin.
  destruct (Hwf raw) as [(key & idn & Hcan & ->)|Hjunk]; [|left|by right].
  { rewrite Heq. unfold keys. rewrite fmap_app. apply elem_of_app. by left. }
  exists key, idn. split; [done|]. split; [done|].
  apply (contains_below_start kr s); [done|].
  destruct (bytes_Compare key s) eqn:E; [| done |].
  - apply bytes_Compare_eq in E as ->. exfalso.
    apply (bytes_lt_irrefl (Encode1 (VBytes s))).
    eapply bytes_le_lt_trans; [|by apply Hbelow].
    rewrite locator_key_app. apply bytes_le_app.
  - exfalso. apply bytes_Compare_Gt_Lt in E.
    apply (bytes_lt_irrefl (locator_key key idn)).
    eapply bytes_Compare_trans; [by apply Hbelow|].
    rewrite locator_key_app. rewrite <- (app_nil_r (Encode1 (VBytes s))).
    by apply Encode1_bytes_lt_app.
Qed.

End IndexStorageFacts.

(** ** What [Insert] writes *)

Section InsertFacts.
Context {OL : Ordered} {MU : MarshalUnmarshaler}.

Lemma orderedMa_Marshal_list (l : list value) (bs : bytes) :
  orderedMa_Marshal (VList l) = Ok bs ↔
  ordered_CanEncode l = true ∧ bs = ordered_Encode l.
Proof.
  unfold orderedMa_Marshal. destruct (ordered_CanEncode l); simpl.
  - split; [by intros [= <-]|by intros [_ ->]].
  - split; [done|by intros [? _]].
Qed.

(** The bytes of a row id. *)
Definition id_bytes (n : N) : bytes := ordered_Encode [VUint n].

Definition next_id (db : DB) : N := ((data_seq db + 1) mod 2 ^ 64)%N.

Lemma orderedMa_Marshal_uint (n : N) (bs : bytes) :
  orderedMa_Marshal (VUint n) = Ok bs → bs = id_bytes n.
Proof.
  unfold orderedMa_Marshal. destruct (negb (ordered_CanEncode [VUint n])); [done|].
  by intros [= <-].
Qed.

Lemma dataStorage_insert_Ok obj db db' idb :
  dataStorage_insert obj db = (db', Ok idb) →
  idb = id_bytes (next_id db) ∧
  ∃ dataBytes, maUn_Marshal obj = Ok dataBytes ∧
    db' = set_data (bucket_Put idb dataBytes) (set_seq (next_id db) db).
Proof.
  unfold dataStorage_insert, NextSequence. fold (next_id db).
  destruct (orderedMa_Marshal (VUint (next_id db))) as [bs|] eqn:Hm; [|done].
  apply orderedMa_Marshal_uint in Hm as ->.
  destruct (maUn_Marshal obj) as [dataBytes|]; [|done].
  intros [= <- <-]. split; [done|]. by exists dataBytes.
Qed.

Lemma dataStorage_insert_stores obj db :
  index_bks (dataStorage_insert obj db).1 = index_bks db ∧
  rev_bk (dataStorage_insert obj db).1 = rev_bk db.
Proof.
  unfold dataStorage_insert, NextSequence.
  destruct (orderedMa_Marshal _); [|done].
  by destruct (maUn_Marshal obj).
Qed.

Lemma dataStorage_insert_Err obj db db' e :
  dataStorage_insert obj db = (db', Err e) → data_bk db' = data_bk db.
Proof.
  unfold dataStorage_insert, NextSequence.
  destruct (orderedMa_Marshal _); [|by intros [= <- _]].
  destruct (maUn_Marshal obj); [done|by intros [= <- _]].
Qed.

(** The range of the probe of a unique index. *)
Lemma toRanges_Eq (name : string) (keyParts : list value) :
  toRanges [EqOp name (VList keyParts)] =
  if ordered_CanEncode keyParts
  then Ok {[ name := op_range OpEq (ordered_Encode keyParts) ]}
  else Err (ErrCannotMarshal (VList keyParts)).
Proof.
  unfold toRanges, toRanges_step, orderedMa_Marshal. simpl.
  destruct (ordered_CanEncode keyParts); simpl; [|done].
  rewrite lookup_empty. simpl. by rewrite insert_empty.
Qed.

(** The probe finds something exactly when the scan is not empty. *)
Lemma feed_probe {A} (l : list A) :
  (feed (fun (_ : A) (_ : bool) => (true, false)) l false).1
  = match l with [] => false | _ => true end.
Proof. by destruct l. Qed.

Lemma check_uniques_None us obj db :
  check_uniques us obj db = None →
  ∀ name cols, (name, cols) ∈ us →
    ordered_CanEncode (key_parts obj cols) = true ∧
    ∃ b, index_bks db !! name = Some b ∧
      index_scan_ids (length cols)
        (op_range OpEq (ordered_Encode (key_parts obj cols))) b = [].
Proof.
  induction us as [|[u keyFields] us IH]; simpl; intros Hc name cols Hin.
  { by apply elem_of_nil in Hin. }
  rewrite toRanges_Eq in Hc.
  destruct (ordered_CanEncode (key_parts obj keyFields)) eqn:Hcan; [|done].
  unfold IndexStore_get in Hc.
  destruct (index_bks db !! u) as [b|] eqn:Hb; [|done].
  rewrite IndexStore_get_loop_feed, feed_probe in Hc.
  unfold range_at in Hc. rewrite lookup_singleton_eq in Hc.
  change (index_ids (length keyFields) _ _)
    with (index_scan_ids (length keyFields)
            (op_range OpEq (ordered_Encode (key_parts obj keyFields))) b) in Hc.
  destruct (index_scan_ids _ _ b) eqn:Hids; [|done].
  apply elem_of_cons in Hin as [[= -> ->]|Hin]; [|by apply IH].
  split; [done|]. by exists b.
Qed.

Lemma check_uniques_found us obj db name cols b :
  (∀ u keyFields, (u, keyFields) ∈ us →
     ordered_CanEncode (key_parts obj keyFields) = true ∧
     is_Some (index_bks db !! u)) →
  (name, cols) ∈ us →
  index_bks db !! name = Some b →
  index_scan_ids (length cols)
    (op_range OpEq (ordered_Encode (key_parts obj cols))) b ≠ [] →
  ∃ u, u ∈ us.*1 ∧ check_uniques us obj db = Some (ErrUniqueConstraint u).
Proof.
  induction us as [|[u keyFields] us IH]; simpl; intros Hall Hin Hb Hne.
  { by apply elem_of_nil in Hin. }
  rewrite toRanges_Eq.
  destruct (Hall u keyFields) as [-> [b' Hb']]; [by left|].
  unfold IndexStore_get. rewrite Hb'.
  rewrite IndexStore_get_loop_feed, feed_probe.
  unfold range_at. rewrite lookup_singleton_eq.
  change (index_ids (length keyFields) _ _)
    with (index_scan_ids (length keyFields)
            (op_range OpEq (ordered_Encode (key_parts obj keyFields))) b').
  destruct (index_scan_ids _ _ b') eqn:Hids.
  - apply elem_of_cons in Hin as [[= -> ->]|Hin].
    { exfalso. apply Hne. rewrite Hb in Hb'. injection Hb' as ->. exact Hids. }
    destruct IH as (u' & Hu' & ->); [|done..|].
    { intros ???. apply Hall. by right. }
    exists u'. split; [by right|done].
  - exists u. split; [by left|done].
Qed.

(** The loops over the index declarations. *)
Definition row_index_key (obj : row) (idb : bytes) (cols : list string) : bytes :=
  index_key (key_parts obj cols) idb.

Lemma IndexStore_insert_Ok name keyParts idb db db' key :
  IndexStore_insert name keyParts idb db = (db', Ok key) →
  ordered_CanEncode keyParts = true ∧ key = index_key keyParts idb ∧
  ∃ b, index_bks db !! name = Some b ∧
    db' = set_indexes <[name := bucket_Put key () b]> db.
Proof.
  unfold IndexStore_insert. destruct (index_bks db !! name) as [b|]; [|done].
  destruct (orderedMa_Marshal _) as [ck|] eqn:Hm; [|done].
  apply orderedMa_Marshal_list in Hm as [Hc ->]. intros [= <- <-].
  rewrite ordered_CanEncode_app in Hc. apply andb_true_iff in Hc as [Hc _].
  split; [done|]. split; [done|]. by exists b.
Qed.

Lemma IndexStore_insert_Err name keyParts idb db db' e :
  IndexStore_insert name keyParts idb db = (db', Err e) → db' = db.
Proof.
  unfold IndexStore_insert. destruct (index_bks db !! name) as [b|]; [|by intros [= <-]].
  destruct (orderedMa_Marshal _); [done|by intros [= <-]].
Qed.

(** Any property of the index buckets that every single insertion
    keeps holds after the loop, however it ends. *)
Lemma insert_indexes_ind (P : gmap string (bucket unit) → Prop) ms obj idb rev db :
  (∀ name cols m b, (name, cols) ∈ ms → P m → m !! name = Some b →
     ordered_CanEncode (key_parts obj cols) = true →
     P (<[name := bucket_Put (row_index_key obj idb cols) () b]> m)) →
  P (index_bks db) →
  let r := insert_indexes ms obj idb rev db in
  P (index_bks r.1) ∧ data_bk r.1 = data_bk db ∧ data_seq r.1 = data_seq db ∧
  rev_bk r.1 = rev_bk db.
Proof.
  revert rev db. induction ms as [|[name cols] ms IH]; simpl; intros rev db Hstep HP.
  { done. }
  destruct (IndexStore_insert name (key_parts obj cols) idb db) as [db' [key|e]] eqn:Hi.
  - apply IndexStore_insert_Ok in Hi as (Hcan & -> & b & Hb & ->).
    destruct (IH (<[name:=index_key (key_parts obj cols) idb]> rev)
                 (set_indexes <[name:=bucket_Put (index_key (key_parts obj cols) idb) () b]> db))
      as (H1 & H2 & H3 & H4).
    + intros ???????. apply Hstep; [by right|done..].
    + simpl. apply Hstep; [by left|done..].
    + done.
  - apply IndexStore_insert_Err in Hi as ->. done.
Qed.

End InsertFacts.

(** ** The invariant of the index buckets *)

Section IndexInvariant.
Context {OL : Ordered} {MU : MarshalUnmarshaler}.

(** The leading part of a stored key: the encoding of the components
    before the row id. *)
Definition entry_lead (k : nat) (key : bytes) : option bytes :=
  fst <$> index_entry k key.

(** No two stored keys share a leading part. *)
Definition index_uniq (k : nat) (b : bucket unit) : Prop :=
  ∀ key1 key2 lead, key1 ∈ keys b → key2 ∈ keys b →
    entry_lead k key1 = Some lead → entry_lead k key2 = Some lead → key1 = key2.

(** A name declared both as an index and as a unique index has the
    same key columns in both declarations. *)
Definition schema_ok (pr : Persistent) : Prop :=
  ∀ name cols cols', indexesMeta pr !! name = Some cols →
    uniquesMeta pr !! name = Some cols' → cols = cols'.

Definition index_inv (pr : Persistent) (m : gmap string (bucket unit)) : Prop :=
  ∀ name b, m !! name = Some b →
    bucket_sorted b ∧ index_wf (index_arity pr name) b ∧
    (is_Some (uniquesMeta pr !! name) → index_uniq (index_arity pr name) b).

Lemma index_arity_indexes pr name cols :
  indexesMeta pr !! name = Some cols → index_arity pr name = length cols.
Proof. unfold index_arity. by intros ->. Qed.

Lemma index_arity_uniques pr name cols :
  schema_ok pr → uniquesMeta pr !! name = Some cols →
  index_arity pr name = length cols.
Proof.
  unfold index_arity. intros Hok Hu.
  destruct (indexesMeta pr !! name) as [cols'|] eqn:Hi.
  - by rewrite (Hok name cols' cols).
  - by rewrite Hu.
Qed.

Lemma entry_lead_key k keyParts idb :
  length keyParts = k → ordered_CanEncode keyParts = true →
  entry_lead k (index_key keyParts idb) = Some (ordered_Encode keyParts).
Proof. intros. unfold entry_lead. by rewrite index_entry_key. Qed.

Lemma length_key_parts obj cols : length (key_parts obj cols) = length cols.
Proof. unfold key_parts. apply length_map. Qed.

(** An empty probe: no stored key has the probed leading part. *)
Lemma index_sel_nil k kr (b : bucket unit) key lead idb :
  index_sel k kr b = [] → key ∈ keys b →
  index_entry k key = Some (lead, idb) → contains kr lead = false.
Proof.
  unfold index_sel, keys.
  induction b as [|[key' u] b IH]; simpl; intros Hsel Hin He.
  { by apply elem_of_nil in Hin. }
  apply elem_of_cons in Hin as [->|Hin].
  - rewrite He in Hsel. simpl in Hsel. by destruct (contains kr lead).
  - apply IH; [|done..].
    by destruct (index_entry k key' ≫= _).
Qed.

Lemma index_sel_point_nil k v (b : bucket unit) key :
  index_sel k (op_range OpEq v) b = [] → key ∈ keys b → entry_lead k key ≠ Some v.
Proof.
  intros Hsel Hin. unfold entry_lead.
  destruct (index_entry k key) as [[lead idb]|] eqn:He; [|done].
  simpl. intros [= ->].
  pose proof (index_sel_nil _ _ _ _ _ _ Hsel Hin He) as Hc.
  assert (contains (op_range OpEq v) v = true) by (by apply contains_point).
  congruence.
Qed.

Lemma index_inv_sublist pr (m m' : gmap string (bucket unit)) :
  (∀ name b', m' !! name = Some b' →
     ∃ b, m !! name = Some b ∧ b' `sublist_of` b) →
  index_inv pr m → index_inv pr m'.
Proof.
  intros Hsub Hinv name b' Hb'.
  destruct (Hsub name b' Hb') as (b & Hb & Hbb).
  destruct (Hinv name b Hb) as (Hs & Hwf & Hu).
  assert (∀ key, key ∈ keys b' → key ∈ keys b) as Hkeys.
  { intros key Hin. unfold keys in *. eapply elem_of_sublist; [done|].
    by apply fmap_sublist. }
  split; [by eapply sorted_sublist|]. split.
  - intros key Hin. by apply Hwf, Hkeys.
  - intros Hun key1 key2 lead H1 H2. apply (Hu Hun); by apply Hkeys.
Qed.

(** *** [Insert] keeps it *)

(** While the index entries of a row are being written: the buckets
    are well formed, and in a unique index the only stored key with
    the row's leading part, if there is one, is the row's own. *)
Definition insert_inv (pr : Persistent) (obj : row) (idb : bytes)
    (m : gmap string (bucket unit)) : Prop :=
  index_inv pr m ∧
  ∀ name cols b key, uniquesMeta pr !! name = Some cols → m !! name = Some b →
    key ∈ keys b →
    entry_lead (length cols) key = Some (ordered_Encode (key_parts obj cols)) →
    key = row_index_key obj idb cols.

Lemma insert_inv_step pr obj idb name cols m b :
  schema_ok pr →
  indexesMeta pr !! name = Some cols ∨ uniquesMeta pr !! name = Some cols →
  insert_inv pr obj idb m → m !! name = Some b →
  ordered_CanEncode (key_parts obj cols) = true →
  insert_inv pr obj idb (<[name := bucket_Put (row_index_key obj idb cols) () b]> m).
Proof.
  intros Hok Hdecl [Hinv Hfresh] Hb Hcan.
  assert (index_arity pr name = length cols) as Har.
  { destruct Hdecl; [by apply index_arity_indexes|by apply index_arity_uniques]. }
  assert (∀ cols', uniquesMeta pr !! name = Some cols' → cols' = cols) as Hcols.
  { intros cols' Hu. destruct Hdecl as [Hi|Hu']; [|congruence].
    symmetry. by apply (Hok name cols cols'). }
  destruct (Hinv name b Hb) as (Hs & Hwf & Hun).
  split.
  - intros name' b' Hb'. destruct (decide (name' = name)) as [->|Hne].
    2:{ rewrite lookup_insert_ne in Hb' by done. by apply Hinv. }
    rewrite lookup_insert_eq in Hb'. injection Hb' as <-.
    split; [by apply sorted_Put|]. split.
    + intros key [->|Hin]%keys_Put; [|by apply Hwf].
      exists (key_parts obj cols), idb. rewrite length_key_parts. done.
    + intros [cols' Hu]. pose proof (Hcols cols' Hu) as ->.
      assert (∀ key lead, key ∈ keys b → 
                entry_lead (index_arity pr name) key = Some lead →
                entry_lead (index_arity pr name) (row_index_key obj idb cols) = Some lead →
                key = row_index_key obj idb cols) as Hnew.
      { intros key lead Hin Hl Hl'. apply (Hfresh name cols b); [done..|].
        rewrite Har in Hl, Hl'. unfold row_index_key in Hl'.
        rewrite entry_lead_key in Hl' by (by rewrite ?length_key_parts).
        congruence. }
      intros key1 key2 lead [->|H1]%keys_Put [->|H2]%keys_Put Hl1 Hl2.
      * done.
      * symmetry. by eapply Hnew.
      * by eapply Hnew.
      * by apply (Hun (ex_intro _ cols Hu) key1 key2 lead).
  - intros name' cols' b' key Hu Hb' Hin Hl.
    destruct (decide (name' = name)) as [->|Hne].
    2:{ rewrite lookup_insert_ne in Hb' by done. by apply (Hfresh name' cols' b'). }
    rewrite lookup_insert_eq in Hb'. injection Hb' as <-.
    pose proof (Hcols cols' Hu) as ->.
    apply keys_Put in Hin as [->|Hin]; [done|]. by apply (Hfresh name cols b).
Qed.

Lemma index_inv_Insert pr obj db :
  schema_ok pr → index_inv pr (index_bks db) →
  index_inv pr (index_bks (Insert pr obj db).1).
Proof.
  intros Hok Hinv. unfold Insert.
  destruct (negb _); [done|].
  destruct (missing_field obj (columns pr)); [done|].
  pose proof (dataStorage_insert_stores obj db) as [Hix _].
  destruct (dataStorage_insert obj db) as [db1 [idb|e]] eqn:Hd; simpl in Hix;
    [|simpl; by rewrite Hix].
  destruct (check_uniques _ obj db1) as [e|] eqn:Hc; [simpl; by rewrite Hix|].
  pose proof (check_uniques_None _ _ _ Hc) as Hprobe.
  assert (insert_inv pr obj idb (index_bks db1)) as H0.
  { rewrite Hix. split; [done|].
    intros name cols b key Hu Hb Hin Hl. exfalso.
    destruct (Hprobe name cols) as (Hcan & b' & Hb' & Hids).
    { by apply elem_of_map_to_list. }
    rewrite Hix, Hb in Hb'. injection Hb' as <-.
    destruct (Hinv name b Hb) as (Hs & Hwf & _).
    rewrite (index_arity_uniques pr name cols) in Hwf by done.
    rewrite index_scan_ids_sel in Hids by done.
    by eapply index_sel_point_nil. }
  pose proof (insert_indexes_ind (insert_inv pr obj idb)
                (map_to_list (indexesMeta pr)) obj idb ∅ db1) as H1.
  simpl in H1. destruct H1 as (H1 & _).
  { intros name cols m b Hin HP Hb Hcan. apply insert_inv_step; try done.
    left. by apply elem_of_map_to_list. }
  { done. }
  destruct (insert_indexes (map_to_list (indexesMeta pr)) obj idb ∅ db1)
    as [db2 [rev1|e]]; [|by destruct H1].
  pose proof (insert_indexes_ind (insert_inv pr obj idb)
                (map_to_list (uniquesMeta pr)) obj idb rev1 db2) as H2.
  simpl in H2. destruct H2 as (H2 & _).
  { intros name cols m b Hin HP Hb Hcan. apply insert_inv_step; try done.
    right. by apply elem_of_map_to_list. }
  { done. }
  destruct (insert_indexes (map_to_list (uniquesMeta pr)) obj idb rev1 db2)
    as [db3 [rev2|e]]; by destruct H2.
Qed.

End IndexInvariant.

(** ** What a scan leaves unchanged, and what [Delete] removes *)

Section DeleteFacts.
Context {OL : Ordered} {MU : MarshalUnmarshaler}.

Lemma feed_preserves {A W} (P : W → Prop) (g : A → W → W * bool) l w :
  (∀ a w, P w → P (g a w).1) → P w → P (feed g l w).1.
Proof.
  intros Hg. revert w. induction l as [|a l IH]; intros w Hw; simpl; [done|].
  pose proof (Hg a w Hw) as Ha. destruct (g a w) as [w' more].
  destruct more; simpl; [by apply IH|done].
Qed.

(** A scan of [iter] changes the world only through the consumer. *)
Lemma iter_preserves {W} distance (getdb : W → DB) pr ops db it (P : W → Prop)
    (g : result entry → W → W * bool) w :
  iter distance getdb pr ops db = Ok it →
  (∀ item w, P w → P (g item w).1) → P w → P (it g w).1.
Proof.
  unfold iter. intros Hit Hg Hw.
  destruct (toRanges ops) as [ranges|]; [simpl in Hit|done].
  destruct (selected_indexes pr ranges) as [|idx0 idxs].
  - injection Hit as <-. rewrite full_scan_feed. by apply feed_preserves.
  - unfold IndexStore_get in Hit. destruct (index_bks db !! _); [|done].
    simpl in Hit. injection Hit as <-. unfold index_scan.
    rewrite IndexStore_get_loop_feed. apply feed_preserves; [|done].
    intros idb w' Hw'. rewrite index_scan_step. by apply feed_preserves.
Qed.

Lemma IndexStore_delete_buckets name keyParts key db :
  let r := IndexStore_delete name keyParts key db in
  data_bk r.1 = data_bk db ∧ data_seq r.1 = data_seq db ∧ rev_bk r.1 = rev_bk db ∧
  ∀ name' b', index_bks r.1 !! name' = Some b' →
    ∃ b, index_bks db !! name' = Some b ∧ b' `sublist_of` b.
Proof.
  unfold IndexStore_delete. destruct (index_bks db !! name) as [b|] eqn:Hb; simpl.
  - repeat split; try done. intros name' b' Hb'.
    destruct (decide (name' = name)) as [->|Hne].
    + rewrite lookup_insert_eq in Hb'. injection Hb' as <-.
      exists b. split; [done|]. apply Delete_sublist.
    + rewrite lookup_insert_ne in Hb' by done. by exists b'.
  - repeat split; try done. intros name' b' Hb'. by exists b'.
Qed.

Lemma delete_indexes_buckets pr rs e db :
  let r := delete_indexes pr rs e db in
  data_bk r.1 = data_bk db ∧ data_seq r.1 = data_seq db ∧ rev_bk r.1 = rev_bk db ∧
  ∀ name' b', index_bks r.1 !! name' = Some b' →
    ∃ b, index_bks db !! name' = Some b ∧ b' `sublist_of` b.
Proof.
  revert db. induction rs as [|[idxName key] rs IH]; intros db; simpl.
  { repeat split; try done. intros name' b' Hb'. by exists b'. }
  destruct (indexesMeta pr !! idxName) as [keyFields|]; simpl.
  2:{ repeat split; try done. intros name' b' Hb'. by exists b'. }
  pose proof (IndexStore_delete_buckets idxName
                (key_parts (value_of e) keyFields) key db) as H.
  simpl in H. destruct H as (H1 & H2 & H3 & H4).
  destruct (IndexStore_delete idxName _ key db) as [db' [err|]]; simpl in *.
  { done. }
  destruct (IH db') as (I1 & I2 & I3 & I4).
  repeat split; try congruence.
  intros name' b'' Hb''. destruct (I4 name' b'' Hb'') as (b' & Hb' & Hsub').
  destruct (H4 name' b' Hb') as (b & Hb & Hsub).
  exists b. split; [done|]. by etrans.
Qed.

Lemma Delete_body_buckets pr item (w : DB * option error) :
  ∀ name' b', index_bks (Delete_body pr item w).1.1 !! name' = Some b' →
    ∃ b, index_bks w.1 !! name' = Some b ∧ b' `sublist_of` b.
Proof.
  unfold Delete_body. intros name' b'.
  destruct item as [e|err]; simpl; [|by exists b'].
  destruct (ReverseIndexStore_get (id e) w.1) as [revIdx|err]; simpl; [|by exists b'].
  pose proof (delete_indexes_buckets pr (map_to_list revIdx) e w.1) as H.
  simpl in H. destruct H as (_ & _ & _ & H).
  destruct (delete_indexes pr (map_to_list revIdx) e w.1) as [db' [err|]]; simpl in *;
    apply H.
Qed.

Lemma index_inv_Delete distance pr ops db :
  index_inv pr (index_bks db) →
  index_inv pr (index_bks (Delete distance pr ops db).1).
Proof.
  intros Hinv. unfold Delete.
  destruct (iter distance fst pr ops db) as [it|] eqn:Hit; [|done]. simpl.
  apply (iter_preserves distance fst pr ops db it
           (fun w => index_inv pr (index_bks w.1)) (Delete_body pr) (db, None));
    [done| |done].
  intros item w Hw. eapply index_inv_sublist; [|exact Hw].
  apply Delete_body_buckets.
Qed.

(** *** The states a relation goes through *)

(** From a fresh relation, by [Insert] and [Delete], whether they
    return an error or not: no write is undone. *)
Inductive reachable (distance : keyRange → bytes) (pr : Persistent) : DB → Prop :=
| reachable_new idxNames : reachable distance pr (new_DB idxNames)
| reachable_Insert db obj :
    reachable distance pr db → reachable distance pr (Insert pr obj db).1
| reachable_Delete db ops :
    reachable distance pr db → reachable distance pr (Delete distance pr ops db).1.

Lemma index_inv_new pr idxNames : index_inv pr (index_bks (new_DB idxNames)).
Proof.
  intros name b Hb. simpl in Hb.
  apply elem_of_list_to_map_2 in Hb.
  apply list_elem_of_fmap in Hb as (name' & [= -> ->] & _).
  split; [constructor|]. split.
  - intros key Hin. by apply elem_of_nil in Hin.
  - intros _ key1 key2 lead Hin. by apply elem_of_nil in Hin.
Qed.

Lemma index_inv_reachable distance pr db :
  schema_ok pr → reachable distance pr db → index_inv pr (index_bks db).
Proof.
  intros Hok Hr. induction Hr.
  - apply index_inv_new.
  - by apply index_inv_Insert.
  - by apply index_inv_Delete.
Qed.

Lemma index_uniq_count k (b : bucket unit) lead :
  bucket_sorted b → index_uniq k b →
  length (filter (fun kv => entry_lead k kv.1 = Some lead) b) ≤ 1.
Proof.
  induction b as [|[key u] b IH]; intros Hs Hu; [simpl; lia|].
  apply bucket_sorted_cons in Hs as [Hb Hk].
  assert (index_uniq k b) as Hu'.
  { intros key1 key2 l H1 H2. apply Hu; by right. }
  rewrite filter_cons. simpl. case_decide as Hl; [|by apply IH].
  destruct (filter (fun kv => entry_lead k kv.1 = Some lead) b)
    as [|[key' u'] rest] eqn:Hf; [done|].
  exfalso.
  assert ((key', u') ∈ filter (fun kv => entry_lead k kv.1 = Some lead) b) as Hin
    by (rewrite Hf; by left).
  apply list_elem_of_filter in Hin as [Hl' Hin]. simpl in Hl'.
  assert (key' ∈ keys b) as Hin'.
  { apply list_elem_of_fmap. by exists (key', u'). }
  assert (key = key') as ->.
  { apply (Hu key key' lead); [by left|by right|done..]. }
  by eapply bytes_lt_irrefl, Hk.
Qed.

End DeleteFacts.
(** ** After a successful [Insert] *)

Section AfterInsert.
Context {OL : Ordered} {MU : MarshalUnmarshaler}.

Lemma missing_field_None obj cols :
  missing_field obj cols = None ↔ ∀ col, col ∈ cols → is_Some (obj !! col).
Proof.
  induction cols as [|c cols IH]; simpl.
  - split; [intros _ col Hin; by apply elem_of_nil in Hin|done].
  - destruct (obj !! c) eqn:Hc.
    + rewrite IH. split.
      * intros H col [->|Hin]%elem_of_cons; [by rewrite Hc|by apply H].
      * intros H col Hin. apply H. by right.
    + split; [done|]. intros H. destruct (H c) as [v Hv]; [by left|congruence].
Qed.

Lemma next_id_lt db : (next_id db < 2 ^ 64)%N.
Proof. unfold next_id. apply N.mod_lt. done. Qed.

Lemma dataStorage_insert_marshal obj db dataBytes :
  maUn_Marshal obj = Ok dataBytes →
  dataStorage_insert obj db =
  (set_data (bucket_Put (id_bytes (next_id db)) dataBytes) (set_seq (next_id db) db),
   Ok (id_bytes (next_id db))).
Proof.
  intros Hm. unfold dataStorage_insert, NextSequence. fold (next_id db).
  unfold orderedMa_Marshal, ordered_CanEncode. simpl.
  rewrite CanEncode1_uint by apply next_id_lt. simpl. by rewrite Hm.
Qed.

(** A key once in a bucket stays through the loop of insertions. *)
Lemma insert_indexes_keeps ms obj idb rev db name b key :
  index_bks db !! name = Some b → key ∈ keys b →
  ∃ b', index_bks (insert_indexes ms obj idb rev db).1 !! name = Some b' ∧
    key ∈ keys b'.
Proof.
  intros Hb Hin.
  pose proof (insert_indexes_ind
                (fun m => ∃ b', m !! name = Some b' ∧ key ∈ keys b')
                ms obj idb rev db) as H.
  simpl in H. destruct H as [H _]; [|by exists b|done].
  intros name' cols m b0 _ (b' & Hb' & Hin') Hb0 _.
  destruct (decide (name = name')) as [->|Hne].
  - rewrite lookup_insert_eq. eexists. split; [done|].
    apply keys_Put. right. congruence.
  - rewrite lookup_insert_ne by done. by exists b'.
Qed.

Lemma insert_indexes_Ok ms obj idb rev db db' rev' :
  insert_indexes ms obj idb rev db = (db', Ok rev') →
  ∀ name cols, (name, cols) ∈ ms →
    ordered_CanEncode (key_parts obj cols) = true ∧
    ∃ b, index_bks db' !! name = Some b ∧ row_index_key obj idb cols ∈ keys b.
Proof.
  revert rev db. induction ms as [|[name0 cols0] ms IH]; simpl; intros rev db Hi name cols Hin.
  { by apply elem_of_nil in Hin. }
  destruct (IndexStore_insert name0 (key_parts obj cols0) idb db)
    as [db1 [key|e]] eqn:Hs; [|done].
  apply IndexStore_insert_Ok in Hs as (Hcan & -> & b & Hb & ->).
  apply elem_of_cons in Hin as [[= -> ->]|Hin]; [|by eapply IH].
  split; [done|].
  pose proof (insert_indexes_keeps ms obj idb
                (<[name0:=index_key (key_parts obj cols0) idb]> rev)
                (set_indexes <[name0:=bucket_Put (index_key (key_parts obj cols0) idb) () b]> db)
                name0 (bucket_Put (index_key (key_parts obj cols0) idb) () b)
                (index_key (key_parts obj cols0) idb)) as (b' & Hb' & Hin').
  { simpl. by rewrite lookup_insert_eq. }
  { apply keys_Put. by left. }
  rewrite Hi in Hb'. by exists b'.
Qed.

(** What a successful [Insert] has done, step by step. *)
Lemma Insert_None pr obj db db' :
  Insert pr obj db = (db', None) →
  size obj = length (columns pr) ∧
  (∀ col, col ∈ columns pr → is_Some (obj !! col)) ∧
  ∃ dataBytes dbA dbB dbC rev1 rev2,
    let idb := id_bytes (next_id db) in
    maUn_Marshal obj = Ok dataBytes ∧
    dbA = set_data (bucket_Put idb dataBytes) (set_seq (next_id db) db) ∧
    check_uniques (map_to_list (uniquesMeta pr)) obj dbA = None ∧
    insert_indexes (map_to_list (indexesMeta pr)) obj idb ∅ dbA = (dbB, Ok rev1) ∧
    insert_indexes (map_to_list (uniquesMeta pr)) obj idb rev1 dbB = (dbC, Ok rev2) ∧
    db' = ReverseIndexStore_insert idb rev2 dbC.
Proof.
  unfold Insert.
  destruct (Nat.eqb_spec (size obj) (length (columns pr))) as [Hsize|]; [|done]. simpl.
  destruct (missing_field obj (columns pr)) eqn:Hmiss; [done|].
  pose proof (proj1 (missing_field_None _ _) Hmiss) as Hpresent.
  destruct (dataStorage_insert obj db) as [dbA [idb|e]] eqn:Hd; [|done].
  apply dataStorage_insert_Ok in Hd as (-> & dataBytes & Hm & ->).
  destruct (check_uniques _ obj _) eqn:Hc; [done|].
  destruct (insert_indexes (map_to_list (indexesMeta pr)) _ _ _ _)
    as [dbB [rev1|e]] eqn:H1; [|done].
  destruct (insert_indexes (map_to_list (uniquesMeta pr)) _ _ _ _)
    as [dbC [rev2|e]] eqn:H2; [|done].
  intros [= <-]. split; [done|]. split; [done|].
  by eexists dataBytes, _, dbB, dbC, rev1, rev2.
Qed.

Lemma index_sel_elem k kr (b : bucket unit) key lead idb :
  key ∈ keys b → index_entry k key = Some (lead, idb) → contains kr lead = true →
  idb ∈ index_sel k kr b.
Proof.
  unfold index_sel, keys. intros (kv & -> & Hin)%list_elem_of_fmap He Hc.
  apply list_elem_of_omap. exists kv. split; [done|].
  rewrite He. simpl. by rewrite Hc.
Qed.

End AfterInsert.


(** ** Inserting a row and deleting it again *)

Section RoundTrip.
Context {OL : Ordered} {MU : MarshalUnmarshaler}.

Lemma Put_Put {V} k (v : V) (b : bucket V) :
  bucket_Put k v (bucket_Put k v b) = bucket_Put k v b.
Proof.
  induction b as [|[k0 v0] b IH]; simpl.
  - by rewrite bytes_Compare_refl.
  - destruct (bytes_Compare k k0) eqn:E; simpl.
    + by rewrite bytes_Compare_refl.
    + by rewrite bytes_Compare_refl.
    + by rewrite E, IH.
Qed.

Lemma Get_Put_ne {V} j k (v : V) (b : bucket V) :
  j ≠ k → bucket_Get j (bucket_Put k v b) = bucket_Get j b.
Proof.
  intros Hne. induction b as [|[k0 v0] b IH]; simpl.
  - destruct (bytes_Compare j k) eqn:E; [by apply bytes_Compare_eq in E|done..].
  - destruct (bytes_Compare k k0) eqn:E; simpl.
    + apply bytes_Compare_eq in E as <-.
      destruct (bytes_Compare j k) eqn:E'; [by apply bytes_Compare_eq in E'|done..].
    + destruct (bytes_Compare j k) eqn:E'; [by apply bytes_Compare_eq in E'|done..].
    + by rewrite IH.
Qed.

(** The loops over the index declarations, when they succeed. *)
Lemma insert_indexes_lookup ms obj idb rev db db' rev' :
  NoDup ms.*1 →
  insert_indexes ms obj idb rev db = (db', Ok rev') →
  ∀ name,
    index_bks db' !! name =
      match (list_to_map ms : gmap string (list string)) !! name with
      | Some cols => bucket_Put (row_index_key obj idb cols) () <$> index_bks db !! name
      | None => index_bks db !! name
      end ∧
    rev' !! name =
      match (list_to_map ms : gmap string (list string)) !! name with
      | Some cols => Some (row_index_key obj idb cols)
      | None => rev !! name
      end.
Proof.
  revert rev db. induction ms as [|[name0 cols0] ms IH]; simpl; intros rev db Hnd Hi name.
  { injection Hi as <- <-. by rewrite lookup_empty. }
  apply NoDup_cons in Hnd as [Hnin Hnd].
  destruct (IndexStore_insert name0 (key_parts obj cols0) idb db)
    as [db1 [key|e]] eqn:Hs; [|done].
  apply IndexStore_insert_Ok in Hs as (Hcan & -> & b & Hb & ->).
  destruct (IH _ _ Hnd Hi name) as [H1 H2]. rewrite H1, H2. simpl.
  destruct (decide (name = name0)) as [->|Hne].
  - rewrite lookup_insert_eq.
    assert ((list_to_map ms : gmap string (list string)) !! name0 = None) as ->.
    { by apply not_elem_of_list_to_map_1. }
    rewrite !lookup_insert_eq, Hb. done.
  - rewrite !lookup_insert_ne by done. done.
Qed.

Lemma IndexStore_delete_Some name keyParts key db b :
  index_bks db !! name = Some b →
  IndexStore_delete name keyParts key db
  = (set_indexes <[name := bucket_Delete key b]> db, None).
Proof. unfold IndexStore_delete. by intros ->. Qed.

Lemma delete_indexes_lookup pr rs e db :
  NoDup rs.*1 →
  (∀ name key, (name, key) ∈ rs →
     is_Some (indexesMeta pr !! name) ∧ is_Some (index_bks db !! name)) →
  ∃ db', delete_indexes pr rs e db = (db', None) ∧
    data_bk db' = data_bk db ∧ data_seq db' = data_seq db ∧ rev_bk db' = rev_bk db ∧
    ∀ name,
      index_bks db' !! name =
        match (list_to_map rs : gmap string bytes) !! name with
        | Some key => bucket_Delete key <$> index_bks db !! name
        | None => index_bks db !! name
        end.
Proof.
  revert db. induction rs as [|[name0 key0] rs IH]; simpl; intros db Hnd Hall.
  { exists db. repeat split; try done. }
  apply NoDup_cons in Hnd as [Hnin Hnd].
  destruct (Hall name0 key0) as [[cols0 ->] [b Hb]]; [by left|].
  rewrite (IndexStore_delete_Some _ _ _ _ b) by done.
  destruct (IH (set_indexes <[name0 := bucket_Delete key0 b]> db) Hnd)
    as (db' & -> & H1 & H2 & H3 & H4).
  { intros name key Hin. destruct (Hall name key) as [Hm [b' Hb']]; [by right|].
    split; [done|]. simpl.
    destruct (decide (name = name0)) as [->|Hne].
    - rewrite lookup_insert_eq. by eexists.
    - rewrite lookup_insert_ne by done. by eexists. }
  exists db'. split; [done|]. repeat split; try done.
  intros name. rewrite H4. simpl.
  destruct (decide (name = name0)) as [->|Hne].
  - rewrite lookup_insert_eq.
    assert ((list_to_map rs : gmap string bytes) !! name0 = None) as ->.
    { by apply not_elem_of_list_to_map_1. }
    rewrite !lookup_insert_eq, Hb. done.
  - rewrite !lookup_insert_ne by done. done.
Qed.

(** The row id is not in use: no store has an entry for it. *)
Definition id_fresh (pr : Persistent) (db : DB) (idb : bytes) : Prop :=
  (idb ∉ keys (data_bk db)) ∧ (idb ∉ keys (rev_bk db)) ∧
  ∀ name b key lead, index_bks db !! name = Some b → key ∈ keys b →
    index_entry (index_arity pr name) key ≠ Some (lead, idb).

(** The stores after a successful [Insert], when every unique index
    is also declared in [indexesMeta] with the same columns. *)
Lemma Insert_None_stores pr obj db db' :
  uniquesMeta pr ⊆ indexesMeta pr →
  Insert pr obj db = (db', None) →
  let idb := id_bytes (next_id db) in
  ∃ dataBytes,
    maUn_Marshal obj = Ok dataBytes ∧
    data_bk db' = bucket_Put idb dataBytes (data_bk db) ∧
    rev_bk db' = bucket_Put idb (row_index_key obj idb <$> indexesMeta pr) (rev_bk db) ∧
    ∀ name,
      match indexesMeta pr !! name with
      | Some cols =>
          ordered_CanEncode (key_parts obj cols) = true ∧
          ∃ b, index_bks db !! name = Some b ∧
            index_bks db' !! name = Some (bucket_Put (row_index_key obj idb cols) () b)
      | None => index_bks db' !! name = index_bks db !! name
      end.
Proof.
  intros Hsub Hins.
  apply Insert_None in Hins
    as (_ & _ & dataBytes & dbA & dbB & dbC & rev1 & rev2 & Hm & -> & Hc & H1 & H2 & ->).
  simpl. exists dataBytes. split; [done|].
  set (dbA := set_data _ _) in *.
  pose proof (insert_indexes_ind (fun _ => True) (map_to_list (indexesMeta pr)) obj
                (id_bytes (next_id db)) ∅ dbA) as HA.
  simpl in HA. rewrite H1 in HA. destruct HA as (_ & HA1 & _ & HA3); [done..|].
  pose proof (insert_indexes_ind (fun _ => True) (map_to_list (uniquesMeta pr)) obj
                (id_bytes (next_id db)) rev1 dbB) as HB.
  simpl in HB. rewrite H2 in HB. destruct HB as (_ & HB1 & _ & HB3); [done..|].
  simpl in *.
  pose proof (insert_indexes_lookup _ _ _ _ _ _ _
                (NoDup_fst_map_to_list (indexesMeta pr)) H1) as L1.
  pose proof (insert_indexes_lookup _ _ _ _ _ _ _
                (NoDup_fst_map_to_list (uniquesMeta pr)) H2) as L2.
  rewrite !list_to_map_to_list in *.
  split; [congruence|]. split.
  - rewrite HB3, HA3. f_equal. apply map_eq. intros name.
    destruct (L1 name) as [_ R1]. destruct (L2 name) as [_ R2].
    rewrite R2, lookup_fmap.
    destruct (uniquesMeta pr !! name) as [cols|] eqn:Hu.
    + rewrite (lookup_weaken _ _ _ _ Hu Hsub). done.
    + rewrite R1. destruct (indexesMeta pr !! name); [done|]. by rewrite lookup_empty.
  - intros name. destruct (L1 name) as [R1 _]. destruct (L2 name) as [R2 _].
    simpl in R1. rewrite R2, R1.
    destruct (indexesMeta pr !! name) as [cols|] eqn:Hi.
    + destruct (insert_indexes_Ok _ _ _ _ _ _ _ H1 name cols) as (Hcan & bB & HbB & _).
      { by apply elem_of_map_to_list. }
      split; [done|]. rewrite R1 in HbB. simpl in HbB.
      destruct (index_bks db !! name) as [b|]; [|done]. exists b. split; [done|].
      destruct (uniquesMeta pr !! name) as [cols'|] eqn:Hu; [|done].
      pose proof (lookup_weaken _ _ _ _ Hu Hsub) as Hi'.
      assert (cols' = cols) as -> by congruence.
      simpl. by rewrite Put_Put.
    + destruct (uniquesMeta pr !! name) as [cols'|] eqn:Hu; [|done].
      pose proof (lookup_weaken _ _ _ _ Hu Hsub). congruence.
Qed.



Lemma feed_empty_steps {A B W} (F : W → A → list B) (g : B → W → W * bool) l w :
  Forall (fun j => F w j = []) l →
  feed (fun j w' => feed g (F w' j) w') l w = (w, true).
Proof.
  induction l as [|a l IH]; simpl; intros Hl; [done|].
  apply Forall_cons in Hl as [Ha Hl]. rewrite Ha. simpl. by apply IH.
Qed.

End RoundTrip.

(** ** The residual filter *)

Section Residual.
Context {OL : Ordered} {MU : MarshalUnmarshaler}.

(** The key columns declared for an index name. *)
Definition index_cols (pr : Persistent) (name : string) : list string :=
  match indexesMeta pr !! name with
  | Some cols => cols
  | None => default [] (uniquesMeta pr !! name)
  end.

(** Residual evaluation in the words of the spec (section 4.6): "For
    each remaining range named F, obtain value[F] if present;
    otherwise, if F names a composite index, rebuild the tuple from its
    declared key columns; otherwise fail with FieldNotFoundInColumns.
    Encode the value and test against the range." *)
Definition spec_composite (pr : Persistent) (val : row) (F : string) : option value :=
  match indexesMeta pr !! F, uniquesMeta pr !! F with
  | None, None => None
  | _, _ => VList <$> mapM (fun col => val !! col) (index_cols pr F)
  end.

Definition spec_field_value (pr : Persistent) (val : row) (F : string) : option value :=
  match val !! F with
  | Some v => Some v
  | None => spec_composite pr val F
  end.

Definition spec_field_matches (pr : Persistent) (val : row) (F : string)
    (R : keyRange) : bool :=
  match spec_field_value pr val F with
  | None => false
  | Some v =>
      match orderedMa_Marshal v with
      | Err _ => false
      | Ok vBytes => contains R vBytes
      end
  end.

(** A row passes when it passes every range. *)
Definition spec_matches (pr : Persistent) (val : row)
    (ranges : gmap string keyRange) : bool :=
  forallb (fun FR => spec_field_matches pr val FR.1 FR.2) (map_to_list ranges).

(** The rows of "a full scan + residual filter". *)
Definition spec_full_scan (pr : Persistent) (ranges : gmap string keyRange)
    (db : DB) : list row :=
  omap (fun kv =>
    match maUn_Unmarshal kv.2 with
    | Ok val => if spec_matches pr val ranges then Some val else None
    | Err _ => None
    end) (data_bk db).

Lemma rebuild_parts_Ok val cols parts :
  rebuild_parts val cols = Ok parts ↔ mapM (fun col => val !! col) cols = Some parts.
Proof.
  revert parts. induction cols as [|col cols IH]; intros parts; simpl.
  - split; by intros [= <-].
  - destruct (val !! col) as [part|]; simpl; [|done].
    destruct (rebuild_parts val cols) as [ps|] eqn:Hr; simpl.
    + pose proof (proj1 (IH ps) eq_refl) as ->. simpl.
      split; by intros [= <-].
    + destruct (mapM _ cols) as [ps|] eqn:Hm; simpl; [|done].
      by pose proof (proj2 (IH ps) eq_refl).
Qed.

(** What the code takes as the composite value of a name that is not
    a field of the row. *)
Lemma spec_composite_code pr val k :
  spec_composite pr val k =
  match indexesMeta pr !! k with
  | Some cols => VList <$> mapM (fun col => val !! col) cols
  | None =>
      match uniquesMeta pr !! k with
      | Some cols => VList <$> mapM (fun col => val !! col) cols
      | None => None
      end
  end.
Proof.
  unfold spec_composite, index_cols.
  by destruct (indexesMeta pr !! k), (uniquesMeta pr !! k).
Qed.

(** The composite values the first loop has gathered are the right
    ones, and they are for names that are not fields of the row. *)
Definition composites_ok (pr : Persistent) (val cv : row) : Prop :=
  ∀ F v, cv !! F = Some v → val !! F = None ∧ spec_composite pr val F = Some v.

Lemma matchOps_composite_Ok pr val ks skip cv0 cv :
  composites_ok pr val cv0 →
  matchOps_composite pr val ks skip cv0 = Ok cv →
  composites_ok pr val cv ∧
  (∀ F, is_Some (cv0 !! F) → is_Some (cv !! F)) ∧
  (∀ F, F ∈ ks → F ≠ skip → val !! F = None → is_Some (cv !! F)).
Proof.
  revert cv0. induction ks as [|k ks IH]; simpl; intros cv0 H0 Hc.
  { injection Hc as <-. split; [done|]. split; [done|].
    intros F HF. by apply elem_of_nil in HF. }
  assert (∀ cv1, composites_ok pr val cv1 →
            (∀ F, is_Some (cv0 !! F) → is_Some (cv1 !! F)) →
            (k ≠ skip → val !! k = None → is_Some (cv1 !! k)) →
            matchOps_composite pr val ks skip cv1 = Ok cv →
            composites_ok pr val cv ∧
            (∀ F, is_Some (cv0 !! F) → is_Some (cv !! F)) ∧
            (∀ F, F ∈ k :: ks → F ≠ skip → val !! F = None → is_Some (cv !! F)))
    as Hnext.
  { intros cv1 H1 Hmono Hk Hc1. destruct (IH cv1 H1 Hc1) as (Hok & Hm & Hcov).
    split; [done|]. split; [by intros F HF; apply Hm, Hmono|].
    intros F [->|HF]%elem_of_cons Hne Hnone; [|by apply Hcov].
    by apply Hm, Hk. }
  destruct (decide (k = skip)) as [->|Hne]; [by apply (Hnext cv0)|].
  destruct (decide (is_Some (val !! k))) as [[v Hv]|Hnone].
  { apply (Hnext cv0); try done. intros _ Hn. congruence. }
  assert (val !! k = None) as Hvk by (by destruct (val !! k); [destruct Hnone|]).
  pose proof (spec_composite_code pr val k) as Hsc.
  destruct (indexesMeta pr !! k) as [cols|].
  - destruct (rebuild_parts val cols) as [parts|] eqn:Hr; [simpl in Hc|done].
    apply rebuild_parts_Ok in Hr. rewrite Hr in Hsc. simpl in Hsc.
    apply (Hnext (<[k:=VList parts]> cv0)); try done.
    + intros F v. destruct (decide (F = k)) as [->|HF].
      * rewrite lookup_insert_eq. by intros [= <-].
      * rewrite lookup_insert_ne by done. apply H0.
    + intros F HF. destruct (decide (F = k)) as [->|HFk].
      * rewrite lookup_insert_eq. by eexists.
      * by rewrite lookup_insert_ne.
    + intros _ _. rewrite lookup_insert_eq. by eexists.
  - destruct (uniquesMeta pr !! k) as [cols|]; [|done].
    destruct (rebuild_parts val cols) as [parts|] eqn:Hr; [simpl in Hc|done].
    apply rebuild_parts_Ok in Hr. rewrite Hr in Hsc. simpl in Hsc.
    apply (Hnext (<[k:=VList parts]> cv0)); try done.
    + intros F v. destruct (decide (F = k)) as [->|HF].
      * rewrite lookup_insert_eq. by intros [= <-].
      * rewrite lookup_insert_ne by done. apply H0.
    + intros F HF. destruct (decide (F = k)) as [->|HFk].
      * rewrite lookup_insert_eq. by eexists.
      * by rewrite lookup_insert_ne.
    + intros _ _. rewrite lookup_insert_eq. by eexists.
Qed.

Lemma matchOps_composite_total pr val ks skip cv0 :
  (∀ F, F ∈ ks → F ≠ skip → val !! F = None → is_Some (spec_composite pr val F)) →
  ∃ cv, matchOps_composite pr val ks skip cv0 = Ok cv.
Proof.
  revert cv0. induction ks as [|k ks IH]; simpl; intros cv0 Hall; [by eexists|].
  assert (∀ cv1, ∃ cv, matchOps_composite pr val ks skip cv1 = Ok cv) as Hnext.
  { intros cv1. apply IH. intros F HF. apply Hall. by right. }
  destruct (decide (k = skip)); [apply Hnext|].
  destruct (decide (is_Some (val !! k))) as [|Hnone]; [apply Hnext|].
  assert (val !! k = None) as Hvk by (by destruct (val !! k); [destruct Hnone|]).
  destruct (Hall k) as [v Hv]; [by left|done..|].
  rewrite spec_composite_code in Hv.
  destruct (indexesMeta pr !! k) as [cols|].
  - destruct (mapM _ cols) as [parts|] eqn:Hm; [|done].
    apply rebuild_parts_Ok in Hm. rewrite Hm. simpl. apply Hnext.
  - destruct (uniquesMeta pr !! k) as [cols|]; [|done].
    destruct (mapM _ cols) as [parts|] eqn:Hm; [|done].
    apply rebuild_parts_Ok in Hm. rewrite Hm. simpl. apply Hnext.
Qed.

Lemma matchOps_ranges_true pr val cv rs skip :
  composites_ok pr val cv →
  (∀ F, F ∈ rs.*1 → F ≠ skip → val !! F = None → is_Some (cv !! F)) →
  matchOps_ranges val cv rs skip = Ok true ↔
  ∀ F R, (F, R) ∈ rs → F ≠ skip → spec_field_matches pr val F R = true.
Proof.
  intros Hok. induction rs as [|[name r] rs IH]; simpl; intros Hcov.
  { split; [|done]. intros _ F R HF. by apply elem_of_nil in HF. }
  assert ((∀ F R, (F, R) ∈ (name, r) :: rs → F ≠ skip →
             spec_field_matches pr val F R = true) ↔
          (name ≠ skip → spec_field_matches pr val name r = true) ∧
          (∀ F R, (F, R) ∈ rs → F ≠ skip → spec_field_matches pr val F R = true))
    as ->.
  { split.
    - intros H. split; [intros; apply H; [by left|done]|].
      intros F R HF. apply H. by right.
    - intros [H1 H2] F R [[= -> ->]|HF]%elem_of_cons; [done|by apply H2]. }
  rewrite <- IH by (intros F HF; apply Hcov; by right). clear IH.
  destruct (decide (name = skip)) as [->|Hne]; [naive_solver|].
  unfold spec_field_matches, spec_field_value.
  destruct (cv !! name) as [v|] eqn:Hcv.
  - destruct (Hok name v Hcv) as [-> ->].
    destruct (orderedMa_Marshal v) as [vBytes|]; simpl; [|naive_solver].
    destruct (contains r vBytes); simpl; naive_solver.
  - destruct (val !! name) as [v|] eqn:Hv.
    + destruct (orderedMa_Marshal v) as [vBytes|]; simpl; [|naive_solver].
      destruct (contains r vBytes); simpl; naive_solver.
    + destruct (Hcov name) as [? ?]; [by left|done..|congruence].
Qed.

(** [matchOps] answers true exactly when every range but the skipped
    one passes, in whatever order the ranges are visited. *)
Lemma matchOps_true pr val ranges skip :
  matchOps pr val ranges skip = Ok true ↔
  ∀ F R, ranges !! F = Some R → F ≠ skip → spec_field_matches pr val F R = true.
Proof.
  unfold matchOps.
  assert (composites_ok pr val ∅) as H0 by (intros F v; by rewrite lookup_empty).
  split.
  - destruct (matchOps_composite _ _ _ _ _) as [cv|] eqn:Hc; [simpl|done].
    destruct (matchOps_composite_Ok _ _ _ _ _ _ H0 Hc) as (Hok & _ & Hcov).
    rewrite (matchOps_ranges_true pr) by done.
    intros H F R HF. apply H. by apply elem_of_map_to_list.
  - intros H.
    destruct (matchOps_composite_total pr val (map_to_list ranges).*1 skip ∅)
      as [cv Hc].
    { intros F (kv & -> & Hin)%list_elem_of_fmap Hne Hnone. destruct kv as [F R].
      apply elem_of_map_to_list in Hin. specialize (H F R Hin Hne).
      unfold spec_field_matches, spec_field_value in H. simpl in *.
      rewrite Hnone in H. by destruct (spec_composite pr val F). }
    rewrite Hc. simpl.
    destruct (matchOps_composite_Ok _ _ _ _ _ _ H0 Hc) as (Hok & _ & Hcov).
    apply (matchOps_ranges_true pr); [done..|].
    intros F R HF%elem_of_map_to_list. by apply H.
Qed.

Lemma spec_matches_true pr val ranges :
  spec_matches pr val ranges = true ↔
  ∀ F R, ranges !! F = Some R → spec_field_matches pr val F R = true.
Proof.
  unfold spec_matches. rewrite forallb_forall. split.
  - intros H F R HF. apply (H (F, R)).
    by apply list_elem_of_In, elem_of_map_to_list.
  - intros H [F R] HF%list_elem_of_In%elem_of_map_to_list. by apply H.
Qed.

(** Skipping a range is sound when the row is known to pass it. *)
Lemma spec_matches_skip pr val ranges skip R :
  ranges !! skip = Some R →
  spec_matches pr val ranges = true ↔
  spec_field_matches pr val skip R = true ∧ matchOps pr val ranges skip = Ok true.
Proof.
  intros Hs. rewrite spec_matches_true, matchOps_true. split.
  - intros H. split; [by apply H|]. intros F R' HF _. by apply H.
  - intros [H1 H2] F R' HF. destruct (decide (F = skip)) as [->|Hne].
    + by assert (R' = R) as -> by congruence.
    + by apply H2.
Qed.

End Residual.

(** ** The index scan against the full scan *)

Section Planner.
Context {OL : Ordered} {MU : MarshalUnmarshaler}.

(** The rows among the items of a scan of [Select]. *)
Definition rows_yielded (l : list (result row)) : list row :=
  omap (fun item => match item with Ok val => Some val | Err _ => None end) l.

(** The invariants of the data model (section 3 of the spec) that an
    index scan relies on, for the index [c]: the index is declared, over
    columns of the relation, a single-column index bearing the name of
    its column; its bucket holds exactly one key per row of the data
    bucket, made of the row's key values and its id. *)
Definition index_consistent (pr : Persistent) (db : DB) (c : string) : Prop :=
  (is_Some (indexesMeta pr !! c) ∨ is_Some (uniquesMeta pr !! c)) ∧
  (c ∈ columns pr → index_cols pr c = [c]) ∧
  (∀ col, col ∈ index_cols pr c → col ∈ columns pr) ∧
  (∀ idb payload val, (idb, payload) ∈ data_bk db → maUn_Unmarshal payload = Ok val →
     ordered_CanEncode (key_parts val (index_cols pr c)) = true) ∧
  ∃ b, index_bks db !! c = Some b ∧ bucket_sorted b ∧
    ∀ key, key ∈ keys b ↔
      ∃ idb payload val, (idb, payload) ∈ data_bk db ∧
        maUn_Unmarshal payload = Ok val ∧
        key = row_index_key val idb (index_cols pr c).

(** The data bucket is in key order, its rows have the columns of the
    relation as their fields, and every index of [allIndexes] is
    consistent with it. *)
Definition store_consistent (pr : Persistent) (db : DB) : Prop :=
  bucket_sorted (data_bk db) ∧
  (∀ idb payload, (idb, payload) ∈ data_bk db →
     ∃ val, maUn_Unmarshal payload = Ok val ∧
       ∀ col, is_Some (val !! col) ↔ col ∈ columns pr) ∧
  ∀ c, c ∈ allIndexes pr → index_consistent pr db c.

Lemma index_arity_cols pr name : index_arity pr name = length (index_cols pr name).
Proof. unfold index_arity, index_cols. by destruct (indexesMeta pr !! name). Qed.

Lemma mapM_row_at (val : row) cols :
  (∀ col, col ∈ cols → is_Some (val !! col)) →
  mapM (fun col => val !! col) cols = Some (key_parts val cols).
Proof.
  induction cols as [|col cols IH]; simpl; intros H; [done|].
  destruct (H col) as [v Hv]; [by left|]. rewrite Hv. simpl.
  rewrite IH by (intros c Hc; apply H; by right). simpl.
  unfold row_at. by rewrite Hv.
Qed.

Lemma orderedMa_Marshal_scalar v :
  CanEncode1 v = true → orderedMa_Marshal v = Ok (ordered_Encode [v]).
Proof.
  intros Hc. unfold orderedMa_Marshal, ordered_CanEncode.
  destruct v; simpl; rewrite ?Hc; try done.
  by rewrite CanEncode1_list in Hc.
Qed.

(** On a row of a consistent store, the range of the index [c] passes
    exactly when it contains the leading part of the row's index key. *)
Lemma spec_field_matches_index pr db c val R :
  index_consistent pr db c →
  (∀ col, is_Some (val !! col) ↔ col ∈ columns pr) →
  ordered_CanEncode (key_parts val (index_cols pr c)) = true →
  spec_field_matches pr val c R
  = contains R (ordered_Encode (key_parts val (index_cols pr c))).
Proof.
  intros (Hdecl & Hcol & Hcols & _) Hdom Hcan.
  unfold spec_field_matches, spec_field_value.
  destruct (val !! c) as [v|] eqn:Hv.
  - assert (c ∈ columns pr) as Hc by (apply Hdom; by eexists).
    rewrite (Hcol Hc) in *. unfold key_parts, row_at in *. simpl in *.
    rewrite Hv in *. simpl in *.
    rewrite orderedMa_Marshal_scalar; [done|].
    unfold ordered_CanEncode in Hcan. simpl in Hcan. by destruct (CanEncode1 v).
  - unfold spec_composite.
    assert (mapM (fun col => val !! col) (index_cols pr c)
            = Some (key_parts val (index_cols pr c))) as Hm.
    { apply mapM_row_at. intros col Hin. apply Hdom. by apply Hcols. }
    destruct (indexesMeta pr !! c) eqn:Hi, (uniquesMeta pr !! c) eqn:Hu;
      try (rewrite Hm; simpl; unfold orderedMa_Marshal; by rewrite Hcan).
    by destruct Hdecl as [[? ?]|[? ?]].
Qed.

Lemma index_sel_elem_iff k kr (b : bucket unit) idb :
  idb ∈ index_sel k kr b ↔
  ∃ key lead, key ∈ keys b ∧ index_entry k key = Some (lead, idb) ∧
    contains kr lead = true.
Proof.
  unfold index_sel, keys. rewrite list_elem_of_omap. split.
  - intros ([key u] & Hin & He). simpl in He.
    destruct (index_entry k key) as [[lead idb']|] eqn:Hk; [|done]. simpl in He.
    destruct (contains kr lead) eqn:Hc; [|done]. injection He as ->.
    exists key, lead. split; [|done]. apply list_elem_of_fmap. by exists (key, u).
  - intros (key & lead & (kv & -> & Hin)%list_elem_of_fmap & He & Hc).
    exists kv. split; [done|]. rewrite He. simpl. by rewrite Hc.
Qed.

Lemma elem_sorted_unique {V} (b : bucket V) k v v' :
  bucket_sorted b → (k, v) ∈ b → (k, v') ∈ b → v = v'.
Proof.
  intros Hs H1 H2.
  apply (Get_elem_sorted _ _ _ Hs) in H1, H2. congruence.
Qed.

(** The entries an index scan fetches and passes on. *)
Lemma fetch_elem pr ranges skip db idb e :
  bucket_sorted (data_bk db) →
  Ok e ∈ fetch pr ranges skip db idb ↔
  ∃ payload, (idb, payload) ∈ data_bk db ∧ id e = idb ∧
    maUn_Unmarshal payload = Ok (value_of e) ∧
    matchOps pr (value_of e) ranges skip = Ok true.
Proof.
  intros Hs. unfold fetch. rewrite data_scan_id by done.
  destruct (bucket_Get idb (data_bk db)) as [payload|] eqn:Hg.
  - apply Get_Some_elem in Hg as Hin. unfold data_item. simpl.
    destruct (maUn_Unmarshal payload) as [val|err] eqn:Hu; simpl.
    + destruct (matchOps pr val ranges skip) as [[]|] eqn:Hm; simpl.
      * rewrite list_elem_of_singleton. split.
        -- intros [= ->]. by exists payload.
        -- intros (payload' & Hin' & Hid & Hu' & _).
           pose proof (elem_sorted_unique _ _ _ _ Hs Hin Hin') as <-.
           destruct e as [i v]. simpl in *. congruence.
      * rewrite elem_of_nil. split; [done|].
        intros (payload' & Hin' & Hid & Hu' & Hm').
        pose proof (elem_sorted_unique _ _ _ _ Hs Hin Hin') as <-.
        congruence.
      * rewrite list_elem_of_singleton. split; [done|].
        intros (payload' & Hin' & Hid & Hu' & Hm').
        pose proof (elem_sorted_unique _ _ _ _ Hs Hin Hin') as <-.
        congruence.
    + rewrite list_elem_of_singleton. split; [done|].
      intros (payload' & Hin' & Hid & Hu' & _).
      pose proof (elem_sorted_unique _ _ _ _ Hs Hin Hin') as <-. congruence.
  - simpl. rewrite elem_of_nil. split; [done|].
    intros (payload & Hin & _). apply Get_None in Hg. apply Hg.
    apply list_elem_of_fmap. by exists (idb, payload).
Qed.

Lemma feed_fmap {A B W} (h : A → B) (g : B → W → W * bool) (l : list A) w :
  feed (fun a w => g (h a) w) l w = feed g (map h l) w.
Proof.
  revert w. induction l as [|a l IH]; intros w; simpl; [done|].
  destruct (g (h a) w) as [w' more]. destruct more; simpl; [apply IH|done].
Qed.

End Planner.

Section PlannerItems.
Context {OL : Ordered} {MU : MarshalUnmarshaler}.

(** What [Select] hands over for an item of [iter]. *)
Definition Select_item (item : result entry) : result row :=
  match item with
  | Err err => Err err
  | Ok e => Ok (value_of e)
  end.

Lemma rows_yielded_elem (l : list (result entry)) val :
  val ∈ rows_yielded (map Select_item l) ↔ ∃ e, Ok e ∈ l ∧ value_of e = val.
Proof.
  unfold rows_yielded. rewrite list_elem_of_omap. split.
  - intros (item & (x & -> & Hx)%list_elem_of_fmap & Hv).
    destruct x as [e|err]; simpl in Hv; [|done]. injection Hv as <-. by exists e.
  - intros (e & He & <-). exists (Ok (value_of e)). split; [|done].
    apply list_elem_of_fmap. by exists (Ok e).
Qed.

(** The items of an index scan of [Select], run to its end. *)
Lemma Select_index_scan_items pr ranges chosen k kr db :
  items (fun yield w =>
    index_scan (fun _ : list (result row) => db) pr ranges chosen
      (fun yield w =>
         IndexStore_get_loop k kr
           match startKey kr with
           | Some s => cursor_Seek s (default [] (index_bks db !! chosen))
           | None => cursor_First (default [] (index_bks db !! chosen))
           end yield w)
      (fun item w =>
         match item with
         | Err err => yield (Err err) w
         | Ok e => yield (Ok (value_of e)) w
         end) w)
  = map Select_item
      (flat_map (fetch pr ranges chosen db)
         (index_scan_ids k kr (default [] (index_bks db !! chosen)))).
Proof.
  unfold items, index_scan. rewrite IndexStore_get_loop_feed.
  erewrite feed_ext.
  2:{ intros idb w. rewrite index_scan_step.
      apply (feed_ext _ (fun item w => take_all (Select_item item) w)).
      by intros [e|err] w'. }
  rewrite (feed_flat (fetch pr ranges chosen db)
             (fun item w => take_all (Select_item item) w)).
  rewrite (feed_fmap Select_item take_all). by rewrite feed_take_all.
Qed.

(** The items of the full scan of [Select], run to its end. *)
Lemma Select_full_scan_items pr ranges db :
  items (fun yield w =>
    full_scan (fun _ : list (result row) => db) pr ranges
      (fun item w => yield (Select_item item) w) w)
  = map Select_item (omap (body_item pr ranges "") (map data_item (data_bk db))).
Proof.
  unfold items. rewrite full_scan_feed, data_scan_full.
  rewrite (feed_fmap Select_item take_all). by rewrite feed_take_all.
Qed.


(** The rows that an index scan with the index [c] hands over: the rows
    of the data bucket whose index key lies in the range of [c] and which
    pass the ranges of the other fields. *)
Lemma index_scan_rows pr db ranges c R val :
  store_consistent pr db → c ∈ allIndexes pr → ranges !! c = Some R →
  (∃ e, Ok e ∈ flat_map (fetch pr ranges c db)
                 (index_scan_ids (index_arity pr c) R
                    (default [] (index_bks db !! c)))
        ∧ value_of e = val) ↔
  ∃ idb payload, (idb, payload) ∈ data_bk db ∧ maUn_Unmarshal payload = Ok val ∧
    contains R (ordered_Encode (key_parts val (index_cols pr c))) = true ∧
    matchOps pr val ranges c = Ok true.
Proof.
  intros (Hsorted & Hrows & Hidx) Hc HR.
  destruct (Hidx c Hc) as (Hdecl & Hcol & Hcols & Hcan & b & Hb & Hbs & Hkeys).
  rewrite Hb. simpl.
  assert (index_wf (index_arity pr c) b) as Hwf.
  { intros key (idb & payload & r & Hin & Hu & ->)%Hkeys.
    exists (key_parts r (index_cols pr c)), idb. split; [|split; [|done]].
    - by rewrite length_key_parts, index_arity_cols.
    - eauto. }
  rewrite index_scan_ids_sel by done. split.
  - intros (e & (idb & Hsel & He)%list_elem_of_In%in_flat_map & <-).
    apply list_elem_of_In in Hsel, He.
    apply fetch_elem in He as (payload & Hin & Hid & Hu & Hm); [|done].
    apply index_sel_elem_iff in Hsel as (key & lead & Hkey & Hentry & Hlead).
    apply Hkeys in Hkey as (idb' & payload' & r' & Hin' & Hu' & ->).
    unfold row_index_key in Hentry. rewrite index_entry_key in Hentry.
    2:{ by rewrite length_key_parts, index_arity_cols. }
    2:{ eauto. }
    injection Hentry as <- <-.
    pose proof (elem_sorted_unique _ _ _ _ Hsorted Hin Hin') as <-.
    assert (r' = value_of e) as -> by congruence.
    by exists idb', payload.
  - intros (idb & payload & Hin & Hu & Hlead & Hm).
    exists {| id := idb; value_of := val |}. split; [|done].
    apply list_elem_of_In, in_flat_map. exists idb. split; apply list_elem_of_In.
    + apply index_sel_elem_iff.
      exists (row_index_key val idb (index_cols pr c)),
             (ordered_Encode (key_parts val (index_cols pr c))).
      split; [|split; [|done]].
      * apply Hkeys. by exists idb, payload, val.
      * unfold row_index_key. apply index_entry_key.
        -- by rewrite length_key_parts, index_arity_cols.
        -- eauto.
    + apply fetch_elem; [done|]. by exists payload.
Qed.

(** The rows of "a full scan + residual filter", on a consistent store. *)
Lemma spec_full_scan_rows pr db ranges c R val :
  store_consistent pr db → c ∈ allIndexes pr → ranges !! c = Some R →
  val ∈ spec_full_scan pr ranges db ↔
  ∃ idb payload, (idb, payload) ∈ data_bk db ∧ maUn_Unmarshal payload = Ok val ∧
    contains R (ordered_Encode (key_parts val (index_cols pr c))) = true ∧
    matchOps pr val ranges c = Ok true.
Proof.
  intros (Hsorted & Hrows & Hidx) Hc HR.
  pose proof (Hidx c Hc) as Hic.
  assert (∀ idb payload, (idb, payload) ∈ data_bk db → maUn_Unmarshal payload = Ok val →
    (spec_matches pr val ranges = true ↔
     contains R (ordered_Encode (key_parts val (index_cols pr c))) = true ∧
     matchOps pr val ranges c = Ok true)) as Hbridge.
  { intros idb payload Hin Hu.
    destruct (Hrows idb payload Hin) as (r & Hu' & Hdom).
    assert (r = val) as -> by congruence.
    rewrite (spec_matches_skip pr val ranges c R HR).
    erewrite spec_field_matches_index; [done|exact Hic|exact Hdom|].
    destruct Hic as (_ & _ & _ & Hcan & _). eauto. }
  unfold spec_full_scan. rewrite list_elem_of_omap. split.
  - intros ([idb payload] & Hin & Hv). simpl in Hv.
    destruct (maUn_Unmarshal payload) as [r|] eqn:Hu; [|done].
    destruct (spec_matches pr r ranges) eqn:Hm; [|done]. injection Hv as ->.
    exists idb, payload. split; [done|]. split; [done|].
    by apply (Hbridge idb payload).
  - intros (idb & payload & Hin & Hu & Hlead & Hm).
    exists (idb, payload). split; [done|]. simpl. rewrite Hu.
    by rewrite (proj2 (Hbridge idb payload Hin Hu)).
Qed.

(** The rows of the full scan of [iter], whose [matchOps] skips the
    field of the empty name. *)
Lemma full_scan_rows pr db ranges val :
  ranges !! "" = None →
  val ∈ rows_yielded
          (map Select_item (omap (body_item pr ranges "") (map data_item (data_bk db))))
  ↔ val ∈ spec_full_scan pr ranges db.
Proof.
  intros Hempty.
  assert (∀ r, matchOps pr r ranges "" = Ok true ↔ spec_matches pr r ranges = true)
    as Hm.
  { intros r. rewrite matchOps_true, spec_matches_true. split.
    - intros H F R HF. apply H; [done|]. intros ->. congruence.
    - intros H F R HF _. by apply H. }
  rewrite rows_yielded_elem. unfold spec_full_scan.
  rewrite list_elem_of_omap. split.
  - intros (e & (item & (kv & -> & Hin)%list_elem_of_fmap & Hb)%list_elem_of_omap & <-).
    exists kv. split; [done|]. unfold data_item, body_item in Hb.
    destruct (maUn_Unmarshal kv.2) as [r|]; [|done]. simpl in Hb.
    destruct (matchOps pr r ranges "") as [[]|] eqn:Hmo; try done.
    injection Hb as <-. simpl. by rewrite (proj1 (Hm r) Hmo).
  - intros ([idb payload] & Hin & Hv). simpl in Hv.
    destruct (maUn_Unmarshal payload) as [r|] eqn:Hu; [|done].
    destruct (spec_matches pr r ranges) eqn:Hs; [|done]. injection Hv as ->.
    exists {| id := idb; value_of := val |}. split; [|done].
    apply list_elem_of_omap. exists (data_item (idb, payload)). split.
    + apply list_elem_of_fmap. by exists (idb, payload).
    + unfold data_item, body_item. simpl. rewrite Hu. simpl.
      by rewrite (proj2 (Hm val) Hs).
Qed.

End PlannerItems.
(** * The claims *)

Section Claims.
Context {OL : Ordered} {MU : MarshalUnmarshaler}.

(** C6.  A row whose field count differs from the number of columns is
    refused with [ErrObjectFieldCountMismatch]; a row of the right
    count that lacks a declared column is refused with
    [ErrObjectMissingField] of such a column.  Either way [Insert]
    returns the database it was given: no store was written and the
    row-id sequence did not advance. *)
Theorem Insert_schema_errors (pr : Persistent) (obj : row) (db : DB) :
  size obj ≠ length (columns pr) ∨ (∃ col, col ∈ columns pr ∧ obj !! col = None) →
  ∃ err, Insert pr obj db = (db, Some err) ∧
    (size obj ≠ length (columns pr) → err = ErrObjectFieldCountMismatch) ∧
    (size obj = length (columns pr) →
       ∃ col, col ∈ columns pr ∧ obj !! col = None ∧ err = ErrObjectMissingField col).
Proof.
  intros H. unfold Insert.
  destruct (Nat.eqb_spec (size obj) (length (columns pr))) as [Heq|Hne]; simpl.
  - destruct H as [H|(col & Hcol & Hnone)]; [done|].
    assert (∃ c, missing_field obj (columns pr) = Some c ∧ c ∈ columns pr ∧ obj !! c = None)
      as (c & -> & Hc & Hc').
    { clear Heq. induction (columns pr) as [|c cs IH]; [by apply elem_of_nil in Hcol|].
      simpl. destruct (obj !! c) eqn:Ec.
      - apply elem_of_cons in Hcol as [->|Hcol]; [congruence|].
        destruct (IH Hcol) as (c' & ? & ? & ?). exists c'. by rewrite elem_of_cons; auto.
      - exists c. rewrite elem_of_cons. auto. }
    eexists. split; [done|]. split; [done|]. intros _. by exists c.
  - eexists. split; [done|]. split; [done|]. done.
Qed.



(** C8, as amended.  On a bucket in key order whose keys are those
    [indexStorage.insert] writes, [[key, id]], or have a number of
    components other than two, [indexStorage.get] yields, in bucket
    order and without an error, the row id of each stored key whose
    leading bytes the range contains, and nothing else.  A stored key
    whose component count is not two is passed over, whatever the
    number of columns of the index; and the loop ends, calling [yield]
    no more, at a stored key whose leading bytes are past [endKey]
    ([includeEnd] respected). *)
Theorem indexStorage_get_scan (name : string) (kr : keyRange) (db : DB)
    (b : bucket unit) :
  index_bks db !! name = Some b → bucket_sorted b → storage_wf b →
  (∃ it, indexStorage_get (fun _ => db) name kr db = Ok it ∧
     items it = storage_sel kr b) ∧
  (∀ W (g : result N → W → W * bool) w raw u c parts,
     DecodeAny raw = Some parts → length parts ≠ 2 →
     indexStorage_get_loop kr ((raw, u) :: c) g w
     = indexStorage_get_loop kr c g w) ∧
  (∀ W (g : result N → W → W * bool) w raw u c key idn,
     storage_entry raw = Some (key, idn) → lessThanEnd kr key = false →
     indexStorage_get_loop kr ((raw, u) :: c) g w = (w, true)).
Proof.
  intros Hb Hs Hwf. split; [|split].
  - unfold indexStorage_get. rewrite Hb. eexists. split; [done|].
    unfold items. simpl.
    pose proof (storage_scan_sel kr b Hs Hwf) as Hsel.
    destruct (startKey kr) as [s|].
    + unfold orderedMa_Marshal, ordered_CanEncode, ordered_Encode. simpl.
      rewrite CanEncode1_bytes. simpl. rewrite app_nil_r.
      by rewrite indexStorage_get_loop_feed, feed_take_all, Hsel.
    + by rewrite indexStorage_get_loop_feed, feed_take_all, Hsel.
  - intros W g w raw u c parts Hd Hlen. simpl.
    unfold orderedMa_Unmarshal. rewrite Hd.
    by destruct parts as [|part0 [|part1 [|]]].
  - intros W g w raw u c key idn He Hlt.
    rewrite indexStorage_get_loop_feed. simpl.
    destruct (DecodeAny raw) as [parts|] eqn:Hd.
    2:{ unfold storage_entry in He. by rewrite Hd in He. }
    rewrite He.
    assert (contains kr key = false) as ->; [|by rewrite Hlt].
    destruct (contains kr key) eqn:Hc; [|done].
    apply contains_lessThan in Hc. unfold lessThan, lessThanEnd in *. congruence.
Qed.

(** C5.  In every state a relation reaches from a fresh one by
    [Insert] and [Delete], failed calls included, the bucket of a
    unique index holds at most one key with a given leading part (the
    encoding of the components before the row id). *)
Theorem unique_index_one_key_per_prefix (distance : keyRange → bytes)
    (pr : Persistent) (db : DB) (name : string) (cols : list string)
    (b : bucket unit) (lead : bytes) :
  schema_ok pr → reachable distance pr db →
  uniquesMeta pr !! name = Some cols → index_bks db !! name = Some b →
  length (filter (fun kv => entry_lead (length cols) kv.1 = Some lead) b) ≤ 1.
Proof.
  intros Hok Hr Hu Hb.
  destruct (index_inv_reachable distance pr db Hok Hr name b Hb) as (Hs & _ & Huniq).
  rewrite (index_arity_uniques pr name cols) in Huniq by done.
  apply index_uniq_count; [done|]. apply Huniq. by exists cols.
Qed.

(** C3, as amended.  After a row has been inserted, inserting a
    second row that the schema and the value codec accept, with the
    same values in the key columns of a unique index and values the
    ordered codec encodes in those of the others, returns
    [ErrUniqueConstraint] of a unique index.  The index buckets and the
    reverse index are as before the call; the data bucket holds the
    rejected row under the row id taken from the sequence. *)
Theorem second_Insert_unique_violation (distance : keyRange → bytes)
    (pr : Persistent) (db0 db1 : DB) (obj1 obj2 : row) (u : string)
    (cols : list string) (dataBytes : bytes) :
  schema_ok pr → reachable distance pr db0 →
  uniquesMeta pr !! u = Some cols →
  Insert pr obj1 db0 = (db1, None) →
  key_parts obj2 cols = key_parts obj1 cols →
  size obj2 = length (columns pr) →
  (∀ col, col ∈ columns pr → is_Some (obj2 !! col)) →
  maUn_Marshal obj2 = Ok dataBytes →
  (∀ u' cols', uniquesMeta pr !! u' = Some cols' →
     ordered_CanEncode (key_parts obj2 cols') = true) →
  ∃ u' db2,
    Insert pr obj2 db1 = (db2, Some (ErrUniqueConstraint u')) ∧
    is_Some (uniquesMeta pr !! u') ∧
    index_bks db2 = index_bks db1 ∧
    rev_bk db2 = rev_bk db1 ∧
    data_bk db2 = bucket_Put (id_bytes (next_id db1)) dataBytes (data_bk db1) ∧
    data_seq db2 = next_id db1.
Proof.
  intros Hok Hr Hu Hins Hsame Hsize Hcols Hm Henc.
  assert (index_inv pr (index_bks db1)) as Hinv.
  { replace db1 with (Insert pr obj1 db0).1 by (by rewrite Hins).
    by apply index_inv_Insert, (index_inv_reachable distance). }
  apply Insert_None in Hins
    as (_ & _ & dataBytes1 & dbA & dbB & dbC & rev1 & rev2 & Hm1 & -> & Hc & H1 & H2 & ->).
  set (idb1 := id_bytes (next_id db0)) in *.
  assert (∀ name cs, uniquesMeta pr !! name = Some cs →
            ordered_CanEncode (key_parts obj1 cs) = true ∧
            ∃ b, index_bks dbC !! name = Some b ∧ row_index_key obj1 idb1 cs ∈ keys b)
    as Hstored.
  { intros name cs Hn. eapply insert_indexes_Ok; [exact H2|].
    by apply elem_of_map_to_list. }
  unfold Insert.
  rewrite Hsize, Nat.eqb_refl. simpl.
  assert (missing_field obj2 (columns pr) = None) as ->
    by (by apply (proj2 (missing_field_None _ _))).
  rewrite (dataStorage_insert_marshal obj2 _ dataBytes) by done.
  set (dbD := set_data _ _).
  destruct (Hstored u cols Hu) as (Hcan1 & b & Hb & Hkey).
  destruct (Hinv u b Hb) as (Hs & Hwf & _).
  rewrite (index_arity_uniques pr u cols) in Hwf by done.
  destruct (check_uniques_found (map_to_list (uniquesMeta pr)) obj2 dbD u cols b)
    as (u' & Hu' & ->).
  - intros name cs Hn%elem_of_map_to_list. split; [by eapply Henc|].
    destruct (Hstored name cs Hn) as (_ & b' & Hb' & _). by exists b'.
  - by apply elem_of_map_to_list.
  - done.
  - rewrite index_scan_ids_sel by done. rewrite Hsame.
    intros Hnil.
    assert (idb1 ∈ index_sel (length cols)
              (op_range OpEq (ordered_Encode (key_parts obj1 cols))) b) as Hin.
    { eapply index_sel_elem; [exact Hkey| |by apply contains_point].
      unfold row_index_key. apply index_entry_key; [apply length_key_parts|done]. }
    rewrite Hnil in Hin. by apply elem_of_nil in Hin.
  - exists u', dbD. split; [done|]. split; [|done].
    apply list_elem_of_fmap in Hu' as ([name cs] & -> & Hin).
    apply elem_of_map_to_list in Hin. by exists cs.
Qed.


End Claims.

Lemma Insert_schema_errors_witness :
  ∃ err, Insert users {[ "id" := VStr "1" ]} (new_DB ["email"])
           = (new_DB ["email"], Some err) ∧
    (size ({[ "id" := VStr "1" ]} : row) ≠ length (columns users)
       → err = ErrObjectFieldCountMismatch) ∧
    (size ({[ "id" := VStr "1" ]} : row) = length (columns users) →
       ∃ col, col ∈ columns users ∧ ({[ "id" := VStr "1" ]} : row) !! col = None
         ∧ err = ErrObjectMissingField col).
Proof.
  apply (Insert_schema_errors users {[ "id" := VStr "1" ]} (new_DB ["email"])).
  left. vm_compute. lia.
Defined.



(** C9, at an input where the code departs from it: two rows, ids 1
    and 2, and the range that starts after the encoding of 0, start
    excluded, with no end.  No key equals the start key and the range
    contains both keys, yet the scan yields the second row only:
    [dataStorage.get] steps past the entry its [Seek] stopped at
    whenever the start is exclusive, whether or not that entry's key is
    the start key. *)
Theorem dataStorage_get_exclusive_start_skips :
  Forall (fun kv => contains after_zero kv.1 = true
                    ∧ Some kv.1 ≠ startKey after_zero) (data_bk users_2) ∧
  length (data_bk users_2) = 2 ∧
  items (dataStorage_get (fun _ => users_2) after_zero)
  = [Ok {| id := Encode1 (VUint 2); value_of := user "2" "b@x" |}].
Proof.
  split; [|split].
  - repeat constructor; vm_compute; congruence.
  - reflexivity.
  - vm_compute. reflexivity.
Qed.


(** C10.  In a scan of [dataStorage.get], of [iter] or of [Select],
    whatever the consumer does, no call to [yield] follows a call that
    returned false. *)
Theorem scans_stop_at_false {OL : Ordered} {MU : MarshalUnmarshaler} {W : Type}
    (distance : keyRange → bytes) (getdb : W → DB)
    (pr : Persistent) (ops : list Op) (db : DB) :
  (∀ kr (yield : result entry → W → W * bool) w,
     stops_at_false
       (dataStorage_get (getdb ∘ fst) kr (logged yield) (w, [])).1.2) ∧
  (∀ it (yield : result entry → W → W * bool) w,
     iter distance (getdb ∘ fst) pr ops db = Ok it →
     stops_at_false (it (logged yield) (w, [])).1.2) ∧
  (∀ it (yield : result row → W → W * bool) w,
     Select distance (getdb ∘ fst) pr ops db = Ok it →
     stops_at_false (it (logged yield) (w, [])).1.2).
Proof.
  split; [|split].
  - intros kr yield w. apply run_post_stops.
    apply good_dataStorage_get; [apply good_logged|]. constructor.
  - intros it yield w Hit. apply run_post_stops.
    eapply good_iter; [exact Hit|apply good_logged|]. constructor.
  - intros it yield w Hit. unfold Select in Hit.
    destruct (iter distance (getdb ∘ fst) pr ops db) as [iterEntries|] eqn:Hi; [|done].
    injection Hit as <-. apply run_post_stops.
    eapply good_iter; [exact Hi| |constructor].
    intros item w' Hw'. destruct item; by apply good_logged.
Qed.

Lemma scans_stop_at_false_witness :
  ∃ it, Select no_distance ((fun _ => users_2) ∘ fst) users [] users_2 = Ok it ∧
    stops_at_false (it (logged first_only) (0, [])).1.2.
Proof.
  eexists. split; [reflexivity|].
  apply (scans_stop_at_false no_distance (fun _ => users_2) users [] users_2).
  reflexivity.
Defined.

Lemma loc_1_bucket : index_bks loc_1 !! "loc" = Some [(locator_key loc_key 1, ())].
Proof. vm_compute. reflexivity. Qed.

Lemma indexStorage_get_scan_witness :
  ∃ it, indexStorage_get (fun _ => loc_1) "loc" full_range loc_1 = Ok it ∧
    items it = storage_sel full_range [(locator_key loc_key 1, ())].
Proof.
  apply (indexStorage_get_scan "loc" full_range loc_1 [(locator_key loc_key 1, ())]).
  - vm_compute. reflexivity.
  - repeat constructor.
  - intros raw Hraw. left. exists loc_key, 1%N. split; [reflexivity|].
    apply list_elem_of_singleton in Hraw. exact Hraw.
Defined.

(** C8 as stated fails.  [loc] is an index over two columns, so the
    claim has a stored key of a component count other than three passed
    over.  The key [indexStorage.insert] stores has two components,
    the encoded key and the row id, and [indexStorage.get] yields its
    row id. *)
Lemma indexStorage_get_two_components :
  ∃ raw it,
    index_bks loc_1 !! "loc" = Some [(raw, ())] ∧
    length <$> DecodeAny raw = Some 2 ∧
    length <$> DecodeAny loc_key = Some 2 ∧
    indexStorage_get (fun _ => loc_1) "loc" full_range loc_1 = Ok it ∧
    items it = [Ok 1%N].
Proof.
  eexists _, _. split; [apply loc_1_bucket|].
  split; [vm_compute; reflexivity|].
  split; [vm_compute; reflexivity|].
  split; [reflexivity|]. vm_compute. reflexivity.
Qed.

Lemma schema_ok_users : schema_ok users.
Proof. intros name cols cols' Hi. simpl in Hi. by rewrite lookup_empty in Hi. Qed.

Lemma reachable_users_2 : reachable no_distance users users_2.
Proof. unfold users_2, users_1. do 2 apply reachable_Insert. apply reachable_new. Qed.

(** The bucket of the unique index [email] once two users are in. *)
Definition users_2_email : bucket unit := default [] (index_bks users_2 !! "email").

Lemma unique_index_one_key_per_prefix_witness :
  length (filter (fun kv => entry_lead (length ["email"]) kv.1
                            = Some (ordered_Encode [VStr "a@x"])) users_2_email) ≤ 1.
Proof.
  apply (unique_index_one_key_per_prefix no_distance users users_2 "email"
           ["email"] users_2_email).
  - apply schema_ok_users.
  - apply reachable_users_2.
  - reflexivity.
  - vm_compute. reflexivity.
Defined.

Lemma second_Insert_unique_violation_witness :
  ∃ u' db2,
    Insert users (user "2" "a@x") users_1 = (db2, Some (ErrUniqueConstraint u')) ∧
    is_Some (uniquesMeta users !! u') ∧
    index_bks db2 = index_bks users_1 ∧
    rev_bk db2 = rev_bk users_1 ∧
    data_bk db2 = bucket_Put (id_bytes (next_id users_1))
                    (ordered_Encode (row_pairs (user "2" "a@x"))) (data_bk users_1) ∧
    data_seq db2 = next_id users_1.
Proof.
  apply (second_Insert_unique_violation no_distance users (new_DB ["email"]) users_1
           (user "1" "a@x") (user "2" "a@x") "email" ["email"]).
  - apply schema_ok_users.
  - apply reachable_new.
  - reflexivity.
  - vm_compute. reflexivity.
  - vm_compute. reflexivity.
  - vm_compute. reflexivity.
  - intros col Hcol. repeat (apply elem_of_cons in Hcol as [->|Hcol]; [by eexists|]).
    by apply elem_of_nil in Hcol.
  - vm_compute. reflexivity.
  - intros u' cols' H. simpl in H.
    apply lookup_singleton_Some in H as [<- <-]. reflexivity.
Defined.

(** C3 as stated fails: the second insert is refused with
    [ErrUniqueConstraint "email"], and the data bucket then holds two
    rows, the second being the refused one. *)
Lemma failed_Insert_leaves_data_row :
  ∃ db2, Insert users (user "2" "a@x") users_1
         = (db2, Some (ErrUniqueConstraint "email")) ∧
    length (data_bk users_1) = 1 ∧
    items (dataStorage_get (fun _ => db2) full_range)
    = [Ok {| id := id_bytes 1; value_of := user "1" "a@x" |};
       Ok {| id := id_bytes 2; value_of := user "2" "a@x" |}].
Proof.
  eexists. split; [vm_compute; reflexivity|].
  split; [reflexivity|]. vm_compute. reflexivity.
Qed.

Lemma events_1_indexes :
  index_bks events_1 = {[ "ts" := [(row_index_key (event "a" 10) (id_bytes 1) ["ts"], ())] ]}.
Proof. vm_compute. reflexivity. Qed.

Lemma id_fresh_events_1 : id_fresh events events_1 (id_bytes (next_id events_1)).
Proof.
  split; [|split].
  - intros Hin. vm_compute in Hin. apply list_elem_of_singleton in Hin. discriminate Hin.
  - intros Hin. vm_compute in Hin. apply list_elem_of_singleton in Hin. discriminate Hin.
  - intros name b key lead Hb Hin. rewrite events_1_indexes in Hb.
    apply lookup_singleton_Some in Hb as [<- <-].
    apply list_elem_of_singleton in Hin. subst key.
    vm_compute. intros H. by simplify_eq.
Qed.



(** [Delete] looks the names of the reverse index up in
    [indexesMeta] only: the row of a relation with a unique index that
    is declared in [uniquesMeta] alone is not deleted. *)
Lemma Delete_unique_index_not_found :
  Delete no_distance users [EqOp "id" (VStr "1")] users_1
  = (users_1, Some (ErrIndexMetadataNotFound "email")).
Proof. vm_compute. reflexivity. Qed.

Section PlannerClaim.
Context {OL : Ordered} {MU : MarshalUnmarshaler}.

(** C1 (planner equivalence).  On a store that keeps the invariants of
    the data model, whenever a range falls on an index, [Select] runs
    the index scan of the planner, and the rows it yields are exactly
    the rows of a full scan of the data bucket with every range applied
    as a residual filter.  These are also the rows that the full scan
    of [iter] yields with its [matchOps], which leaves out the field of
    the empty name, when no range is on that field. *)
Theorem planner_equivalence (distance : keyRange → bytes) pr ops db ranges :
  store_consistent pr db →
  toRanges ops = Ok ranges →
  selected_indexes pr ranges ≠ [] →
  ∃ it, Select distance (fun _ : list (result row) => db) pr ops db = Ok it ∧
    ∀ val,
      (val ∈ rows_yielded (items it) ↔ val ∈ spec_full_scan pr ranges db) ∧
      (ranges !! "" = None →
       val ∈ rows_yielded (items it) ↔
       val ∈ rows_yielded (items (fun yield w =>
                full_scan (fun _ : list (result row) => db) pr ranges
                  (fun item w => yield (Select_item item) w) w))).
Proof.
  intros Hcons Hranges Hsel. unfold Select, iter. rewrite Hranges. simpl.
  destruct (selected_indexes pr ranges) as [|idx0 idxs] eqn:Hs; [done|].
  set (chosen := MinFunc idx0 idxs (distance_cmp distance ranges)).
  assert (chosen ∈ selected_indexes pr ranges) as Hchosen.
  { destruct (MinFunc_split (fun name => distance (range_at ranges name)) idx0 idxs)
      as (l1 & l2 & Heq & _).
    rewrite Hs, Heq. apply elem_of_app. right. by left. }
  apply list_elem_of_filter in Hchosen as [[R HR] Hall].
  pose proof Hcons as (_ & _ & Hidx).
  destruct (Hidx chosen Hall) as (_ & _ & _ & _ & b & Hb & _).
  unfold IndexStore_get. rewrite Hb. simpl.
  eexists. split; [reflexivity|]. intros val.
  pose proof (Select_index_scan_items pr ranges chosen (index_arity pr chosen)
                (range_at ranges chosen) db) as Hitems.
  pose proof (index_scan_rows pr db ranges chosen R val Hcons Hall HR) as Hrows.
  rewrite Hb in Hitems, Hrows. simpl in Hitems, Hrows.
  rewrite Hitems, rows_yielded_elem.
  unfold range_at. rewrite HR. simpl. rewrite Hrows.
  rewrite <- (spec_full_scan_rows pr db ranges chosen R val Hcons Hall HR).
  split; [done|]. intros Hempty.
  by rewrite Select_full_scan_items, full_scan_rows.
Qed.

End PlannerClaim.

(** Events from 15 on and before 35, over the index [ts]. *)
Definition events_ops : list Op := [GeOp "ts" (VUint 15); LtOp "ts" (VUint 35)].

Definition events_ranges : gmap string keyRange :=
  {[ "ts" := {| startKey := Some (Encode1 (VUint 15));
                endKey := Some (Encode1 (VUint 35));
                includeStart := true; includeEnd := false |} ]}.

Lemma events_2_data :
  data_bk events_2 =
  [(id_bytes 1, ordered_Encode (row_pairs (event "a" 10)));
   (id_bytes 2, ordered_Encode (row_pairs (event "b" 20)))].
Proof. vm_compute. reflexivity. Qed.

Lemma events_2_ts :
  index_bks events_2 !! "ts" =
  Some [(row_index_key (event "a" 10) (id_bytes 1) ["ts"], ());
        (row_index_key (event "b" 20) (id_bytes 2) ["ts"], ())].
Proof. vm_compute. reflexivity. Qed.

Lemma event_fields i ts col :
  is_Some (event i ts !! col) ↔ col ∈ columns events.
Proof.
  unfold event. simpl. rewrite !elem_of_cons, elem_of_nil.
  destruct (decide (col = "id")) as [->|Hid]; [by split; eauto|].
  destruct (decide (col = "ts")) as [->|Hts]; [by split; eauto|].
  rewrite lookup_insert_ne, lookup_singleton_ne by done.
  split; [by intros [? ?]|naive_solver].
Qed.

Lemma events_2_rows idb payload :
  (idb, payload) ∈ data_bk events_2 →
  (idb = id_bytes 1 ∧ maUn_Unmarshal payload = Ok (event "a" 10)) ∨
  (idb = id_bytes 2 ∧ maUn_Unmarshal payload = Ok (event "b" 20)).
Proof.
  rewrite events_2_data. intros [[= -> ->]|Hin]%elem_of_cons.
  - left. split; [done|]. vm_compute. reflexivity.
  - apply list_elem_of_singleton in Hin as [= -> ->].
    right. split; [done|]. vm_compute. reflexivity.
Qed.

Lemma bucket_sorted_two {V} k1 (v1 : V) k2 v2 :
  bytes_lt k1 k2 → bucket_sorted [(k1, v1); (k2, v2)].
Proof.
  intros H. apply bucket_sorted_cons. split.
  - apply bucket_sorted_cons. split; [constructor|].
    intros k' Hin. by apply elem_of_nil in Hin.
  - intros k' Hin. apply list_elem_of_singleton in Hin as ->. exact H.
Qed.

(** The store of [events] with the two events in keeps the invariants. *)
Lemma store_consistent_events_2 : store_consistent events events_2.
Proof.
  assert (index_cols events "ts" = ["ts"]) as Hcols by (vm_compute; reflexivity).
  split; [|split].
  - rewrite events_2_data. apply bucket_sorted_two. vm_compute. reflexivity.
  - intros idb payload [[-> Hu]|[-> Hu]]%events_2_rows; eexists;
      (split; [exact Hu|apply event_fields]).
  - intros c Hc. apply list_elem_of_singleton in Hc as ->.
    split; [left; vm_compute; eauto|]. split; [done|]. split.
    { rewrite Hcols. intros col Hin. apply list_elem_of_singleton in Hin as ->.
      simpl. set_solver. }
    split.
    { rewrite Hcols. intros idb payload val [[-> Hu]|[-> Hu]]%events_2_rows Hu';
        rewrite Hu in Hu'; injection Hu' as <-; vm_compute; reflexivity. }
    eexists. split; [apply events_2_ts|]. split.
    { apply bucket_sorted_two. vm_compute. reflexivity. }
    rewrite Hcols. intros key. unfold keys. simpl. split.
    + intros [->|Hin]%elem_of_cons; [|apply list_elem_of_singleton in Hin as ->].
      * exists (id_bytes 1), (ordered_Encode (row_pairs (event "a" 10))), (event "a" 10).
        split; [rewrite events_2_data; by left|]. split; [|done].
        vm_compute. reflexivity.
      * exists (id_bytes 2), (ordered_Encode (row_pairs (event "b" 20))), (event "b" 20).
        split; [rewrite events_2_data; right; by left|]. split; [|done].
        vm_compute. reflexivity.
    + intros (idb & payload & val & Hin & Hu' & ->).
      apply events_2_rows in Hin as [[-> Hu]|[-> Hu]].
      all: simpl in Hu; rewrite Hu in Hu'; injection Hu' as <-; set_solver.
Qed.

Lemma planner_equivalence_witness :
  ∃ it, Select closed_distance (fun _ : list (result row) => events_2)
          events events_ops events_2 = Ok it ∧
    ∀ val,
      (val ∈ rows_yielded (items it) ↔ val ∈ spec_full_scan events events_ranges events_2) ∧
      (events_ranges !! "" = None →
       val ∈ rows_yielded (items it) ↔
       val ∈ rows_yielded (items (fun yield w =>
                full_scan (fun _ : list (result row) => events_2) events events_ranges
                  (fun item w => yield (Select_item item) w) w))).
Proof.
  apply (planner_equivalence closed_distance events events_ops events_2 events_ranges).
  - apply store_consistent_events_2.
  - vm_compute. reflexivity.
  - vm_compute. discriminate.
Defined.

(** * Further properties of the stores *)

(** ** The data store, [dataStorage] *)

Section DataStore.
Context {OL : Ordered} {MU : MarshalUnmarshaler}.

(** The entries of a bucket whose key a range contains. *)
Definition in_range {V} (kr : keyRange) (b : bucket V) : bucket V :=
  filter (fun kv => contains kr kv.1 = true) b.

Lemma in_range_none {V} kr (c : bucket V) :
  (∀ k, k ∈ keys c → contains kr k = false) → in_range kr c = [].
Proof.
  unfold in_range. induction c as [|[k v] c IH]; intros H; [done|].
  rewrite filter_cons_False by (simpl; rewrite (H k) by (by left); done).
  apply IH. intros k' Hk'. apply H. by right.
Qed.

(** From a cursor position on, the loop hands over the entries the
    range contains: in a bucket in key order nothing the range contains
    lies behind the entry the loop ends at. *)
Lemma data_items_in_range kr (c : bucket bytes) :
  bucket_sorted c → data_items kr c = map data_item (in_range kr c).
Proof.
  induction c as [|[k v] c IH]; intros Hs; [done|].
  apply bucket_sorted_cons in Hs as [Hc Hk]. simpl.
  destruct (lessThan kr k) eqn:Hless; simpl.
  - unfold in_range. destruct (contains kr k) eqn:Hin; simpl.
    + rewrite filter_cons_True by done. simpl. f_equal. by apply IH.
    + rewrite filter_cons_False by (simpl; congruence). by apply IH.
  - rewrite in_range_none; [done|].
    intros k' [->|Hk']%elem_of_cons.
    + destruct (contains kr k) eqn:Hin; [|done].
      apply contains_lessThan in Hin. congruence.
    + destruct (contains kr k') eqn:Hin; [|done].
      apply contains_lessThan in Hin.
      rewrite (lessThan_mono kr k k') in Hin; [done|done|].
      unfold bytes_le. by rewrite (Hk k' Hk').
Qed.

Lemma in_range_app {V} kr (b1 b2 : bucket V) :
  in_range kr (b1 ++ b2) = in_range kr b1 ++ in_range kr b2.
Proof. unfold in_range. apply filter_app. Qed.

(** [Seek] stops at the entry of the key sought, when it is stored. *)
Lemma Seek_stored {V} s (b : bucket V) :
  bucket_sorted b → s ∈ keys b →
  ∃ below v rest, b = below ++ (s, v) :: rest ∧ cursor_Seek s b = (s, v) :: rest ∧
    ∀ k', k' ∈ keys below → bytes_lt k' s.
Proof.
  intros Hs Hin. destruct (Seek_sorted s b Hs) as (below & Heq & Hbelow & Habove).
  assert (s ∈ keys (cursor_Seek s b)) as Hin'.
  { rewrite Heq in Hin. unfold keys in Hin. rewrite fmap_app in Hin.
    apply elem_of_app in Hin as [Hin|Hin]; [|done].
    apply Hbelow in Hin. by apply bytes_lt_irrefl in Hin. }
  assert (bucket_sorted (cursor_Seek s b)) as Hs'.
  { eapply sorted_sublist; [|exact Hs]. rewrite Heq at 2. by apply sublist_inserts_l. }
  destruct (cursor_Seek s b) as [|[k0 v0] rest] eqn:Hseek.
  { by apply elem_of_nil in Hin'. }
  apply bucket_sorted_cons in Hs' as [_ Hk0].
  assert (k0 = s) as ->.
  { apply elem_of_cons in Hin' as [->|Hin']; [done|].
    apply Hk0 in Hin'. specialize (Habove k0 ltac:(by left)).
    by apply bytes_le_not_lt in Habove. }
  by exists below, v0, rest.
Qed.

Lemma contains_exclusive_start kr s :
  startKey kr = Some s → includeStart kr = false → contains kr s = false.
Proof.
  intros Hs Hi. unfold contains. by rewrite Hs, bytes_Compare_refl, Hi.
Qed.

(** What a scan of [dataStorage.get] hands over when the start of the
    range is inclusive, or is a stored key. *)
Lemma data_scan_in_range kr (b : bucket bytes) :
  bucket_sorted b →
  includeStart kr = true ∨ (∃ s, startKey kr = Some s ∧ s ∈ keys b) →
  data_scan kr b = map data_item (in_range kr b).
Proof.
  intros Hs Hstart. unfold data_scan.
  destruct (includeStart kr) eqn:Hincl; simpl.
  - destruct (startKey kr) as [s|] eqn:Hsk.
    2:{ exact (data_items_in_range kr b Hs). }
    destruct (Seek_sorted s b Hs) as (below & Heq & Hbelow & _).
    rewrite data_items_in_range.
    2:{ eapply sorted_sublist; [|exact Hs]. rewrite Heq at 2. by apply sublist_inserts_l. }
    rewrite Heq at 2. rewrite in_range_app, (in_range_none kr below); [done|].
    intros k Hk. eapply contains_below_start; [done|]. by apply Hbelow.
  - destruct Hstart as [|(s & Hsk & Hin)]; [done|]. rewrite Hsk.
    destruct (Seek_stored s b Hs Hin) as (below & v & rest & Heq & -> & Hbelow).
    simpl. rewrite data_items_in_range.
    2:{ eapply sorted_sublist; [|exact Hs]. rewrite Heq.
        apply sublist_inserts_l. by apply sublist_cons. }
    rewrite Heq, in_range_app, (in_range_none kr below).
    2:{ intros k Hk. eapply contains_below_start; [done|]. by apply Hbelow. }
    simpl. unfold in_range at 2. rewrite filter_cons_False; [done|].
    simpl. by rewrite (contains_exclusive_start kr s Hsk Hincl).
Qed.

Lemma dataStorage_get_items db kr :
  items (dataStorage_get (fun _ : list (result entry) => db) kr)
  = data_scan kr (data_bk db).
Proof. unfold items. by rewrite dataStorage_get_feed, feed_take_all. Qed.

Lemma Get_Delete_eq {V} k (b : bucket V) :
  bucket_sorted b → bucket_Get k (bucket_Delete k b) = None.
Proof.
  intros Hs. apply Get_None. rewrite keys_Delete by done. by intros [? _].
Qed.

Lemma Get_Delete_ne {V} j k (b : bucket V) :
  j ≠ k → bucket_Get j (bucket_Delete k b) = bucket_Get j b.
Proof.
  intros Hne. induction b as [|[k0 v0] b IH]; simpl; [done|].
  destruct (bytes_Compare k k0) eqn:E; simpl.
  - apply bytes_Compare_eq in E as <-.
    destruct (bytes_Compare j k) eqn:E'; [|done|done].
    by apply bytes_Compare_eq in E'.
  - by rewrite IH.
  - by rewrite IH.
Qed.

(** X1.  On a data bucket in key order, a scan of [dataStorage.get]
    over a range whose start is inclusive, or whose start key is a
    stored key, hands over exactly the entries whose key the range
    contains, in key order: the row of each, or the error of its
    payload when the value codec refuses it. *)
Theorem dataStorage_get_in_range (db : DB) (kr : keyRange) :
  bucket_sorted (data_bk db) →
  includeStart kr = true ∨ (∃ s, startKey kr = Some s ∧ s ∈ keys (data_bk db)) →
  items (dataStorage_get (fun _ => db) kr)
  = map data_item (in_range kr (data_bk db)).
Proof.
  intros Hs Hstart. rewrite dataStorage_get_items. by apply data_scan_in_range.
Qed.

(** X2.  A row stored by [dataStorage.insert] is read back by
    [dataStorage.get] over the range of its id, as the only item, with
    the id [insert] returned; the bucket stays in key order and the row
    of every other id is as before. *)
Theorem dataStorage_insert_get (obj : row) (db db' : DB) (idb : bytes) :
  bucket_sorted (data_bk db) →
  dataStorage_insert obj db = (db', Ok idb) →
  items (dataStorage_get (fun _ => db') (id_range idb))
  = [Ok {| id := idb; value_of := obj |}] ∧
  bucket_sorted (data_bk db') ∧
  ∀ j, j ≠ idb → bucket_Get j (data_bk db') = bucket_Get j (data_bk db).
Proof.
  intros Hs Hins.
  apply dataStorage_insert_Ok in Hins as (_ & dataBytes & Hm & ->). simpl.
  split; [|split].
  - rewrite dataStorage_get_items. simpl.
    rewrite data_scan_id by (by apply sorted_Put).
    rewrite Get_Put_eq. unfold data_item. simpl.
    by rewrite (maUn_Unmarshal_Marshal obj dataBytes Hm).
  - by apply sorted_Put.
  - intros j Hj. by apply Get_Put_ne.
Qed.


(** X4.  After [dataStorage.delete] of an id, [dataStorage.get] over
    the range of that id hands over nothing; the bucket stays in key
    order, the row of every other id is as before, and deleting an id
    that is not stored changes nothing. *)
Theorem dataStorage_delete_get (idb : bytes) (db : DB) :
  bucket_sorted (data_bk db) →
  let db' := dataStorage_delete idb db in
  items (dataStorage_get (fun _ => db') (id_range idb)) = [] ∧
  bucket_sorted (data_bk db') ∧
  (∀ j, j ≠ idb → bucket_Get j (data_bk db') = bucket_Get j (data_bk db)) ∧
  (idb ∉ keys (data_bk db) → db' = db).
Proof.
  intros Hs. simpl. split; [|split; [|split]].
  - rewrite dataStorage_get_items. simpl.
    rewrite data_scan_id by (by apply sorted_Delete).
    by rewrite Get_Delete_eq.
  - by apply sorted_Delete.
  - intros j Hj. by apply Get_Delete_ne.
  - intros Hnot. unfold dataStorage_delete, set_data.
    rewrite Delete_absent by done. by destruct db.
Qed.

End DataStore.

Lemma events_2_sorted : bucket_sorted (data_bk events_2).
Proof. rewrite events_2_data. apply bucket_sorted_two. vm_compute. reflexivity. Qed.

Lemma dataStorage_get_in_range_witness :
  items (dataStorage_get (fun _ => events_2) (op_range OpGt (id_bytes 1)))
  = map data_item (in_range (op_range OpGt (id_bytes 1)) (data_bk events_2)).
Proof.
  apply (dataStorage_get_in_range events_2 (op_range OpGt (id_bytes 1))).
  - apply events_2_sorted.
  - right. exists (id_bytes 1). split; [reflexivity|].
    rewrite events_2_data. unfold keys. simpl. by left.
Defined.

Lemma dataStorage_insert_get_witness :
  items (dataStorage_get (fun _ => (dataStorage_insert (event "c" 30) events_2).1)
           (id_range (id_bytes 3)))
  = [Ok {| id := id_bytes 3; value_of := event "c" 30 |}] ∧
  bucket_sorted (data_bk (dataStorage_insert (event "c" 30) events_2).1) ∧
  ∀ j, j ≠ id_bytes 3 →
    bucket_Get j (data_bk (dataStorage_insert (event "c" 30) events_2).1)
    = bucket_Get j (data_bk events_2).
Proof.
  apply (dataStorage_insert_get (event "c" 30) events_2).
  - apply events_2_sorted.
  - vm_compute. reflexivity.
Defined.

Lemma dataStorage_delete_get_witness :
  let db' := dataStorage_delete (id_bytes 1) events_2 in
  items (dataStorage_get (fun _ => db') (id_range (id_bytes 1))) = [] ∧
  bucket_sorted (data_bk db') ∧
  (∀ j, j ≠ id_bytes 1 → bucket_Get j (data_bk db') = bucket_Get j (data_bk events_2)) ∧
  (id_bytes 1 ∉ keys (data_bk events_2) → db' = events_2).
Proof. apply (dataStorage_delete_get (id_bytes 1) events_2), events_2_sorted. Defined.

(** ** The index store, [indexStorage] *)

Section IndexStorageProps.
Context {OL : Ordered} {MU : MarshalUnmarshaler}.

(** A bucket as [indexStorage.insert] leaves it: in key order, every
    key the encoding of a locator [[key, id]]. *)
Definition storage_ok (b : bucket unit) : Prop :=
  bucket_sorted b ∧
  ∀ raw, raw ∈ keys b →
    ∃ key idn, CanEncode1 (VUint idn) = true ∧ raw = locator_key key idn.

Lemma storage_ok_wf b : storage_ok b → storage_wf b.
Proof. intros [_ H] raw Hraw. left. by apply H. Qed.

Lemma indexStorage_key (loc : indexLocator) :
  orderedMa_Marshal (VList [VBytes (Key loc); VUint (Id loc)]) =
  if CanEncode1 (VUint (Id loc)) then Ok (locator_key (Key loc) (Id loc))
  else Err (ErrCannotMarshal (VList [VBytes (Key loc); VUint (Id loc)])).
Proof.
  unfold orderedMa_Marshal, ordered_CanEncode. simpl.
  rewrite CanEncode1_bytes. simpl.
  by destruct (CanEncode1 (VUint (Id loc))).
Qed.

Lemma indexStorage_insert_Some name loc db b :
  index_bks db !! name = Some b → CanEncode1 (VUint (Id loc)) = true →
  indexStorage_insert name loc db
  = (set_indexes <[name := bucket_Put (locator_key (Key loc) (Id loc)) () b]> db, None).
Proof. intros Hb Hc. unfold indexStorage_insert. by rewrite Hb, indexStorage_key, Hc. Qed.

Lemma indexStorage_delete_Some name loc db b :
  index_bks db !! name = Some b → CanEncode1 (VUint (Id loc)) = true →
  indexStorage_delete name loc db
  = (set_indexes <[name := bucket_Delete (locator_key (Key loc) (Id loc)) b]> db, None).
Proof. intros Hb Hc. unfold indexStorage_delete. by rewrite Hb, indexStorage_key, Hc. Qed.

Lemma storage_ok_Put key idn b :
  CanEncode1 (VUint idn) = true → storage_ok b →
  storage_ok (bucket_Put (locator_key key idn) () b).
Proof.
  intros Hc [Hs Hk]. split; [by apply sorted_Put|].
  intros raw [->|Hraw]%keys_Put; [by exists key, idn|by apply Hk].
Qed.

Lemma storage_ok_Delete raw b : storage_ok b → storage_ok (bucket_Delete raw b).
Proof.
  intros [Hs Hk]. split; [by apply sorted_Delete|].
  intros raw' [_ Hraw']%keys_Delete; [by apply Hk|done].
Qed.

(** The operations that write to the index store. *)
Inductive storage_op :=
| StoreInsert (name : string) (idxLoc : indexLocator)
| StoreDelete (name : string) (idxLoc : indexLocator).

Definition storage_step (db : DB) (op : storage_op) : DB :=
  match op with
  | StoreInsert name idxLoc => (indexStorage_insert name idxLoc db).1
  | StoreDelete name idxLoc => (indexStorage_delete name idxLoc db).1
  end.

Definition storage_run (ops : list storage_op) (db : DB) : DB :=
  foldl storage_step db ops.

Definition storage_inv (idxNames : list string) (db : DB) : Prop :=
  ∀ name, match index_bks db !! name with
          | Some b => name ∈ idxNames ∧ storage_ok b
          | None => name ∉ idxNames
          end.

Lemma storage_inv_new idxNames : storage_inv idxNames (new_DB idxNames).
Proof.
  intros name. simpl.
  destruct (list_to_map _ !! name) as [b|] eqn:Hb.
  - apply elem_of_list_to_map_2 in Hb.
    apply list_elem_of_fmap in Hb as (name' & [= -> ->] & Hin).
    split; [done|]. split; [constructor|].
    intros raw Hraw. by apply elem_of_nil in Hraw.
  - apply not_elem_of_list_to_map_2 in Hb. intros Hin. apply Hb.
    rewrite <- list_fmap_compose. simpl. by rewrite list_fmap_id.
Qed.

Lemma storage_inv_step idxNames db op :
  storage_inv idxNames db → storage_inv idxNames (storage_step db op).
Proof.
  intros Hinv name'. destruct op as [name loc|name loc]; simpl.
  - unfold indexStorage_insert. pose proof (Hinv name) as Hname.
    destruct (index_bks db !! name) as [b|] eqn:Hb; [|apply Hinv].
    rewrite indexStorage_key.
    destruct (CanEncode1 (VUint (Id loc))) eqn:Hc; [|apply Hinv]. simpl.
    destruct (decide (name' = name)) as [->|Hne].
    + rewrite lookup_insert_eq. destruct Hname as [Hin Hok].
      split; [done|]. by apply storage_ok_Put.
    + rewrite lookup_insert_ne by done. apply Hinv.
  - unfold indexStorage_delete. pose proof (Hinv name) as Hname.
    destruct (index_bks db !! name) as [b|] eqn:Hb; [|apply Hinv].
    rewrite indexStorage_key.
    destruct (CanEncode1 (VUint (Id loc))) eqn:Hc; [|apply Hinv]. simpl.
    destruct (decide (name' = name)) as [->|Hne].
    + rewrite lookup_insert_eq. destruct Hname as [Hin Hok].
      split; [done|]. by apply storage_ok_Delete.
    + rewrite lookup_insert_ne by done. apply Hinv.
Qed.

Lemma storage_inv_run idxNames ops db :
  storage_inv idxNames db → storage_inv idxNames (storage_run ops db).
Proof.
  unfold storage_run. revert db.
  induction ops as [|op ops IH]; intros db Hinv; simpl; [done|].
  apply IH. by apply storage_inv_step.
Qed.

Lemma indexStorage_get_items name kr db b :
  index_bks db !! name = Some b → storage_ok b →
  ∃ it, indexStorage_get (fun _ : list (result N) => db) name kr db = Ok it ∧
    items it = storage_sel kr b.
Proof.
  intros Hb Hok. unfold indexStorage_get. rewrite Hb. eexists. split; [done|].
  unfold items. simpl.
  pose proof (storage_scan_sel kr b (proj1 Hok) (storage_ok_wf b Hok)) as Hsel.
  destruct (startKey kr) as [s|].
  - unfold orderedMa_Marshal, ordered_CanEncode, ordered_Encode. simpl.
    rewrite CanEncode1_bytes. simpl. rewrite app_nil_r.
    by rewrite indexStorage_get_loop_feed, feed_take_all, Hsel.
  - by rewrite indexStorage_get_loop_feed, feed_take_all, Hsel.
Qed.

Lemma storage_sel_elem kr (b : bucket unit) x :
  x ∈ storage_sel kr b ↔
  ∃ raw key idn, raw ∈ keys b ∧ storage_entry raw = Some (key, idn) ∧
    contains kr key = true ∧ x = Ok idn.
Proof.
  unfold storage_sel, keys. rewrite list_elem_of_omap. split.
  - intros ([raw u] & Hin & He). simpl in He.
    destruct (storage_entry raw) as [[key idn]|] eqn:Hraw; [|done]. simpl in He.
    destruct (contains kr key) eqn:Hc; [|done]. injection He as <-.
    exists raw, key, idn. split; [|done]. apply list_elem_of_fmap. by exists (raw, u).
  - intros (raw & key & idn & (kv & -> & Hin)%list_elem_of_fmap & He & Hc & ->).
    exists kv. split; [done|]. rewrite He. simpl. by rewrite Hc.
Qed.

(** X5.  After any sequence of [indexStorage.insert] and
    [indexStorage.delete] on a fresh index store, the bucket of each of
    its index names is in key order and holds only keys that decode to
    a locator [[key, id]], and [indexStorage.get] over any range hands
    over, in key order and without an error item, exactly the ids of
    the stored keys whose leading bytes the range contains. *)
Theorem indexStorage_get_after_writes (idxNames : list string)
    (ops : list storage_op) (name : string) (kr : keyRange) :
  name ∈ idxNames →
  let db := storage_run ops (new_DB idxNames) in
  ∃ b it, index_bks db !! name = Some b ∧ bucket_sorted b ∧
    (∀ raw, raw ∈ keys b →
       ∃ key idn, raw = locator_key key idn ∧ storage_entry raw = Some (key, idn)) ∧
    indexStorage_get (fun _ => db) name kr db = Ok it ∧
    items it = storage_sel kr b.
Proof.
  intros Hin db.
  pose proof (storage_inv_run idxNames ops _ (storage_inv_new idxNames) name) as Hinv.
  fold db in Hinv. destruct (index_bks db !! name) as [b|] eqn:Hb; [|done].
  destruct Hinv as [_ Hok].
  destruct (indexStorage_get_items name kr db b Hb Hok) as (it & Hit & Hitems).
  exists b, it. split; [done|]. split; [apply Hok|]. split; [|done].
  intros raw Hraw. destruct (proj2 Hok raw Hraw) as (key & idn & Hc & ->).
  exists key, idn. split; [done|]. by apply storage_entry_locator.
Qed.

(** X6.  A locator stored by [indexStorage.insert] is found by
    [indexStorage.get]: over a range that contains its key the scan
    hands over its id, and it hands over every id it did before the
    insert and nothing else. *)
Theorem indexStorage_insert_get (name : string) (idxLoc : indexLocator)
    (kr : keyRange) (db : DB) (b : bucket unit) :
  index_bks db !! name = Some b → storage_ok b → (Id idxLoc < 2 ^ 64)%N →
  ∃ db' it, indexStorage_insert name idxLoc db = (db', None) ∧
    indexStorage_get (fun _ => db') name kr db' = Ok it ∧
    (contains kr (Key idxLoc) = true → Ok (Id idxLoc) ∈ items it) ∧
    (∀ x, x ∈ storage_sel kr b → x ∈ items it) ∧
    (∀ x, x ∈ items it →
       x ∈ storage_sel kr b ∨ (x = Ok (Id idxLoc) ∧ contains kr (Key idxLoc) = true)).
Proof.
  intros Hb Hok Hid. apply CanEncode1_uint in Hid.
  rewrite (indexStorage_insert_Some name idxLoc db b Hb Hid).
  set (raw := locator_key (Key idxLoc) (Id idxLoc)).
  set (db' := set_indexes _ db).
  assert (index_bks db' !! name = Some (bucket_Put raw () b)) as Hb'.
  { unfold db'. simpl. apply lookup_insert_eq. }
  destruct (indexStorage_get_items name kr db' _ Hb' (storage_ok_Put _ _ b Hid Hok))
    as (it & Hit & Hitems).
  exists db', it. split; [done|]. split; [done|]. rewrite Hitems.
  pose proof (proj2 (storage_entry_locator (Key idxLoc) (Id idxLoc) Hid)) as Hraw.
  split; [|split].
  - intros Hc. apply storage_sel_elem. exists raw, (Key idxLoc), (Id idxLoc).
    split; [|done]. apply keys_Put. by left.
  - intros x (raw' & key & idn & Hin & He & Hc & ->)%storage_sel_elem.
    apply storage_sel_elem. exists raw', key, idn. split; [|done].
    apply keys_Put. by right.
  - intros x (raw' & key & idn & Hin & He & Hc & ->)%storage_sel_elem.
    apply keys_Put in Hin as [->|Hin].
    + right. fold raw in Hraw. rewrite Hraw in He. by injection He as <- <-.
    + left. apply storage_sel_elem. by exists raw', key, idn.
Qed.

(** X7.  [indexStorage.delete] undoes [indexStorage.insert]: when
    the key of a locator is not stored, inserting the locator and then
    deleting it leaves the index store as it was, and deleting it
    without the insert changes nothing and is no error. *)
Theorem indexStorage_insert_delete (name : string) (idxLoc : indexLocator)
    (db : DB) (b : bucket unit) :
  index_bks db !! name = Some b → (Id idxLoc < 2 ^ 64)%N →
  locator_key (Key idxLoc) (Id idxLoc) ∉ keys b →
  (∃ db1, indexStorage_insert name idxLoc db = (db1, None) ∧
     indexStorage_delete name idxLoc db1 = (db, None)) ∧
  indexStorage_delete name idxLoc db = (db, None).
Proof.
  intros Hb Hid Hfresh. apply CanEncode1_uint in Hid.
  assert (∀ db0 : DB, set_indexes <[name := b]> db0 = db0 ∨ index_bks db0 !! name ≠ Some b)
    as Hsame.
  { intros db0. destruct (decide (index_bks db0 !! name = Some b)) as [H|H]; [|by right].
    left. unfold set_indexes. rewrite insert_id by done. by destruct db0. }
  split.
  - rewrite (indexStorage_insert_Some name idxLoc db b Hb Hid).
    eexists. split; [done|].
    erewrite indexStorage_delete_Some; [|apply lookup_insert_eq|done].
    rewrite Delete_Put by done. unfold set_indexes. simpl.
    rewrite insert_insert_eq, insert_id by done. by destruct db.
  - rewrite (indexStorage_delete_Some name idxLoc db b Hb Hid).
    rewrite Delete_absent by done.
    by destruct (Hsame db) as [->|?].
Qed.

End IndexStorageProps.

Definition loc_ops : list storage_op :=
  [StoreInsert "loc" {| Key := loc_key; Id := 1 |};
   StoreInsert "loc" {| Key := loc_key; Id := 2 |};
   StoreDelete "loc" {| Key := loc_key; Id := 1 |}].

Lemma indexStorage_get_after_writes_witness :
  let db := storage_run loc_ops (new_DB ["loc"]) in
  ∃ b it, index_bks db !! "loc" = Some b ∧ bucket_sorted b ∧
    (∀ raw, raw ∈ keys b →
       ∃ key idn, raw = locator_key key idn ∧ storage_entry raw = Some (key, idn)) ∧
    indexStorage_get (fun _ => db) "loc" full_range db = Ok it ∧
    items it = storage_sel full_range b.
Proof.
  apply (indexStorage_get_after_writes ["loc"] loc_ops "loc" full_range).
  by left.
Defined.

Lemma storage_ok_loc_1 : storage_ok [(locator_key loc_key 1, ())].
Proof.
  split; [repeat constructor|]. intros raw Hraw.
  apply list_elem_of_singleton in Hraw as ->. exists loc_key, 1%N.
  split; [|done]. vm_compute. reflexivity.
Qed.

Lemma indexStorage_insert_get_witness :
  ∃ db' it,
    indexStorage_insert "loc" {| Key := loc_key; Id := 2 |} loc_1 = (db', None) ∧
    indexStorage_get (fun _ => db') "loc" full_range db' = Ok it ∧
    (contains full_range loc_key = true → Ok 2%N ∈ items it) ∧
    (∀ x, x ∈ storage_sel full_range [(locator_key loc_key 1, ())] → x ∈ items it) ∧
    (∀ x, x ∈ items it →
       x ∈ storage_sel full_range [(locator_key loc_key 1, ())]
       ∨ (x = Ok 2%N ∧ contains full_range loc_key = true)).
Proof.
  apply (indexStorage_insert_get "loc" {| Key := loc_key; Id := 2 |} full_range loc_1
           [(locator_key loc_key 1, ())]).
  - apply loc_1_bucket.
  - apply storage_ok_loc_1.
  - simpl. lia.
Defined.

Lemma indexStorage_insert_delete_witness :
  (∃ db1, indexStorage_insert "loc" {| Key := loc_key; Id := 2 |} loc_1 = (db1, None) ∧
     indexStorage_delete "loc" {| Key := loc_key; Id := 2 |} db1 = (loc_1, None)) ∧
  indexStorage_delete "loc" {| Key := loc_key; Id := 2 |} loc_1 = (loc_1, None).
Proof.
  apply (indexStorage_insert_delete "loc" {| Key := loc_key; Id := 2 |} loc_1
           [(locator_key loc_key 1, ())]).
  - apply loc_1_bucket.
  - simpl. lia.
  - simpl. intros Hin. apply list_elem_of_singleton in Hin.
    vm_compute in Hin. discriminate Hin.
Defined.

(** ** The scans of [Select] *)

Section SelectScans.
Context {OL : Ordered} {MU : MarshalUnmarshaler}.

(** What the full scan of [Select] makes of a stored entry: the error
    of the value codec or of [matchOps], the row when it passes,
    nothing when it does not. *)
Definition full_scan_item (pr : Persistent) (ranges : gmap string keyRange)
    (kv : bytes * bytes) : option (result row) :=
  match maUn_Unmarshal kv.2 with
  | Err err => Some (Err err)
  | Ok val =>
      match matchOps pr val ranges "" with
      | Err err => Some (Err err)
      | Ok matches => if matches then Some (Ok val) else None
      end
  end.

Lemma full_scan_item_body pr ranges (b : bucket bytes) :
  map Select_item (omap (body_item pr ranges "") (map data_item b))
  = omap (full_scan_item pr ranges) b.
Proof.
  induction b as [|[k v] b IH]; simpl in *; [done|].
  unfold full_scan_item, data_item at 1. simpl.
  destruct (maUn_Unmarshal v) as [val|err]; simpl; [|f_equal; exact IH].
  destruct (matchOps pr val ranges "") as [[]|err]; simpl;
    first [exact IH | f_equal; exact IH].
Qed.

Lemma Select_full_scan pr ranges db :
  items (fun yield w =>
    full_scan (fun _ : list (result row) => db) pr ranges
      (fun item w =>
         match item with
         | Err err => yield (Err err) w
         | Ok e => yield (Ok (value_of e)) w
         end) w)
  = omap (full_scan_item pr ranges) (data_bk db).
Proof.
  rewrite <- full_scan_item_body, <- Select_full_scan_items.
  reflexivity.
Qed.

Lemma selected_indexes_empty pr : selected_indexes pr ∅ = [].
Proof.
  unfold selected_indexes. induction (allIndexes pr) as [|c l IH]; [done|].
  rewrite filter_cons_False; [done|].
  rewrite lookup_empty. by intros [? ?].
Qed.

Lemma matchOps_no_ranges pr val skip : matchOps pr val ∅ skip = Ok true.
Proof. unfold matchOps. by rewrite map_to_list_empty. Qed.

(** X8.  When no range falls on an index of [allIndexes], [Select]
    scans the whole data bucket in key order and hands over, for each
    stored entry in turn: the error of the value codec when it refuses
    the payload; else the error of [matchOps] when it fails on the row;
    else the row when it passes every range, and nothing when it does
    not. *)
Theorem Select_full_scan_in_order (distance : keyRange → bytes) (pr : Persistent)
    (ops : list Op) (db : DB) (ranges : gmap string keyRange) :
  toRanges ops = Ok ranges →
  selected_indexes pr ranges = [] →
  ∃ it, Select distance (fun _ => db) pr ops db = Ok it ∧
    items it = omap (full_scan_item pr ranges) (data_bk db).
Proof.
  intros Hr Hsel. unfold Select, iter. rewrite Hr. simpl. rewrite Hsel. simpl.
  eexists. split; [done|]. apply Select_full_scan.
Qed.

(** X9.  [Select] without predicates hands over every stored row, in
    the key order of the data bucket (the order of the row ids), an
    entry whose payload the value codec refuses giving the error in its
    place. *)
Theorem Select_no_ops_yields_all (distance : keyRange → bytes) (pr : Persistent)
    (db : DB) :
  ∃ it, Select distance (fun _ => db) pr [] db = Ok it ∧
    items it = map (fun kv => maUn_Unmarshal kv.2) (data_bk db).
Proof.
  unfold Select, iter. simpl. rewrite selected_indexes_empty. simpl.
  eexists. split; [done|]. rewrite Select_full_scan.
  induction (data_bk db) as [|[k v] b IH]; simpl in *; [done|].
  unfold full_scan_item. simpl.
  destruct (maUn_Unmarshal v) as [val|err]; simpl; [|f_equal; exact IH].
  rewrite matchOps_no_ranges. simpl. f_equal. exact IH.
Qed.









End SelectScans.

Definition notes_ops : list Op := [EqOp "id" (VStr "1")].

Lemma Select_full_scan_in_order_witness :
  ∃ it, Select no_distance (fun _ => notes_1) notes notes_ops notes_1 = Ok it ∧
    items it
    = omap (full_scan_item notes {[ "id" := op_range OpEq (Encode1 (VStr "1")) ]})
        (data_bk notes_1).
Proof.
  apply (Select_full_scan_in_order no_distance notes notes_ops notes_1).
  - vm_compute. reflexivity.
  - reflexivity.
Defined.


(** ** [Insert] and the invariants of the data model *)

Section InsertConsistent.
Context {OL : Ordered} {MU : MarshalUnmarshaler}.

(** A row that passes the schema check of [Insert] has the columns of
    the relation as its fields, when no column is declared twice. *)
Lemma schema_check_fields (obj : row) (cols : list string) :
  NoDup cols → size obj = length cols →
  (∀ col, col ∈ cols → is_Some (obj !! col)) →
  ∀ col, is_Some (obj !! col) ↔ col ∈ cols.
Proof.
  intros Hnd Hsize Hall col. split; [|apply Hall].
  assert (list_to_set cols = (dom obj : gset string)) as Heq.
  { apply set_subseteq_size_eq.
    - intros c Hc. apply elem_of_dom, Hall. by apply elem_of_list_to_set in Hc.
    - rewrite size_dom, size_list_to_set by done. lia. }
  intros Hsome. apply elem_of_dom in Hsome. rewrite <- Heq in Hsome.
  by apply elem_of_list_to_set in Hsome.
Qed.

(** The bucket of an index after a successful [Insert]: the key of the
    row has been put in it. *)
Lemma Insert_index_bucket pr obj db db' c b :
  schema_ok pr → Insert pr obj db = (db', None) →
  is_Some (indexesMeta pr !! c) ∨ is_Some (uniquesMeta pr !! c) →
  index_bks db !! c = Some b →
  ordered_CanEncode (key_parts obj (index_cols pr c)) = true ∧
  index_bks db' !! c
  = Some (bucket_Put (row_index_key obj (id_bytes (next_id db)) (index_cols pr c)) () b).
Proof.
  intros Hok Hins Hdecl Hb.
  apply Insert_None in Hins
    as (_ & _ & dataBytes & dbA & dbB & dbC & rev1 & rev2 & _ & HA & _ & HB & HC & ->).
  simpl in *.
  assert (index_bks dbA !! c = Some b) as HbA by (by rewrite HA).
  pose proof (insert_indexes_lookup _ _ _ _ _ _ _
                (NoDup_fst_map_to_list (indexesMeta pr)) HB c) as [HlB _].
  pose proof (insert_indexes_lookup _ _ _ _ _ _ _
                (NoDup_fst_map_to_list (uniquesMeta pr)) HC c) as [HlC _].
  rewrite list_to_map_to_list in HlB, HlC.
  pose proof (insert_indexes_Ok _ _ _ _ _ _ _ HB c) as HcB.
  pose proof (insert_indexes_Ok _ _ _ _ _ _ _ HC c) as HcC.
  unfold index_cols.
  destruct (indexesMeta pr !! c) as [cols|] eqn:Hi.
  - destruct (HcB cols) as [Hcan _]; [by apply elem_of_map_to_list|].
    split; [done|]. rewrite HlC, HlB, HbA. simpl.
    destruct (uniquesMeta pr !! c) as [cols'|] eqn:Hu; [|done].
    rewrite <- (Hok c cols cols' Hi Hu). simpl. by rewrite Put_Put.
  - destruct Hdecl as [[? ?]|[cols' Hu]]; [done|]. rewrite Hu in *. simpl.
    destruct (HcC cols') as [Hcan _]; [by apply elem_of_map_to_list|].
    split; [done|]. by rewrite HlC, HlB, HbA.
Qed.

Lemma Insert_data_bucket pr obj db db' :
  Insert pr obj db = (db', None) →
  ∃ dataBytes, maUn_Marshal obj = Ok dataBytes ∧
    data_bk db' = bucket_Put (id_bytes (next_id db)) dataBytes (data_bk db).
Proof.
  intros Hins.
  apply Insert_None in Hins
    as (_ & _ & dataBytes & dbA & dbB & dbC & rev1 & rev2 & Hm & HA & _ & HB & HC & ->).
  exists dataBytes. split; [done|]. simpl in *.
  pose proof (insert_indexes_ind (fun _ => True) (map_to_list (indexesMeta pr))
                obj (id_bytes (next_id db)) ∅ dbA) as HiB.
  pose proof (insert_indexes_ind (fun _ => True) (map_to_list (uniquesMeta pr))
                obj (id_bytes (next_id db)) rev1 dbB) as HiC.
  rewrite HB in HiB. rewrite HC in HiC. simpl in *.
  destruct HiB as (_ & HdB & _); [done..|].
  destruct HiC as (_ & HdC & _); [done..|].
  by rewrite HdC, HdB, HA.
Qed.

(** The rows of the data bucket after a successful [Insert] that took
    an id not in use. *)
Lemma Insert_rows pr obj db db' :
  bucket_sorted (data_bk db) →
  id_bytes (next_id db) ∉ keys (data_bk db) →
  Insert pr obj db = (db', None) →
  ∀ idb payload val,
    ((idb, payload) ∈ data_bk db' ∧ maUn_Unmarshal payload = Ok val) ↔
    (idb = id_bytes (next_id db) ∧ maUn_Marshal obj = Ok payload ∧ val = obj) ∨
    ((idb, payload) ∈ data_bk db ∧ maUn_Unmarshal payload = Ok val).
Proof.
  intros Hs Hfresh Hins idb payload val.
  destruct (Insert_data_bucket pr obj db db' Hins) as (dataBytes & Hm & ->).
  rewrite elem_of_Put by done. split.
  - intros [[[-> ->]|[Hne Hin]] Hu]; [left|by right].
    rewrite (maUn_Unmarshal_Marshal obj dataBytes Hm) in Hu. by injection Hu as <-.
  - intros [(-> & Hm' & ->)|[Hin Hu]].
    + assert (payload = dataBytes) as -> by congruence.
      split; [by left|]. by apply maUn_Unmarshal_Marshal.
    + split; [|done]. right. split; [|done]. intros ->. apply Hfresh.
      apply list_elem_of_fmap. by exists (id_bytes (next_id db), payload).
Qed.

Lemma store_consistent_Insert pr obj db db' :
  schema_ok pr → NoDup (columns pr) →
  store_consistent pr db →
  id_bytes (next_id db) ∉ keys (data_bk db) →
  Insert pr obj db = (db', None) →
  store_consistent pr db'.
Proof.
  intros Hok Hnd (Hsorted & Hrows & Hidx) Hfresh Hins.
  pose proof (Insert_rows pr obj db db' Hsorted Hfresh Hins) as Hnew.
  destruct (Insert_data_bucket pr obj db db' Hins) as (dataBytes & Hm & Hdata).
  pose proof (Insert_None pr obj db db' Hins) as (Hsize & Hall & _).
  split; [|split].
  - rewrite Hdata. by apply sorted_Put.
  - intros idb payload Hin. rewrite Hdata in Hin.
    apply elem_of_Put in Hin as [[-> ->]|[_ Hin]]; [|by apply (Hrows idb)|done].
    exists obj. split; [by apply maUn_Unmarshal_Marshal|].
    by apply schema_check_fields.
  - intros c Hc.
    destruct (Hidx c Hc) as (Hdecl & Hcol & Hcols & Hcan & b & Hb & Hbs & Hkeys).
    destruct (Insert_index_bucket pr obj db db' c b Hok Hins Hdecl Hb) as [Hcanobj Hb'].
    split; [done|]. split; [done|]. split; [done|]. split.
    + intros idb payload val Hin Hu.
      destruct (proj1 (Hnew idb payload val) (conj Hin Hu)) as [(_ & _ & ->)|[Hin' Hu']];
        [done|eauto].
    + eexists. split; [exact Hb'|]. split; [by apply sorted_Put|].
      intros key. rewrite keys_Put, Hkeys. split.
      * intros [->|(idb & payload & val & Hin & Hu & ->)].
        -- exists (id_bytes (next_id db)), dataBytes, obj.
           split; [|split; [by apply maUn_Unmarshal_Marshal|done]].
           rewrite Hdata. apply elem_of_Put; [done|]. by left.
        -- exists idb, payload, val. split; [|done].
           apply (proj2 (Hnew idb payload val)). by right.
      * intros (idb & payload & val & Hin & Hu & ->).
        destruct (proj1 (Hnew idb payload val) (conj Hin Hu))
          as [(-> & _ & ->)|[Hin' Hu']]; [by left|].
        right. by exists idb, payload, val.
Qed.


(** What the declarations of a relation must be for the invariants
    to hold: the same columns for a name declared both as an index and
    as a unique index, no column twice, and every index of
    [allIndexes] with a bucket, declared, over columns of the
    relation, a single-column index bearing the name of its column. *)
Definition schema_wf (pr : Persistent) (idxNames : list string) : Prop :=
  schema_ok pr ∧ NoDup (columns pr) ∧
  ∀ c, c ∈ allIndexes pr →
    c ∈ idxNames ∧
    (is_Some (indexesMeta pr !! c) ∨ is_Some (uniquesMeta pr !! c)) ∧
    (c ∈ columns pr → index_cols pr c = [c]) ∧
    (∀ col, col ∈ index_cols pr c → col ∈ columns pr).

(** [Insert] of the rows of a list in turn, up to the first error. *)
Fixpoint Insert_all (pr : Persistent) (objs : list row) (db : DB)
    : DB * option error :=
  match objs with
  | [] => (db, None)
  | obj :: objs' =>
      match Insert pr obj db with
      | (db', None) => Insert_all pr objs' db'
      | (db', Some err) => (db', Some err)
      end
  end.

(** The keys of the data bucket are the ids the sequence has given. *)
Definition ids_inv (db : DB) : Prop :=
  ∀ k, k ∈ keys (data_bk db) → ∃ n, (1 ≤ n ≤ data_seq db)%N ∧ k = id_bytes n.

Lemma id_bytes_inj n m :
  (n < 2 ^ 64)%N → (m < 2 ^ 64)%N → id_bytes n = id_bytes m → n = m.
Proof.
  intros Hn Hm Heq. apply CanEncode1_uint in Hn, Hm.
  assert (DecodeAny (id_bytes n) = DecodeAny (id_bytes m)) as Hd by (by rewrite Heq).
  unfold id_bytes in Hd. rewrite !DecodeAny_Encode in Hd.
  2,3: unfold ordered_CanEncode; simpl; by rewrite ?Hn, ?Hm.
  simpl in Hd. injection Hd as Hd.
  apply (f_equal value_uint64) in Hd. rewrite !canon_uint in Hd by done.
  by injection Hd.
Qed.

Lemma ids_inv_fresh db :
  ids_inv db → (data_seq db + 1 < 2 ^ 64)%N →
  id_bytes (next_id db) ∉ keys (data_bk db).
Proof.
  intros Hinv Hlt Hin. destruct (Hinv _ Hin) as (n & Hn & Heq).
  unfold next_id in Heq. rewrite N.mod_small in Heq by done.
  apply id_bytes_inj in Heq; lia.
Qed.

Lemma Insert_data_seq pr obj db db' :
  Insert pr obj db = (db', None) → data_seq db' = next_id db.
Proof.
  intros Hins.
  apply Insert_None in Hins
    as (_ & _ & dataBytes & dbA & dbB & dbC & rev1 & rev2 & Hm & HA & _ & HB & HC & ->).
  simpl in *.
  pose proof (insert_indexes_ind (fun _ => True) (map_to_list (indexesMeta pr))
                obj (id_bytes (next_id db)) ∅ dbA) as HiB.
  pose proof (insert_indexes_ind (fun _ => True) (map_to_list (uniquesMeta pr))
                obj (id_bytes (next_id db)) rev1 dbB) as HiC.
  rewrite HB in HiB. rewrite HC in HiC. simpl in *.
  destruct HiB as (_ & _ & HsB & _); [done..|].
  destruct HiC as (_ & _ & HsC & _); [done..|].
  by rewrite HsC, HsB, HA.
Qed.

Lemma ids_inv_Insert pr obj db db' :
  ids_inv db → (data_seq db + 1 < 2 ^ 64)%N →
  Insert pr obj db = (db', None) → ids_inv db'.
Proof.
  intros Hinv Hlt Hins k Hk.
  rewrite (Insert_data_seq pr obj db db' Hins).
  destruct (Insert_data_bucket pr obj db db' Hins) as (dataBytes & _ & Hdata).
  rewrite Hdata in Hk. unfold next_id in *. rewrite N.mod_small in * by done.
  apply keys_Put in Hk as [->|Hk].
  - exists (data_seq db + 1)%N. split; [lia|done].
  - destruct (Hinv k Hk) as (n & Hn & ->). exists n. split; [lia|done].
Qed.

Lemma new_DB_lookup idxNames c :
  c ∈ idxNames → index_bks (new_DB idxNames) !! c = Some [].
Proof.
  intros Hin. simpl.
  destruct (list_to_map _ !! c) as [b|] eqn:Hb.
  - apply elem_of_list_to_map_2 in Hb.
    by apply list_elem_of_fmap in Hb as (name' & [= -> ->] & _).
  - apply not_elem_of_list_to_map_2 in Hb. exfalso. apply Hb.
    rewrite <- list_fmap_compose. simpl. by rewrite list_fmap_id.
Qed.

Lemma store_consistent_new pr idxNames :
  schema_wf pr idxNames → store_consistent pr (new_DB idxNames).
Proof.
  intros (_ & _ & Hidx). split; [constructor|]. split.
  - intros idb payload Hin. by apply elem_of_nil in Hin.
  - intros c Hc. destruct (Hidx c Hc) as (Hin & Hdecl & Hcol & Hcols).
    split; [done|]. split; [done|]. split; [done|]. split.
    + intros idb payload val Hin'. by apply elem_of_nil in Hin'.
    + exists []. split; [by apply new_DB_lookup|]. split; [constructor|].
      intros key. split.
      * intros Hk. by apply elem_of_nil in Hk.
      * intros (idb & payload & val & Hin' & _). by apply elem_of_nil in Hin'.
Qed.

Lemma store_consistent_Insert_all pr objs db db' :
  schema_ok pr → NoDup (columns pr) →
  store_consistent pr db → ids_inv db →
  (data_seq db + N.of_nat (length objs) < 2 ^ 64)%N →
  Insert_all pr objs db = (db', None) →
  store_consistent pr db' ∧ ids_inv db' ∧
  data_seq db' = (data_seq db + N.of_nat (length objs))%N.
Proof.
  intros Hok Hnd. revert db.
  induction objs as [|obj objs IH]; intros db Hcons Hids Hlt Hall; simpl in *.
  - injection Hall as <-. split; [done|]. split; [done|]. lia.
  - destruct (Insert pr obj db) as [db1 [err|]] eqn:Hins; [done|].
    assert (data_seq db + 1 < 2 ^ 64)%N as Hlt1 by lia.
    assert (data_seq db1 = data_seq db + 1)%N as Hseq.
    { rewrite (Insert_data_seq pr obj db db1 Hins). unfold next_id.
      by rewrite N.mod_small. }
    destruct (IH db1) as (Hc' & Hi' & Hs'); [| |lia|done|].
    + eapply store_consistent_Insert; [done..| |done]. by apply ids_inv_fresh.
    + by eapply ids_inv_Insert.
    + split; [done|]. split; [done|]. lia.
Qed.

(** X11.  The invariants of the data model hold after any list of
    rows has been inserted with success into a fresh store, as long as
    the sequence of row ids has not run through its 2^64 values: the
    data bucket is in key order, every stored row has the columns of the
    relation, and the bucket of every index holds exactly one key per
    stored row, made of the row's key values and its id. *)
Theorem inserts_keep_store_consistent (pr : Persistent) (idxNames : list string)
    (objs : list row) (db : DB) :
  schema_wf pr idxNames →
  (N.of_nat (length objs) < 2 ^ 64)%N →
  Insert_all pr objs (new_DB idxNames) = (db, None) →
  store_consistent pr db ∧ data_seq db = N.of_nat (length objs).
Proof.
  intros Hwf Hlen Hall. pose proof Hwf as (Hok & Hnd & _).
  destruct (store_consistent_Insert_all pr objs (new_DB idxNames) db Hok Hnd)
    as (Hc & _ & Hs); try done.
  - by apply store_consistent_new.
  - intros k Hk. by apply elem_of_nil in Hk.
Qed.

(** The rows [Select] yields on a consistent store, on either path
    of the planner. *)
Lemma Select_rows_spec (distance : keyRange → bytes) pr ops db ranges :
  store_consistent pr db →
  toRanges ops = Ok ranges → ranges !! "" = None →
  ∃ it, Select distance (fun _ : list (result row) => db) pr ops db = Ok it ∧
    ∀ val, val ∈ rows_yielded (items it) ↔ val ∈ spec_full_scan pr ranges db.
Proof.
  intros Hcons Hranges Hempty. unfold Select, iter. rewrite Hranges. simpl.
  destruct (selected_indexes pr ranges) as [|idx0 idxs] eqn:Hs.
  - simpl. eexists. split; [done|]. intros val.
    rewrite <- (full_scan_rows pr db ranges val Hempty).
    by rewrite <- Select_full_scan_items.
  - set (chosen := MinFunc idx0 idxs (distance_cmp distance ranges)).
    assert (chosen ∈ selected_indexes pr ranges) as Hchosen.
    { destruct (MinFunc_split (fun name => distance (range_at ranges name)) idx0 idxs)
        as (l1 & l2 & Heq & _).
      rewrite Hs, Heq. apply elem_of_app. right. by left. }
    apply list_elem_of_filter in Hchosen as [[R HR] Hall].
    pose proof Hcons as (_ & _ & Hidx).
    destruct (Hidx chosen Hall) as (_ & _ & _ & _ & b & Hb & _).
    unfold IndexStore_get. rewrite Hb. simpl.
    eexists. split; [reflexivity|]. intros val.
    pose proof (Select_index_scan_items pr ranges chosen (index_arity pr chosen)
                  (range_at ranges chosen) db) as Hitems.
    pose proof (index_scan_rows pr db ranges chosen R val Hcons Hall HR) as Hrows.
    rewrite Hb in Hitems, Hrows. simpl in Hitems, Hrows.
    rewrite Hitems, rows_yielded_elem.
    unfold range_at. rewrite HR. simpl. rewrite Hrows.
    by rewrite <- (spec_full_scan_rows pr db ranges chosen R val Hcons Hall HR).
Qed.

Lemma spec_full_scan_elem pr ranges db val :
  val ∈ spec_full_scan pr ranges db ↔
  ∃ idb payload, (idb, payload) ∈ data_bk db ∧ maUn_Unmarshal payload = Ok val ∧
    spec_matches pr val ranges = true.
Proof.
  unfold spec_full_scan. rewrite list_elem_of_omap. split.
  - intros ([idb payload] & Hin & Hv). simpl in Hv.
    destruct (maUn_Unmarshal payload) as [r|] eqn:Hu; [|done].
    destruct (spec_matches pr r ranges) eqn:Hm; [|done]. injection Hv as ->.
    by exists idb, payload.
  - intros (idb & payload & Hin & Hu & Hm). exists (idb, payload).
    split; [done|]. simpl. by rewrite Hu, Hm.
Qed.

(** X12.  After a successful [Insert] on a consistent store, [Select]
    yields the inserted row exactly when it passes every range of the
    predicates, and besides it the rows that pass them among those
    stored before, whichever path the planner takes. *)
Theorem Select_after_Insert (distance : keyRange → bytes) (pr : Persistent)
    (obj : row) (db db' : DB) (ops : list Op) (ranges : gmap string keyRange) :
  schema_ok pr → NoDup (columns pr) →
  store_consistent pr db →
  id_bytes (next_id db) ∉ keys (data_bk db) →
  Insert pr obj db = (db', None) →
  toRanges ops = Ok ranges → ranges !! "" = None →
  ∃ it, Select distance (fun _ => db') pr ops db' = Ok it ∧
    ∀ val, val ∈ rows_yielded (items it) ↔
      (val = obj ∧ spec_matches pr obj ranges = true) ∨
      val ∈ spec_full_scan pr ranges db.
Proof.
  intros Hok Hnd Hcons Hfresh Hins Hranges Hempty.
  pose proof (store_consistent_Insert pr obj db db' Hok Hnd Hcons Hfresh Hins) as Hcons'.
  destruct (Select_rows_spec distance pr ops db' ranges Hcons' Hranges Hempty)
    as (it & Hit & Hrows).
  exists it. split; [done|]. intros val. rewrite Hrows, !spec_full_scan_elem.
  pose proof (Insert_rows pr obj db db' (proj1 Hcons) Hfresh Hins) as Hnew.
  destruct (Insert_data_bucket pr obj db db' Hins) as (dataBytes & Hm & _).
  split.
  - intros (idb & payload & Hin & Hu & Hmatch).
    destruct (proj1 (Hnew idb payload val) (conj Hin Hu)) as [(_ & _ & ->)|[Hin' _]].
    + by left.
    + right. by exists idb, payload.
  - intros [[-> Hmatch]|(idb & payload & Hin & Hu & Hmatch)].
    + exists (id_bytes (next_id db)), dataBytes.
      destruct (proj2 (Hnew (id_bytes (next_id db)) dataBytes obj)) as [Hin Hu];
        [by left|done].
    + exists idb, payload.
      destruct (proj2 (Hnew idb payload val)) as [Hin' Hu']; [by right|done].
Qed.

End InsertConsistent.

Lemma schema_wf_events : schema_wf events ["ts"].
Proof.
  split; [|split].
  - intros name cols cols' _ Hu. simpl in Hu. by rewrite lookup_empty in Hu.
  - simpl. repeat constructor; set_solver.
  - intros c Hc. apply list_elem_of_singleton in Hc as ->.
    split; [by left|]. split; [left; vm_compute; eauto|]. split; [done|].
    intros col Hcol.
    assert (index_cols events "ts" = ["ts"]) as Hcols by (vm_compute; reflexivity).
    rewrite Hcols in Hcol. apply list_elem_of_singleton in Hcol as ->.
    simpl. set_solver.
Qed.

Lemma inserts_keep_store_consistent_witness :
  store_consistent events events_2 ∧
  data_seq events_2 = N.of_nat (length [event "a" 10; event "b" 20]).
Proof.
  apply (inserts_keep_store_consistent events ["ts"] [event "a" 10; event "b" 20]).
  - apply schema_wf_events.
  - simpl. lia.
  - vm_compute. reflexivity.
Defined.

Lemma store_consistent_events_1 : store_consistent events events_1.
Proof.
  pose proof schema_wf_events as Hwf. pose proof Hwf as (Hok & Hnd & _).
  apply (store_consistent_Insert_all events [event "a" 10] (new_DB ["ts"]) events_1
           Hok Hnd).
  - by apply store_consistent_new.
  - intros k Hk. by apply elem_of_nil in Hk.
  - simpl. lia.
  - vm_compute. reflexivity.
Qed.

Lemma Select_after_Insert_witness :
  ∃ it, Select closed_distance (fun _ => events_2) events events_ops events_2 = Ok it ∧
    ∀ val, val ∈ rows_yielded (items it) ↔
      (val = event "b" 20 ∧ spec_matches events (event "b" 20) events_ranges = true) ∨
      val ∈ spec_full_scan events events_ranges events_1.
Proof.
  apply (Select_after_Insert closed_distance events (event "b" 20) events_1 events_2
           events_ops events_ranges).
  - apply schema_wf_events.
  - apply schema_wf_events.
  - apply store_consistent_events_1.
  - apply id_fresh_events_1.
  - vm_compute. reflexivity.
  - vm_compute. reflexivity.
  - vm_compute. reflexivity.
Defined.

(** ** What [Delete] and [Insert] leave alone *)

Section Monotone.
Context {OL : Ordered} {MU : MarshalUnmarshaler}.

(** Every store of [db'] holds a part of what it holds in [db]. *)
Definition stores_within (db db' : DB) : Prop :=
  data_bk db' `sublist_of` data_bk db ∧
  rev_bk db' `sublist_of` rev_bk db ∧
  data_seq db' = data_seq db ∧
  ∀ name, match index_bks db' !! name, index_bks db !! name with
          | Some b', Some b => b' `sublist_of` b
          | None, None => True
          | _, _ => False
          end.

Lemma stores_within_refl db : stores_within db db.
Proof.
  split; [done|]. split; [done|]. split; [done|].
  intros name. by destruct (index_bks db !! name).
Qed.

Lemma stores_within_trans db1 db2 db3 :
  stores_within db1 db2 → stores_within db2 db3 → stores_within db1 db3.
Proof.
  intros (Hd & Hr & Hs & Hi) (Hd' & Hr' & Hs' & Hi').
  split; [by etrans|]. split; [by etrans|]. split; [congruence|].
  intros name. specialize (Hi name). specialize (Hi' name).
  destruct (index_bks db3 !! name), (index_bks db2 !! name),
    (index_bks db1 !! name); try done. by etrans.
Qed.

Lemma IndexStore_delete_within name keyParts key db :
  stores_within db (IndexStore_delete name keyParts key db).1.
Proof.
  unfold IndexStore_delete.
  destruct (index_bks db !! name) as [b|] eqn:Hb; [|apply stores_within_refl].
  simpl. split; [done|]. split; [done|]. split; [done|].
  intros name'. simpl. destruct (decide (name' = name)) as [->|Hne].
  - rewrite lookup_insert_eq, Hb. apply Delete_sublist.
  - rewrite lookup_insert_ne by done. by destruct (index_bks db !! name').
Qed.

Lemma delete_indexes_within pr rs e db :
  stores_within db (delete_indexes pr rs e db).1.
Proof.
  revert db. induction rs as [|[idxName key] rs IH]; intros db; simpl.
  { apply stores_within_refl. }
  destruct (indexesMeta pr !! idxName) as [keyFields|]; [|apply stores_within_refl].
  pose proof (IndexStore_delete_within idxName (key_parts (value_of e) keyFields)
                key db) as Hstep.
  destruct (IndexStore_delete _ _ _ db) as [db1 [err|]]; [done|].
  eapply stores_within_trans; [exact Hstep|apply IH].
Qed.

Lemma Delete_body_within pr item (w : DB * option error) :
  stores_within w.1 (Delete_body pr item w).1.1.
Proof.
  unfold Delete_body. destruct item as [e|err]; [|apply stores_within_refl].
  destruct (ReverseIndexStore_get (id e) w.1); [|apply stores_within_refl].
  pose proof (delete_indexes_within pr (map_to_list a) e w.1) as Hstep.
  destruct (delete_indexes pr (map_to_list a) e w.1) as [db1 [err|]]; [done|].
  simpl. eapply stores_within_trans; [exact Hstep|].
  split; [apply Delete_sublist|]. split; [apply Delete_sublist|]. split; [done|].
  intros name. simpl. by destruct (index_bks db1 !! name).
Qed.

(** X13.  [Delete] only removes: whatever the predicates, and also
    when it stops on an error part of the way, the data bucket, the
    reverse index and every index bucket afterwards hold, in the same
    order, entries they held before; no bucket is made or dropped and
    the sequence of row ids is not moved. *)
Theorem Delete_only_removes (distance : keyRange → bytes) (pr : Persistent)
    (ops : list Op) (db : DB) :
  stores_within db (Delete distance pr ops db).1.
Proof.
  unfold Delete.
  destruct (iter distance fst pr ops db) as [it|err] eqn:Hit; [|apply stores_within_refl].
  apply (iter_preserves distance fst pr ops db it
           (fun w => stores_within db w.1) (Delete_body pr) (db, None) Hit).
  - intros item w Hw. eapply stores_within_trans; [exact Hw|apply Delete_body_within].
  - apply stores_within_refl.
Qed.

Lemma flat_map_nil {A B} (f : A → list B) (l : list A) :
  flat_map f l = [] → Forall (fun j => f j = []) l.
Proof.
  induction l as [|a l IH]; simpl; [done|].
  intros [Ha Hl]%app_eq_nil. constructor; [done|by apply IH].
Qed.

(** X14.  When the scan of the predicates hands nothing over, neither
    a row nor an error, [Delete] returns no error and the database it
    was given. *)
Theorem Delete_nothing_matched (distance : keyRange → bytes) (pr : Persistent)
    (ops : list Op) (db : DB)
    (it : (result entry → list (result entry) → list (result entry) * bool)
          → list (result entry) → list (result entry) * bool) :
  iter distance (fun _ => db) pr ops db = Ok it →
  items it = [] →
  Delete distance pr ops db = (db, None).
Proof.
  intros Hit Hitems. unfold Delete. unfold iter in *.
  destruct (toRanges ops) as [ranges|]; [simpl in *|done].
  destruct (selected_indexes pr ranges) as [|idx0 idxs].
  - injection Hit as <-. unfold items in Hitems.
    rewrite full_scan_feed, feed_take_all in Hitems. simpl in Hitems.
    rewrite full_scan_feed. simpl. by rewrite Hitems.
  - set (chosen := MinFunc idx0 idxs (distance_cmp distance ranges)) in *.
    unfold IndexStore_get in *.
    destruct (index_bks db !! chosen) as [b|] eqn:Hb; [simpl in *|done].
    injection Hit as <-. unfold items, index_scan in Hitems.
    rewrite IndexStore_get_loop_feed in Hitems.
    rewrite (feed_ext _ (fun idb w => feed take_all
                           (fetch pr ranges chosen db idb) w)) in Hitems
      by (intros; apply index_scan_step).
    rewrite feed_flat, feed_take_all in Hitems. simpl in Hitems.
    apply flat_map_nil in Hitems.
    unfold index_scan. rewrite IndexStore_get_loop_feed. simpl.
    rewrite (feed_ext _ (fun idb w => feed (Delete_body pr)
                           (fetch pr ranges chosen w.1 idb) w))
      by (intros; apply index_scan_step).
    rewrite Hb in *. simpl in *.
    by rewrite (feed_empty_steps (fun w => fetch pr ranges chosen w.1)).
Qed.

(** Every key of [db] is a key of [db'], store by store. *)
Definition keys_kept (db db' : DB) : Prop :=
  (∀ k, k ∈ keys (data_bk db) → k ∈ keys (data_bk db')) ∧
  (∀ k, k ∈ keys (rev_bk db) → k ∈ keys (rev_bk db')) ∧
  ∀ name b key, index_bks db !! name = Some b → key ∈ keys b →
    ∃ b', index_bks db' !! name = Some b' ∧ key ∈ keys b'.

Lemma keys_kept_refl db : keys_kept db db.
Proof. split; [done|]. split; [done|]. intros name b key Hb Hk. by exists b. Qed.

Lemma keys_kept_trans db1 db2 db3 :
  keys_kept db1 db2 → keys_kept db2 db3 → keys_kept db1 db3.
Proof.
  intros (Hd & Hr & Hi) (Hd' & Hr' & Hi'). split; [auto|]. split; [auto|].
  intros name b key Hb Hk. destruct (Hi name b key Hb Hk) as (b2 & Hb2 & Hk2).
  by apply (Hi' name b2).
Qed.

Lemma dataStorage_insert_kept obj db :
  keys_kept db (dataStorage_insert obj db).1 ∧
  ∀ j, j ≠ id_bytes (next_id db) →
    bucket_Get j (data_bk (dataStorage_insert obj db).1) = bucket_Get j (data_bk db).
Proof.
  destruct (dataStorage_insert_stores obj db) as [Hi Hr].
  destruct (dataStorage_insert obj db) as [dbA [idb|err]] eqn:Hins; simpl in *.
  - apply dataStorage_insert_Ok in Hins as (-> & dataBytes & _ & ->). simpl. split.
    + split; [|split; [done|]].
      * intros k Hk. apply keys_Put. by right.
      * intros name b key Hb Hk. by exists b.
    + intros j Hj. by apply Get_Put_ne.
  - apply dataStorage_insert_Err in Hins. split.
    + split; [by rewrite Hins|]. split; [by rewrite Hr|].
      intros name b key Hb Hk. exists b. by rewrite Hi.
    + intros j _. by rewrite Hins.
Qed.

Lemma insert_indexes_kept ms obj idb rev db :
  keys_kept db (insert_indexes ms obj idb rev db).1 ∧
  data_bk (insert_indexes ms obj idb rev db).1 = data_bk db.
Proof.
  pose proof (insert_indexes_ind
    (fun m => ∀ name b key, index_bks db !! name = Some b → key ∈ keys b →
                ∃ b', m !! name = Some b' ∧ key ∈ keys b')
    ms obj idb rev db) as Hind.
  simpl in Hind. destruct Hind as (Hi & Hd & _ & Hr).
  - intros name cols m b _ Hm Hb _ name' b0 key Hb0 Hk.
    destruct (Hm name' b0 key Hb0 Hk) as (b1 & Hb1 & Hk1).
    destruct (decide (name' = name)) as [->|Hne].
    + rewrite lookup_insert_eq. eexists. split; [done|].
      apply keys_Put. right. congruence.
    + rewrite lookup_insert_ne by done. by exists b1.
  - intros name b key Hb Hk. by exists b.
  - split; [|done]. split; [by rewrite Hd|]. split; [by rewrite Hr|done].
Qed.

(** X15.  [Insert] removes nothing, whether it succeeds or fails at
    any step: every key of the data bucket, of the reverse index and of
    each index bucket is still there afterwards, and the payload under
    every row id other than the one taken from the sequence is as
    before. *)
Theorem Insert_only_adds (pr : Persistent) (obj : row) (db : DB) :
  keys_kept db (Insert pr obj db).1 ∧
  ∀ j, j ≠ id_bytes (next_id db) →
    bucket_Get j (data_bk (Insert pr obj db).1) = bucket_Get j (data_bk db).
Proof.
  unfold Insert.
  destruct (negb (size obj =? length (columns pr))%nat);
    [split; [apply keys_kept_refl|done]|].
  destruct (missing_field obj (columns pr)); [split; [apply keys_kept_refl|done]|].
  destruct (dataStorage_insert_kept obj db) as [HkA HgA].
  destruct (dataStorage_insert obj db) as [dbA [idb|err]]; simpl in *; [|done].
  destruct (check_uniques _ obj dbA); [done|].
  destruct (insert_indexes_kept (map_to_list (indexesMeta pr)) obj idb ∅ dbA)
    as [HkB HdB].
  destruct (insert_indexes _ obj idb ∅ dbA) as [dbB [rev1|err]]; simpl in *.
  2:{ split; [by eapply keys_kept_trans|]. intros j Hj. rewrite HdB. by apply HgA. }
  destruct (insert_indexes_kept (map_to_list (uniquesMeta pr)) obj idb rev1 dbB)
    as [HkC HdC].
  destruct (insert_indexes _ obj idb rev1 dbB) as [dbC [rev2|err]]; simpl in *.
  2:{ split; [eapply keys_kept_trans; [|exact HkC]; by eapply keys_kept_trans|].
      intros j Hj. rewrite HdC, HdB. by apply HgA. }
  split.
  - eapply keys_kept_trans; [|eapply keys_kept_trans; [exact HkC|]].
    + by eapply keys_kept_trans.
    + split; [done|]. split; [|intros name b key Hb Hk; by exists b].
      intros k Hk. simpl. apply keys_Put. by right.
  - intros j Hj. rewrite HdC, HdB. by apply HgA.
Qed.

End Monotone.

Lemma Delete_nothing_matched_witness :
  Delete closed_distance events [EqOp "ts" (VUint 99)] events_2 = (events_2, None).
Proof.
  eapply (Delete_nothing_matched closed_distance events [EqOp "ts" (VUint 99)] events_2).
  - vm_compute. reflexivity.
  - vm_compute. reflexivity.
Defined.

(** ** When [Insert] succeeds *)

Section InsertSucceeds.
Context {OL : Ordered} {MU : MarshalUnmarshaler}.








End InsertSucceeds.


(** ** What [Delete] removes *)

Section DeleteRemoves.
Context {OL : Ordered} {MU : MarshalUnmarshaler}.






Lemma Delete_filter {V} k (b : bucket V) :
  bucket_sorted b → bucket_Delete k b = filter (fun kv => kv.1 ≠ k) b.
Proof.
  induction b as [|[k0 v0] b IH]; intros Hs; simpl; [done|].
  apply bucket_sorted_cons in Hs as [Hb Hk0].
  destruct (bytes_Compare k k0) eqn:E.
  - apply bytes_Compare_eq in E as <-.
    rewrite filter_cons_False by (simpl; by intros H).
    rewrite <- IH by done. symmetry. apply Delete_absent.
    intros Hin. apply Hk0 in Hin. by apply bytes_lt_irrefl in Hin.
  - rewrite filter_cons_True.
    2:{ simpl. intros <-. by rewrite bytes_Compare_refl in E. }
    by rewrite IH.
  - rewrite filter_cons_True.
    2:{ simpl. intros <-. by rewrite bytes_Compare_refl in E. }
    by rewrite IH.
Qed.








Lemma fetch_cases pr ranges chosen db idb :
  bucket_sorted (data_bk db) →
  fetch pr ranges chosen db idb = [] ∨
  ∃ item, fetch pr ranges chosen db idb = [item] ∧ ∀ e, item = Ok e → id e = idb.
Proof.
  intros Hs. unfold fetch. rewrite data_scan_id by done.
  destruct (bucket_Get idb (data_bk db)) as [v|]; [|by left].
  unfold data_item. simpl. destruct (maUn_Unmarshal v) as [val|err]; simpl.
  - destruct (matchOps pr val ranges chosen) as [[]|err]; simpl; [|by left|].
    + right. eexists. split; [done|]. by intros e [= <-].
    + right. eexists. split; [done|]. by intros e [=].
  - right. eexists. split; [done|]. by intros e [=].
Qed.






End DeleteRemoves.




(** ** [Select] after [Delete] *)

Section SelectAfterDelete.
Context {OL : Ordered} {MU : MarshalUnmarshaler}.



Lemma Delete_within (distance : keyRange → bytes) pr ops db :
  stores_within db (Delete distance pr ops db).1.
Proof.
  unfold Delete.
  destruct (iter distance fst pr ops db) as [it|err] eqn:Hit; [|apply stores_within_refl].
  apply (iter_preserves distance fst pr ops db it
           (fun w => stores_within db w.1) (Delete_body pr) (db, None) Hit).
  - intros item w Hw. eapply stores_within_trans; [exact Hw|apply Delete_body_within].
  - apply stores_within_refl.
Qed.






End SelectAfterDelete.


(** ** The invariants of the three stores together *)

Section RelInv.
Context {OL : Ordered} {MU : MarshalUnmarshaler}.

(** The row [r] is stored under the id [idb]. *)
Definition stored (db : DB) (idb : bytes) (r : row) : Prop :=
  ∃ payload, (idb, payload) ∈ data_bk db ∧ maUn_Unmarshal payload = Ok r.

(** The record of the reverse index for a row: its key in each index
    of [indexesMeta]. *)
Definition rev_entry (pr : Persistent) (r : row) (idb : bytes) : gmap string bytes :=
  row_index_key r idb <$> indexesMeta pr.

(** The three stores agree: the data bucket and the reverse index are
    in key order; every payload is a row, with the columns of the
    relation, its record in the reverse index, and values the ordered
    codec encodes in the key columns of every index; the bucket of
    every index of [indexesMeta] is there, in key order, and holds
    exactly one key per stored row. *)
Definition rel_inv (pr : Persistent) (db : DB) : Prop :=
  bucket_sorted (data_bk db) ∧ bucket_sorted (rev_bk db) ∧
  (∀ idb payload, (idb, payload) ∈ data_bk db → ∃ r, maUn_Unmarshal payload = Ok r) ∧
  (∀ idb r, stored db idb r →
     (∀ col, is_Some (r !! col) ↔ col ∈ columns pr) ∧
     bucket_Get idb (rev_bk db) = Some (rev_entry pr r idb) ∧
     ∀ name cols, indexesMeta pr !! name = Some cols →
       ordered_CanEncode (key_parts r cols) = true) ∧
  ∀ name cols, indexesMeta pr !! name = Some cols →
    ∃ b, index_bks db !! name = Some b ∧ bucket_sorted b ∧
      ∀ key, key ∈ keys b ↔ ∃ idb r, stored db idb r ∧ key = row_index_key r idb cols.

Lemma stored_unique db idb r r' :
  bucket_sorted (data_bk db) → stored db idb r → stored db idb r' → r = r'.
Proof.
  intros Hs (p & Hin & Hu) (p' & Hin' & Hu').
  pose proof (elem_sorted_unique _ _ _ _ Hs Hin Hin') as <-. congruence.
Qed.

Lemma row_index_key_id r r' idb idb' cols :
  ordered_CanEncode (key_parts r cols) = true →
  ordered_CanEncode (key_parts r' cols) = true →
  row_index_key r idb cols = row_index_key r' idb' cols → idb = idb'.
Proof.
  intros Hc Hc' Heq.
  assert (index_entry (length cols) (row_index_key r idb cols)
          = index_entry (length cols) (row_index_key r' idb' cols)) as He
    by (by rewrite Heq).
  unfold row_index_key in He.
  rewrite !index_entry_key in He by (done || apply length_key_parts).
  by injection He.
Qed.

Lemma elem_of_Delete {V} k (b : bucket V) kv :
  bucket_sorted b → kv ∈ bucket_Delete k b ↔ kv.1 ≠ k ∧ kv ∈ b.
Proof. intros Hs. by rewrite Delete_filter, list_elem_of_filter. Qed.

Lemma stored_Delete db idb0 idb r :
  bucket_sorted (data_bk db) →
  stored (dataStorage_delete idb0 (ReverseIndexStore_delete idb0 db)) idb r ↔
  idb ≠ idb0 ∧ stored db idb r.
Proof.
  intros Hs. unfold stored. simpl. split.
  - intros (p & Hin & Hu). apply elem_of_Delete in Hin as [Hne Hin]; [|done].
    split; [done|]. by exists p.
  - intros (Hne & p & Hin & Hu). exists p. split; [|done]. by apply elem_of_Delete.
Qed.

(** A step of the loop of [Delete] on a stored row succeeds and keeps
    the invariants; the row is gone and the others stay. *)
Lemma rel_inv_Delete_body pr db e :
  rel_inv pr db → stored db (id e) (value_of e) →
  ∃ db', Delete_body pr (Ok e) (db, None) = ((db', None), true) ∧
    rel_inv pr db' ∧
    data_bk db' = bucket_Delete (id e) (data_bk db) ∧
    ∀ idb r, stored db' idb r ↔ idb ≠ id e ∧ stored db idb r.
Proof.
  intros (Hsd & Hsr & Hrows & Hstored & Hidx) He.
  destruct (Hstored _ _ He) as (Hdom & Hrev & Hcan).
  unfold Delete_body, ReverseIndexStore_get. simpl. rewrite Hrev.
  destruct (delete_indexes_lookup pr
              (map_to_list (rev_entry pr (value_of e) (id e))) e db)
    as (db1 & -> & Hd1 & _ & Hr1 & Hi1).
  { apply NoDup_fst_map_to_list. }
  { intros name key Hin%elem_of_map_to_list. unfold rev_entry in Hin.
    rewrite lookup_fmap in Hin.
    destruct (indexesMeta pr !! name) as [cols|] eqn:Hm; [|done].
    split; [by eexists|]. destruct (Hidx name cols Hm) as (b & Hb & _). by eexists. }
  rewrite list_to_map_to_list in Hi1.
  set (db' := dataStorage_delete (id e) (ReverseIndexStore_delete (id e) db1)).
  assert (∀ idb r, stored db' idb r ↔ idb ≠ id e ∧ stored db idb r) as Hst.
  { intros idb r. unfold db'. rewrite stored_Delete by (by rewrite Hd1).
    unfold stored. by rewrite Hd1. }
  exists db'. split; [done|]. split; [|split; [by simpl; rewrite Hd1|done]].
  split; [|split; [|split; [|split]]].
  - simpl. rewrite Hd1. by apply sorted_Delete.
  - simpl. rewrite Hr1. by apply sorted_Delete.
  - intros idb payload Hin. simpl in Hin. rewrite Hd1 in Hin.
    apply elem_of_Delete in Hin as [_ Hin]; [|done]. by apply (Hrows idb).
  - intros idb r [Hne Hs]%Hst. destruct (Hstored idb r Hs) as (Hdom' & Hrev' & Hcan').
    split; [done|]. split; [|done].
    simpl. rewrite Hr1. by rewrite Get_Delete_ne.
  - intros name cols Hm. destruct (Hidx name cols Hm) as (b & Hb & Hbs & Hkeys).
    exists (bucket_Delete (row_index_key (value_of e) (id e) cols) b).
    split; [|split; [by apply sorted_Delete|]].
    + simpl. rewrite Hi1. unfold rev_entry. by rewrite lookup_fmap, Hm, Hb.
    + intros key. rewrite keys_Delete, Hkeys by done. split.
      * intros (Hne & idb & r & Hs & ->). exists idb, r. split; [|done].
        apply Hst. split; [|done]. intros ->.
        by rewrite (stored_unique db (id e) r (value_of e) Hsd Hs He) in Hne.
      * intros (idb & r & [Hne Hs]%Hst & ->). split; [|by exists idb, r].
        intros Heq. apply Hne.
        destruct (Hstored idb r Hs) as (_ & _ & Hcan').
        eapply row_index_key_id; [| |exact Heq]; eauto.
Qed.

Lemma Delete_body_fst pr item (w : DB * option error) :
  Delete_body pr item w = Delete_body pr item (w.1, None).
Proof. by destruct w. Qed.

Lemma Delete_body_Err pr err (w : DB * option error) :
  (Delete_body pr (Err err) w).1.1 = w.1.
Proof. done. Qed.

(** The loop of [Delete] over the rows an index scan fetches. *)
Lemma rel_inv_Delete_fetch pr ranges chosen idb (w : DB * option error) :
  rel_inv pr w.1 →
  rel_inv pr (feed (Delete_body pr) (fetch pr ranges chosen w.1 idb) w).1.1.
Proof.
  intros Hinv. pose proof Hinv as (Hsd & _).
  destruct (fetch_cases pr ranges chosen w.1 idb Hsd) as [->|(item & Hf & _)]; [done|].
  rewrite Hf. simpl. destruct item as [e|err].
  - assert (stored w.1 (id e) (value_of e)) as Hst.
    { assert (Ok e ∈ fetch pr ranges chosen w.1 idb) as Hin by (rewrite Hf; by left).
      apply fetch_elem in Hin as (payload & Hin & <- & Hu & _); [|done].
      by exists payload. }
    destruct (rel_inv_Delete_body pr w.1 e Hinv Hst) as (db' & Hbody & Hinv' & _).
    rewrite Delete_body_fst, Hbody. by simpl.
  - exact Hinv.
Qed.

Lemma feed_cons {A W} (g : A → W → W * bool) a l w :
  feed g (a :: l) w
  = let '(w', more) := g a w in if negb more then (w', false) else feed g l w'.
Proof. done. Qed.

Lemma body_item_Ok pr ranges skip kv e :
  body_item pr ranges skip (data_item kv) = Some (Ok e) →
  id e = kv.1 ∧ maUn_Unmarshal kv.2 = Ok (value_of e).
Proof.
  unfold body_item, data_item.
  destruct (maUn_Unmarshal kv.2) as [val|]; [|done]. simpl.
  destruct (matchOps pr val ranges skip) as [[]|]; try done.
  by intros [= <-].
Qed.

(** The loop of [Delete] over the rows of a full scan, which were read
    from the data bucket before the loop began. *)
Lemma rel_inv_Delete_static pr ranges skip (c : bucket bytes) (w : DB * option error) :
  rel_inv pr w.1 → bucket_sorted c →
  (∀ kv, kv ∈ c → kv ∈ data_bk w.1) →
  rel_inv pr
    (feed (Delete_body pr) (omap (body_item pr ranges skip) (map data_item c)) w).1.1.
Proof.
  revert w. induction c as [|[k v] c IH]; intros w Hinv Hs Hc; [done|].
  apply bucket_sorted_cons in Hs as [Hs Hk].
  assert (∀ kv, kv ∈ c → kv ∈ data_bk w.1) as Hc' by (intros kv Hkv; apply Hc; by right).
  change (omap (body_item pr ranges skip) (map data_item ((k, v) :: c)))
    with (match body_item pr ranges skip (data_item (k, v)) with
          | Some x => x :: omap (body_item pr ranges skip) (map data_item c)
          | None => omap (body_item pr ranges skip) (map data_item c)
          end).
  destruct (body_item pr ranges skip (data_item (k, v))) as [[e|err]|] eqn:Hbi.
  - apply body_item_Ok in Hbi as [Hid Hu]. simpl in Hid, Hu.
    assert (stored w.1 (id e) (value_of e)) as Hst.
    { exists v. split; [|done]. rewrite Hid. apply Hc. by left. }
    destruct (rel_inv_Delete_body pr w.1 e Hinv Hst) as (db' & Hbody & Hinv' & Hdata & _).
    rewrite feed_cons, Delete_body_fst, Hbody. simpl. apply IH; [done..|].
    intros kv Hkv. simpl. rewrite Hdata, Hid.
    apply elem_of_Delete; [apply Hinv|]. split; [|by apply Hc'].
    intros Heq. assert (bytes_lt k kv.1) as Hlt.
    { apply Hk. apply list_elem_of_fmap. by exists kv. }
    rewrite Heq in Hlt. by apply bytes_lt_irrefl in Hlt.
  - exact Hinv.
  - by apply IH.
Qed.

Lemma rel_inv_Delete (distance : keyRange → bytes) pr ops db :
  rel_inv pr db → rel_inv pr (Delete distance pr ops db).1.
Proof.
  intros Hinv. pose proof Hinv as (Hsd & Hsr & _).
  unfold Delete, iter.
  destruct (toRanges ops) as [ranges|]; [simpl|done].
  destruct (selected_indexes pr ranges) as [|idx0 idxs].
  - rewrite full_scan_feed, data_scan_full. simpl.
    by apply (rel_inv_Delete_static pr ranges "" (data_bk db) (db, None)).
  - unfold IndexStore_get.
    destruct (index_bks db !! _) as [b|] eqn:Hb; [simpl|done].
    unfold index_scan. rewrite IndexStore_get_loop_feed.
    erewrite feed_ext; [|intros; apply index_scan_step].
    apply (feed_preserves (fun w : DB * option error => rel_inv pr w.1)); [|done].
    intros idb w Hw. by apply rel_inv_Delete_fetch.
Qed.

(** The stored rows after a successful [Insert] that took an id not
    in use. *)
Lemma stored_Insert pr obj db db' idb r :
  bucket_sorted (data_bk db) →
  id_bytes (next_id db) ∉ keys (data_bk db) →
  Insert pr obj db = (db', None) →
  stored db' idb r ↔ (idb = id_bytes (next_id db) ∧ r = obj) ∨ stored db idb r.
Proof.
  intros Hs Hfresh Hins.
  pose proof (Insert_rows pr obj db db' Hs Hfresh Hins) as Hrows.
  destruct (Insert_data_bucket pr obj db db' Hins) as (dataBytes & Hm & _).
  unfold stored. split.
  - intros (p & Hin & Hu).
    destruct (proj1 (Hrows idb p r) (conj Hin Hu)) as [(-> & _ & ->)|[Hin' Hu']];
      [by left|right; by exists p].
  - intros [[-> ->]|(p & Hin & Hu)].
    + exists dataBytes. apply Hrows. by left.
    + exists p. apply Hrows. by right.
Qed.

Lemma rel_inv_Insert pr obj db db' :
  uniquesMeta pr ⊆ indexesMeta pr → NoDup (columns pr) →
  rel_inv pr db →
  id_bytes (next_id db) ∉ keys (data_bk db) →
  Insert pr obj db = (db', None) →
  rel_inv pr db'.
Proof.
  intros Hsub Hnd (Hsd & Hsr & Hrows & Hstored & Hidx) Hfresh Hins.
  pose proof (fun idb r => stored_Insert pr obj db db' idb r Hsd Hfresh Hins) as Hst.
  pose proof (Insert_None pr obj db db' Hins) as (Hsize & Hall & _).
  destruct (Insert_None_stores pr obj db db' Hsub Hins)
    as (dataBytes & Hm & Hdata & Hrev & Hbuckets).
  set (idb0 := id_bytes (next_id db)) in *.
  split; [|split; [|split; [|split]]].
  - rewrite Hdata. by apply sorted_Put.
  - rewrite Hrev. by apply sorted_Put.
  - intros idb payload Hin. rewrite Hdata in Hin.
    apply elem_of_Put in Hin as [[-> ->]|[_ Hin]]; [|by apply (Hrows idb)|done].
    exists obj. by apply maUn_Unmarshal_Marshal.
  - intros idb r [[-> ->]|Hs]%Hst.
    + split; [by apply schema_check_fields|]. split.
      * rewrite Hrev. apply Get_Put_eq.
      * intros name cols Hm'. specialize (Hbuckets name). rewrite Hm' in Hbuckets.
        apply Hbuckets.
    + destruct (Hstored idb r Hs) as (Hdom & Hget & Hcan).
      split; [done|]. split; [|done]. rewrite Hrev, Get_Put_ne; [done|].
      intros ->. apply Hfresh. destruct Hs as (p & Hin & _).
      apply list_elem_of_fmap. by exists (idb0, p).
  - intros name cols Hm'. destruct (Hidx name cols Hm') as (b & Hb & Hbs & Hkeys).
    specialize (Hbuckets name). rewrite Hm' in Hbuckets.
    destruct Hbuckets as (Hcan & b0 & Hb0 & Hb').
    assert (b0 = b) as -> by congruence.
    eexists. split; [exact Hb'|]. split; [by apply sorted_Put|].
    intros key. rewrite keys_Put, Hkeys. split.
    + intros [->|(idb & r & Hs & ->)].
      * exists idb0, obj. split; [|done]. apply Hst. by left.
      * exists idb, r. split; [|done]. apply Hst. by right.
    + intros (idb & r & [[-> ->]|Hs]%Hst & ->); [by left|]. right. by exists idb, r.
Qed.

(** What the declarations of a relation must be: every unique index
    also in [indexesMeta], no column twice, a bucket for every index,
    and every index of [allIndexes] declared over columns of the
    relation, a single-column index bearing the name of its column. *)
Definition rel_schema (pr : Persistent) (idxNames : list string) : Prop :=
  uniquesMeta pr ⊆ indexesMeta pr ∧ NoDup (columns pr) ∧
  (∀ name, is_Some (indexesMeta pr !! name) → name ∈ idxNames) ∧
  ∀ c, c ∈ allIndexes pr →
    is_Some (indexesMeta pr !! c) ∧
    (c ∈ columns pr → indexesMeta pr !! c = Some [c]) ∧
    ∀ cols col, indexesMeta pr !! c = Some cols → col ∈ cols → col ∈ columns pr.

Lemma rel_inv_new pr idxNames :
  rel_schema pr idxNames → rel_inv pr (new_DB idxNames).
Proof.
  intros (_ & _ & Hnames & _).
  split; [constructor|]. split; [constructor|]. split; [|split].
  - intros idb payload Hin. by apply elem_of_nil in Hin.
  - intros idb r (p & Hin & _). by apply elem_of_nil in Hin.
  - intros name cols Hm. exists []. split; [|split; [constructor|]].
    + apply new_DB_lookup, Hnames. by eexists.
    + intros key. split.
      * intros Hk. by apply elem_of_nil in Hk.
      * intros (idb & r & (p & Hin & _) & _). by apply elem_of_nil in Hin.
Qed.

Lemma rel_inv_consistent pr idxNames db :
  rel_schema pr idxNames → rel_inv pr db → store_consistent pr db.
Proof.
  intros (_ & _ & _ & Hall) (Hsd & _ & Hrows & Hstored & Hidx).
  split; [done|]. split.
  - intros idb payload Hin. destruct (Hrows idb payload Hin) as [r Hu].
    exists r. split; [done|]. apply (Hstored idb r). by exists payload.
  - intros c Hc. destruct (Hall c Hc) as ([cols Hm] & Hcol & Hcols).
    assert (index_cols pr c = cols) as Hic by (unfold index_cols; by rewrite Hm).
    unfold index_consistent. rewrite Hic. split; [left; by eexists|]. split.
    { intros Hin. rewrite (Hcol Hin) in Hm. by injection Hm. }
    split; [intros col; by apply Hcols|]. split.
    { intros idb payload val Hin Hu. eapply (Hstored idb val); [|done].
      by exists payload. }
    destruct (Hidx c cols Hm) as (b & Hb & Hbs & Hkeys).
    exists b. split; [done|]. split; [done|]. intros key. rewrite Hkeys. split.
    + intros (idb & r & (p & Hin & Hu) & ->). by exists idb, p, r.
    + intros (idb & p & r & Hin & Hu & ->). exists idb, r. split; [|done]. by exists p.
Qed.

(** The operations that write to a relation, and a run of them up to
    the first error. *)
Inductive rel_op :=
| RelInsert (obj : row)
| RelDelete (ops : list Op).

Fixpoint rel_run (distance : keyRange → bytes) (pr : Persistent)
    (l : list rel_op) (db : DB) : DB * option error :=
  match l with
  | [] => (db, None)
  | RelInsert obj :: l' =>
      match Insert pr obj db with
      | (db', None) => rel_run distance pr l' db'
      | (db', Some err) => (db', Some err)
      end
  | RelDelete ops :: l' =>
      match Delete distance pr ops db with
      | (db', None) => rel_run distance pr l' db'
      | (db', Some err) => (db', Some err)
      end
  end.

Lemma ids_inv_within db db' : stores_within db db' → ids_inv db → ids_inv db'.
Proof.
  intros (Hd & _ & Hs & _) Hinv k Hk. rewrite Hs. apply Hinv.
  unfold keys in *. eapply elem_of_sublist; [done|]. by apply fmap_sublist.
Qed.

Lemma rel_inv_run (distance : keyRange → bytes) pr l db db' :
  uniquesMeta pr ⊆ indexesMeta pr → NoDup (columns pr) →
  rel_inv pr db → ids_inv db →
  (data_seq db + N.of_nat (length l) < 2 ^ 64)%N →
  rel_run distance pr l db = (db', None) →
  rel_inv pr db'.
Proof.
  intros Hsub Hnd. revert db.
  induction l as [|[obj|ops] l IH]; intros db Hinv Hids Hlt; simpl in *.
  - by intros [= <-].
  - destruct (Insert pr obj db) as [db1 [err|]] eqn:Hins; [done|].
    assert (data_seq db + 1 < 2 ^ 64)%N as Hlt1 by lia.
    apply IH.
    + eapply rel_inv_Insert; [done..| |done]. by apply ids_inv_fresh.
    + by eapply ids_inv_Insert.
    + rewrite (Insert_data_seq pr obj db db1 Hins). unfold next_id.
      rewrite N.mod_small by done. lia.
  - pose proof (rel_inv_Delete distance pr ops db Hinv) as Hinv1.
    pose proof (Delete_within distance pr ops db) as Hw.
    destruct (Delete distance pr ops db) as [db1 [err|]]; [done|]. simpl in *.
    apply IH; [done|by eapply ids_inv_within|].
    destruct Hw as (_ & _ & -> & _). lia.
Qed.

(** X19.  [Delete] keeps the three stores in agreement, whatever its
    predicates and whether it ends with an error or not: if every
    stored row has its key in each index bucket and its record in the
    reverse index, and the buckets hold nothing else, the same is true
    after [Delete]; and every row stored afterwards was stored before,
    under the same id. *)
Theorem Delete_keeps_invariants (distance : keyRange → bytes) (pr : Persistent)
    (ops : list Op) (db : DB) :
  rel_inv pr db →
  rel_inv pr (Delete distance pr ops db).1 ∧
  ∀ idb r, stored (Delete distance pr ops db).1 idb r → stored db idb r.
Proof.
  intros Hinv. split; [by apply rel_inv_Delete|].
  destruct (Delete_within distance pr ops db) as (Hsub & _).
  intros idb r (payload & Hin & Hu). exists payload. split; [|done].
  by eapply elem_of_sublist.
Qed.

(** X20.  After any run of [Insert] and [Delete] on a fresh store in
    which every call returned no error (fewer than 2^64 calls), the
    three stores agree, and so the invariants hold on which the index
    scan of the planner relies. *)
Theorem operations_keep_invariants (distance : keyRange → bytes) (pr : Persistent)
    (idxNames : list string) (l : list rel_op) (db : DB) :
  rel_schema pr idxNames →
  (N.of_nat (length l) < 2 ^ 64)%N →
  rel_run distance pr l (new_DB idxNames) = (db, None) →
  rel_inv pr db ∧ store_consistent pr db.
Proof.
  intros Hschema Hlen Hrun. pose proof Hschema as (Hsub & Hnd & _).
  assert (rel_inv pr db) as Hinv.
  { apply (rel_inv_run distance pr l (new_DB idxNames) db Hsub Hnd); try done.
    - by apply rel_inv_new.
    - intros k Hk. by apply elem_of_nil in Hk. }
  split; [done|]. by eapply rel_inv_consistent.
Qed.

End RelInv.

(** keyed(k), [k] indexed *)
Definition keyed : Persistent :=
  {| indexesMeta := {[ "k" := ["k"] ]};
     uniquesMeta := ∅;
     columns := ["k"];
     relation := "keyed";
     allIndexes := ["k"] |}.

Definition keyed_row (n : N) : row := {[ "k" := VUint n ]}.

Definition keyed_ops : list rel_op :=
  [RelInsert (keyed_row 1); RelInsert (keyed_row 2); RelDelete [EqOp "k" (VUint 1)]].

Definition keyed_db : DB := (rel_run closed_distance keyed keyed_ops (new_DB ["k"])).1.

Lemma rel_schema_keyed : rel_schema keyed ["k"].
Proof.
  split; [apply map_empty_subseteq|]. split; [repeat constructor; set_solver|].
  split.
  - intros name [cols Hm]. simpl in Hm.
    apply lookup_singleton_Some in Hm as [<- _]. by left.
  - intros c Hc. apply list_elem_of_singleton in Hc as ->.
    split; [by eexists|]. split; [done|].
    intros cols col Hm Hcol. simpl in *.
    apply lookup_singleton_Some in Hm as [_ <-]. done.
Qed.

Lemma operations_keep_invariants_witness :
  rel_inv keyed keyed_db ∧ store_consistent keyed keyed_db.
Proof.
  apply (operations_keep_invariants closed_distance keyed ["k"] keyed_ops keyed_db).
  - apply rel_schema_keyed.
  - simpl. lia.
  - vm_compute. reflexivity.
Defined.

Lemma rel_inv_keyed_db : rel_inv keyed keyed_db.
Proof.
  pose proof rel_schema_keyed as (Hsub & Hnd & _).
  apply (rel_inv_run closed_distance keyed keyed_ops (new_DB ["k"]) keyed_db Hsub Hnd).
  - apply rel_inv_new, rel_schema_keyed.
  - intros k Hk. by apply elem_of_nil in Hk.
  - simpl. lia.
  - vm_compute. reflexivity.
Qed.

Lemma Delete_keeps_invariants_witness :
  rel_inv keyed (Delete closed_distance keyed [GeOp "k" (VUint 0)] keyed_db).1 ∧
  ∀ idb r, stored (Delete closed_distance keyed [GeOp "k" (VUint 0)] keyed_db).1 idb r →
    stored keyed_db idb r.
Proof.
  apply (Delete_keeps_invariants closed_distance keyed [GeOp "k" (VUint 0)] keyed_db).
  apply rel_inv_keyed_db.
Defined.

(** ** [matchOps] and the order of a map *)

Section MatchOpsOrder.
Context {OL : Ordered} {MU : MarshalUnmarshaler}.

(** The two loops of [matchOps], each over the ranges in an order of
    its own. *)
Definition matchOps_in_order (pr : Persistent) (val : row) (ks : list string)
    (rs : list (string * keyRange)) (skip : string) : result bool :=
  compositeValue ← matchOps_composite pr val ks skip ∅;
  matchOps_ranges val compositeValue rs skip.

(** The range [R] on [F] holds of the row: the field of the row, or
    else the tuple of the key columns of the index [F], is encoded by
    the ordered codec into bytes that [R] contains. *)
Definition range_holds (pr : Persistent) (val : row) (F : string)
    (R : keyRange) : Prop :=
  ∃ v vBytes, spec_field_value pr val F = Some v ∧
    orderedMa_Marshal v = Ok vBytes ∧ contains R vBytes = true.

Lemma range_holds_matches pr val F R :
  range_holds pr val F R ↔ spec_field_matches pr val F R = true.
Proof.
  unfold range_holds, spec_field_matches. split.
  - intros (v & vBytes & -> & -> & Hc). exact Hc.
  - destruct (spec_field_value pr val F) as [v|]; [|done].
    destruct (orderedMa_Marshal v) as [vBytes|] eqn:Hm; [|done].
    intros Hc. by exists v, vBytes.
Qed.

(** X21.  Go visits the entries of a map in an order it does not
    fix, and [matchOps] ranges twice over the map of the ranges.  In
    whatever orders the two loops visit them, [matchOps] answers true
    for the same rows: exactly when every range other than the one
    to skip holds of the row. *)
Theorem matchOps_accepts_in_any_order (pr : Persistent) (val : row)
    (ranges : gmap string keyRange) (skip : string)
    (ks : list string) (rs : list (string * keyRange)) :
  ks ≡ₚ (map_to_list ranges).*1 → rs ≡ₚ map_to_list ranges →
  matchOps_in_order pr val ks rs skip = Ok true ↔
  ∀ F R, ranges !! F = Some R → F ≠ skip → range_holds pr val F R.
Proof.
  intros Hks Hrs. unfold matchOps_in_order.
  assert (composites_ok pr val ∅) as H0 by (intros F v; by rewrite lookup_empty).
  assert (∀ F R, (F, R) ∈ rs ↔ ranges !! F = Some R) as Hin_rs.
  { intros F R. by rewrite Hrs, elem_of_map_to_list. }
  assert (∀ F, F ∈ rs.*1 ↔ F ∈ ks) as Hin_ks.
  { intros F. by rewrite Hks, Hrs. }
  split.
  - destruct (matchOps_composite _ _ _ _ _) as [cv|] eqn:Hc; [simpl|done].
    destruct (matchOps_composite_Ok _ _ _ _ _ _ H0 Hc) as (Hok & _ & Hcov).
    rewrite (matchOps_ranges_true pr); [|done|].
    2:{ intros F HF. apply Hcov. by apply Hin_ks. }
    intros H F R HF Hne. apply range_holds_matches, H; [|done]. by apply Hin_rs.
  - intros H.
    destruct (matchOps_composite_total pr val ks skip ∅) as [cv Hc].
    { intros F HF Hne Hnone. apply Hin_ks in HF.
      apply list_elem_of_fmap in HF as ([F' R] & -> & Hin). simpl in *.
      apply Hin_rs in Hin. destruct (H F' R Hin Hne) as (v & _ & Hv & _).
      unfold spec_field_value in Hv. rewrite Hnone in Hv. by eexists. }
    rewrite Hc. simpl.
    destruct (matchOps_composite_Ok _ _ _ _ _ _ H0 Hc) as (Hok & _ & Hcov).
    apply (matchOps_ranges_true pr); [done| |].
    + intros F HF. apply Hcov. by apply Hin_ks.
    + intros F R HF%Hin_rs Hne. by apply range_holds_matches, H.
Qed.

End MatchOpsOrder.

Lemma matchOps_accepts_in_any_order_witness :
  matchOps_in_order ab {[ "a" := VUint 1; "b" := VUint 5 ]}
    (reverse (map_to_list ab_ranges).*1) (reverse (map_to_list ab_ranges)) ""
  = Ok true ↔
  ∀ F R, ab_ranges !! F = Some R → F ≠ "" →
    range_holds ab {[ "a" := VUint 1; "b" := VUint 5 ]} F R.
Proof.
  apply (matchOps_accepts_in_any_order ab {[ "a" := VUint 1; "b" := VUint 5 ]}
           ab_ranges "").
  - apply reverse_Permutation.
  - apply reverse_Permutation.
Defined.

(** ** Unique indexes, seen from the rows *)

Section UniqueRows.
Context {OL : Ordered} {MU : MarshalUnmarshaler}.




End UniqueRows.









(** ** [Select] with one predicate *)

Section OnePredicate.
Context {OL : Ordered} {MU : MarshalUnmarshaler}.

Lemma toRanges_one c v t vb :
  orderedMa_Marshal v = Ok vb →
  toRanges [{| Field := c; Value := v; Type_ := t |}] = Ok {[ c := op_range t vb ]}.
Proof.
  intros Hm. unfold toRanges, toRanges_step. simpl. rewrite Hm. simpl.
  rewrite lookup_empty. simpl. f_equal.
  assert (intersect full_range (op_range t vb) = op_range t vb) as ->
    by (by destruct t).
  done.
Qed.

(** X23.  On a store that keeps the invariants of the data model,
    [Select] with one predicate on a column, of any of the six
    operators and whether or not the column is indexed, yields exactly
    the stored rows whose value in that column is encoded by the
    ordered codec into bytes that the range of the operator around the
    encoded operand contains. *)
Theorem Select_one_predicate (distance : keyRange → bytes) (pr : Persistent)
    (db : DB) (c : string) (t : OpType) (v : value) (vb : bytes) :
  store_consistent pr db → c ∈ columns pr → c ≠ "" →
  orderedMa_Marshal v = Ok vb →
  ∃ it, Select distance (fun _ => db) pr
          [{| Field := c; Value := v; Type_ := t |}] db = Ok it ∧
    ∀ val, val ∈ rows_yielded (items it) ↔
      ∃ idb w wb, stored db idb val ∧ val !! c = Some w ∧
        orderedMa_Marshal w = Ok wb ∧ contains (op_range t vb) wb = true.
Proof.
  intros Hcons Hc Hne Hm.
  destruct (Select_rows_spec distance pr
              [{| Field := c; Value := v; Type_ := t |}] db
              {[ c := op_range t vb ]} Hcons (toRanges_one c v t vb Hm))
    as (it & Hit & Hrows).
  { by apply lookup_singleton_ne. }
  exists it. split; [done|]. intros val.
  rewrite Hrows, spec_full_scan_elem.
  assert (∀ w, val !! c = Some w →
            spec_matches pr val {[ c := op_range t vb ]} = true ↔
            ∃ wb, orderedMa_Marshal w = Ok wb ∧ contains (op_range t vb) wb = true)
    as Hmatch.
  { intros w Hw. rewrite spec_matches_true. split.
    - intros H. specialize (H c (op_range t vb) (lookup_singleton_eq _ _)).
      unfold spec_field_matches, spec_field_value in H. rewrite Hw in H.
      destruct (orderedMa_Marshal w) as [wb|]; [|done]. by exists wb.
    - intros (wb & Hwb & Hin) F R [<- <-]%lookup_singleton_Some.
      unfold spec_field_matches, spec_field_value. by rewrite Hw, Hwb. }
  destruct Hcons as (_ & Hdom & _). split.
  - intros (idb & payload & Hin & Hu & Hsm).
    destruct (Hdom idb payload Hin) as (val' & Hu' & Hfields).
    assert (val' = val) as -> by congruence.
    destruct (proj2 (Hfields c) Hc) as [w Hw].
    destruct (proj1 (Hmatch w Hw) Hsm) as (wb & Hwb & Hcont).
    exists idb, w, wb. split; [by exists payload|done].
  - intros (idb & w & wb & (payload & Hin & Hu) & Hw & Hwb & Hcont).
    exists idb, payload. split; [done|]. split; [done|].
    apply (Hmatch w Hw). by exists wb.
Qed.

End OnePredicate.

Lemma Select_one_predicate_witness :
  ∃ it, Select closed_distance (fun _ => events_2) events
          [{| Field := "ts"; Value := VUint 15; Type_ := OpGe |}] events_2 = Ok it ∧
    ∀ val, val ∈ rows_yielded (items it) ↔
      ∃ idb w wb, stored events_2 idb val ∧ val !! "ts" = Some w ∧
        orderedMa_Marshal w = Ok wb ∧
        contains (op_range OpGe (Encode1 (VUint 15))) wb = true.
Proof.
  apply (Select_one_predicate closed_distance events events_2 "ts" OpGe (VUint 15)).
  - apply store_consistent_events_2.
  - simpl. set_solver.
  - done.
  - vm_compute. reflexivity.
Defined.

(** ** [Delete] twice *)

Section DeleteTwice.
Context {OL : Ordered} {MU : MarshalUnmarshaler}.




End DeleteTwice.

